(** * Shoot-Shag-Marry party-game server: a shallow embedding of [server.js]

    The server keeps three registries ([lobbies], [gameStates],
    [disconnectedPlayers]), reacts to HTTP requests and socket events and
    drives every game through timers.  The embedding keeps the shape of
    the JavaScript: one function per handler or callback, explicit state
    passing for the module-level registries, a heap of game-state objects
    (closures capture the object, not the lobby code), and an explicit
    table of pending [setInterval]/[setTimeout] callbacks ordered by due
    time. *)

From Stdlib Require Import ZArith Lia Ascii String.
From stdpp Require Import gmap strings list.

Local Open Scope string_scope.
Local Open Scope list_scope.
Local Open Scope nat_scope.

(** ** JavaScript plain objects used as counters *)

Module JS.

(** A string is truthy when it is not empty. *)
Definition truthy (s : string) : bool :=
  match s with EmptyString => false | String _ _ => true end.

Definition digit_of (a : ascii) : option N :=
  let n := N_of_ascii a in
  if ((48 <=? n) && (n <=? 57))%N then Some (n - 48)%N else None.

Fixpoint parse_digits (s : string) (acc : N) : option N :=
  match s with
  | EmptyString => Some acc
  | String a r =>
      match digit_of a with
      | Some d => parse_digits r (acc * 10 + d)%N
      | None => None
      end
  end.

(** Property keys that are array indices (canonical decimal numerals
    below 2^32 - 1) are enumerated first, in ascending numeric order;
    every other string key follows in creation order. *)
Definition array_index (s : string) : option N :=
  match s with
  | EmptyString => None
  | String "0" EmptyString => Some 0%N
  | String "0" _ => None
  | _ => match parse_digits s 0 with
         | Some n => if (n <? 4294967295)%N then Some n else None
         | None => None
         end
  end.

(** Names every object literal inherits from [Object.prototype]: reading
    such a key from [{}] yields a function (or the prototype itself), a
    truthy value that is neither a number nor a vote. *)
Definition proto_key (s : string) : bool :=
  bool_decide (s ∈ [ "constructor"; "__proto__"; "hasOwnProperty";
                     "isPrototypeOf"; "propertyIsEnumerable";
                     "toLocaleString"; "toString"; "valueOf";
                     "__defineGetter__"; "__defineSetter__";
                     "__lookupGetter__"; "__lookupSetter__" ]).

(** [o[k] = v] on an object literal whose values are primitives: the
    inherited [__proto__] setter swallows the assignment. *)
Definition set {V} (k : string) (v : V) (o : gmap string V) : gmap string V :=
  if decide (k = "__proto__") then o else <[k := v]> o.

(** The value held by a slot of a counter object: a number, or the
    string that [+ 1] makes out of an inherited function. *)
Inductive cell := Count (n : Z) | Garbage.

(** Own properties in enumeration order ([Object.entries]). *)
Definition object := list (string * cell).

Fixpoint own (k : string) (o : object) : option cell :=
  match o with
  | [] => None
  | (k', c) :: r => if decide (k = k') then Some c else own k r
  end.

Fixpoint update (k : string) (c : cell) (o : object) : object :=
  match o with
  | [] => []
  | (k', c') :: r =>
      if decide (k = k') then (k', c) :: r else (k', c') :: update k c r
  end.

(** Creation of a new own property, at its place in enumeration order. *)
Fixpoint create (k : string) (c : cell) (o : object) : object :=
  match o with
  | [] => [(k, c)]
  | (k', c') :: r =>
      match array_index k, array_index k' with
      | Some n, Some n' =>
          if (n <? n')%N then (k, c) :: o else (k', c') :: create k c r
      | Some _, None => (k, c) :: o
      | None, _ => (k', c') :: create k c r
      end
  end.

Definition assign (k : string) (c : cell) (o : object) : object :=
  if decide (k = "__proto__") then o
  else match own k o with
       | Some _ => update k c o
       | None => create k c o
       end.

(** [o[k] = (o[k] || 0) + 1]. *)
Definition incr (k : string) (o : object) : object :=
  match own k o with
  | Some (Count n) => assign k (Count ((if (n =? 0)%Z then 0 else n) + 1)) o
  | Some Garbage => assign k Garbage o
  | None => if proto_key k then assign k Garbage o else assign k (Count 1) o
  end.

(** [s.length]: the number of UTF-16 code units of a string.  A string
    is kept as the bytes of its UTF-8 encoding, as it arrives in the
    JSON body of a request (a lone surrogate, which a JSON escape can
    produce, as the three bytes of its generalised encoding), so two
    strings are equal exactly when their bytes are.  A byte below 0x80
    and the lead byte of a two- or three-byte sequence stand for one
    code unit, the lead byte of a four-byte sequence for a surrogate
    pair, a continuation byte for none. *)
Definition units (a : ascii) : nat :=
  let n := nat_of_ascii a in
  if (n <? 128)%nat then 1
  else if (n <? 192)%nat then 0
  else if (n <? 240)%nat then 1
  else 2.

Fixpoint length (s : string) : nat :=
  match s with
  | EmptyString => 0
  | String a r => units a + length r
  end.

End JS.

(** ** Data model *)

Record Participant := mkParticipant {
  username : string;
  isHost : bool;
  connected : bool
}.

Record Lobby := mkLobby {
  code : string;
  host : string;
  participants : list Participant;
  createdAt : Z;
  gameStarted : bool
}.

Record Vote := mkVote { shoot : string; shag : string; marry : string }.

(** The game state object.  [timerInterval] is [null] or the handle of an
    interval; a cleared handle stays in the field unless the code resets
    it to [null].  [votes] is only ever read by username ([cast-vote],
    [calculateResults]) and is empty whenever the object is sent to the
    clients ([game-started]), so the order of its properties is never
    observed and a finite map stands for it. *)
Record GameState := mkGameState {
  phase : string;
  roundNumber : Z;
  totalRounds : Z;
  currentImages : list string;
  votes : gmap string Vote;
  scores : gmap string Z;
  timer : Z;
  timerInterval : option nat
}.

#[global] Instance Participant_eq_dec : EqDecision Participant.
Proof. solve_decision. Defined.
#[global] Instance Vote_eq_dec : EqDecision Vote.
Proof. solve_decision. Defined.
#[global] Instance Lobby_eq_dec : EqDecision Lobby.
Proof. solve_decision. Defined.
#[global] Instance GameState_eq_dec : EqDecision GameState.
Proof. solve_decision. Defined.

(** ** [calculateResults]: the tally (lines 390-461) *)

Record Majority := mkMajority {
  m_shoot : option string;
  m_shag : option string;
  m_marry : option string
}.

Definition complete (v : Vote) : bool :=
  JS.truthy (shoot v) && JS.truthy (shag v) && JS.truthy (marry v).

(** One pass over [lobby.participants]: the connected participants whose
    recorded vote has its three fields set, with that vote. *)
Definition ballots (ps : list Participant) (vs : gmap string Vote)
  : list (string * Vote) :=
  omap (λ p, if connected p
             then match vs !! username p with
                  | Some v => if complete v then Some (username p, v) else None
                  | None => None
                  end
             else None) ps.

Definition validVoters (ps : list Participant) (vs : gmap string Vote)
  : list string := (ballots ps vs).*1.

(** The choices of one category, in the order they are counted. *)
Definition picks (cat : Vote → string) (bs : list (string * Vote))
  : list string := map (λ b, cat b.2) bs.

Definition categoryVotes (ks : list string) : JS.object :=
  fold_left (λ o k, JS.incr k o) ks [].

(** The [Object.entries(votes).forEach] scan with [count > maxVotes]. *)
Definition scan_entry (acc : Z * option string) (e : string * JS.cell)
  : Z * option string :=
  match e.2 with
  | JS.Count n => if (acc.1 <? n)%Z then (n, Some e.1) else acc
  | JS.Garbage => acc
  end.

Definition scan (o : JS.object) : Z * option string :=
  fold_left scan_entry o (0%Z, None).

Definition is_set (m : option string) : bool :=
  match m with Some i => JS.truthy i | None => false end.

Definition majorityImage (ks : list string) (imgs : list string)
  : option string :=
  let m := (scan (categoryVotes ks)).2 in
  if negb (is_set m) && bool_decide (0 < length imgs) then head imgs else m.

Definition majorityChoices (bs : list (string * Vote)) (imgs : list string)
  : Majority :=
  {| m_shoot := majorityImage (picks shoot bs) imgs;
     m_shag := majorityImage (picks shag bs) imgs;
     m_marry := majorityImage (picks marry bs) imgs |}.

Definition matches (m : Majority) (v : Vote) : bool :=
  bool_decide (Some (shoot v) = m_shoot m)
  && bool_decide (Some (shag v) = m_shag m)
  && bool_decide (Some (marry v) = m_marry m).

Definition winners (m : Majority) (bs : list (string * Vote)) : list string :=
  (filter (λ b, matches m b.2 = true) bs).*1.

(** [scores[u] = (scores[u] || 0) + 1] for every winner, in order.  A
    winner has an own vote record, so its name is no member of
    [Object.prototype] ([cast-vote] records none for those) and the read
    is that of an own number or of [undefined]. *)
Definition award (ws : list string) (sc : gmap string Z) : gmap string Z :=
  fold_left (λ sc u, JS.set u (default 0%Z (sc !! u) + 1)%Z sc) ws sc.

(** ** Events sent to clients *)

Inductive OutEvent :=
  | lobby_updated (l : Lobby)
  | lobby_closed
  | game_started (l : Lobby) (g : GameState)
  | images_selected (images : list string)
  | game_phase_update (ph : string) (round : option Z)
  | game_timer (timeRemaining : Z)
  | round_results (m : Majority) (pointsAwarded : nat) (totalVoters : nat)
                  (ws : list string)
  | scoreboard_update (sc : gmap string Z)
  | game_ended (finalScores : gmap string Z)
  | error_event (message : string).

(** [io.to(code).emit], [socket.emit] and [res.status(..).json(..)]. *)
Inductive Emit :=
  | to_room (room : string) (e : OutEvent)
  | to_socket (sock : nat) (e : OutEvent)
  | http (status : nat) (l : option Lobby) (reconnection : bool).

#[global] Instance Majority_eq_dec : EqDecision Majority.
Proof. solve_decision. Defined.
#[global] Instance OutEvent_eq_dec : EqDecision OutEvent.
Proof. solve_decision. Defined.
#[global] Instance Emit_eq_dec : EqDecision Emit.
Proof. solve_decision. Defined.

(** ** Pending callbacks *)

(** The two callbacks handed to [startTimer]. *)
Inductive Continuation := ToVoting | ToResults.

(** The bodies handed to [setTimeout].  [NextRound] is the inner callback
    of [showScoreboard]; it closes over the game state object itself. *)
Inductive Delayed :=
  | StartDiscussion (room : string)
  | ShowScoreboard (room : string)
  | NextRound (room : string) (game : nat).

Inductive Job :=
  | Tick (room : string) (game : nat) (k : Continuation)
  | Once (d : Delayed).

Record Pending := mkPending { due : Z; job : Job }.

(** ** The state of the server process *)

Record State := mkState {
  lobbies : gmap string Lobby;
  gameStates : gmap string nat;           (* lobby code -> game object *)
  heap : gmap nat GameState;              (* game objects, by reference *)
  disconnectedPlayers : list (string * (string * Z));
  gameImages : list string;
  sockets : gmap nat (option string * option string);
  timers : gmap nat Pending;              (* live intervals and timeouts *)
  fresh : nat;                            (* next reference or handle *)
  now : Z;                                (* Date.now(), milliseconds *)
  random : nat → nat;                     (* the draws of Math.random *)
  draws : nat;
  emitted : list Emit
}.

Definition with_lobbies (s : State) v :=
  mkState v (gameStates s) (heap s) (disconnectedPlayers s) (gameImages s)
    (sockets s) (timers s) (fresh s) (now s) (random s) (draws s) (emitted s).
Definition with_gameStates (s : State) v :=
  mkState (lobbies s) v (heap s) (disconnectedPlayers s) (gameImages s)
    (sockets s) (timers s) (fresh s) (now s) (random s) (draws s) (emitted s).
Definition with_heap (s : State) v :=
  mkState (lobbies s) (gameStates s) v (disconnectedPlayers s) (gameImages s)
    (sockets s) (timers s) (fresh s) (now s) (random s) (draws s) (emitted s).
Definition with_disconnectedPlayers (s : State) v :=
  mkState (lobbies s) (gameStates s) (heap s) v (gameImages s)
    (sockets s) (timers s) (fresh s) (now s) (random s) (draws s) (emitted s).
Definition with_gameImages (s : State) v :=
  mkState (lobbies s) (gameStates s) (heap s) (disconnectedPlayers s) v
    (sockets s) (timers s) (fresh s) (now s) (random s) (draws s) (emitted s).
Definition with_sockets (s : State) v :=
  mkState (lobbies s) (gameStates s) (heap s) (disconnectedPlayers s)
    (gameImages s) v (timers s) (fresh s) (now s) (random s) (draws s)
    (emitted s).
Definition with_timers (s : State) v :=
  mkState (lobbies s) (gameStates s) (heap s) (disconnectedPlayers s)
    (gameImages s) (sockets s) v (fresh s) (now s) (random s) (draws s)
    (emitted s).
Definition with_fresh (s : State) v :=
  mkState (lobbies s) (gameStates s) (heap s) (disconnectedPlayers s)
    (gameImages s) (sockets s) (timers s) v (now s) (random s) (draws s)
    (emitted s).
Definition with_now (s : State) v :=
  mkState (lobbies s) (gameStates s) (heap s) (disconnectedPlayers s)
    (gameImages s) (sockets s) (timers s) (fresh s) v (random s) (draws s)
    (emitted s).
Definition with_draws (s : State) v :=
  mkState (lobbies s) (gameStates s) (heap s) (disconnectedPlayers s)
    (gameImages s) (sockets s) (timers s) (fresh s) (now s) (random s) v
    (emitted s).
Definition with_emitted (s : State) v :=
  mkState (lobbies s) (gameStates s) (heap s) (disconnectedPlayers s)
    (gameImages s) (sockets s) (timers s) (fresh s) (now s) (random s)
    (draws s) v.

(** The process right after start-up, with the images found on disk. *)
Definition boot (images : list string) (rnd : nat → nat) : State :=
  mkState ∅ ∅ ∅ [] images ∅ ∅ 0 0 rnd 0 [].

Definition emit (e : Emit) (s : State) : State :=
  with_emitted s (emitted s ++ [e]).

Definition broadcast (room : string) (e : OutEvent) : State → State :=
  emit (to_room room e).

(** [gameStates.get(code)]: the reference and the object behind it. *)
Definition game (s : State) (c : string) : option (nat * GameState) :=
  r ← gameStates s !! c; g ← heap s !! r; Some (r, g).

(** In-place mutation of a game object. *)
Definition mutate (r : nat) (f : GameState → GameState) (s : State) : State :=
  with_heap s (alter f r (heap s)).

Definition set_phase v (g : GameState) :=
  mkGameState v (roundNumber g) (totalRounds g) (currentImages g) (votes g)
    (scores g) (timer g) (timerInterval g).
Definition set_roundNumber v (g : GameState) :=
  mkGameState (phase g) v (totalRounds g) (currentImages g) (votes g)
    (scores g) (timer g) (timerInterval g).
Definition set_currentImages v (g : GameState) :=
  mkGameState (phase g) (roundNumber g) (totalRounds g) v (votes g)
    (scores g) (timer g) (timerInterval g).
Definition set_votes v (g : GameState) :=
  mkGameState (phase g) (roundNumber g) (totalRounds g) (currentImages g) v
    (scores g) (timer g) (timerInterval g).
Definition set_scores v (g : GameState) :=
  mkGameState (phase g) (roundNumber g) (totalRounds g) (currentImages g)
    (votes g) v (timer g) (timerInterval g).
Definition set_timer v (g : GameState) :=
  mkGameState (phase g) (roundNumber g) (totalRounds g) (currentImages g)
    (votes g) (scores g) v (timerInterval g).
Definition set_timerInterval v (g : GameState) :=
  mkGameState (phase g) (roundNumber g) (totalRounds g) (currentImages g)
    (votes g) (scores g) (timer g) v.

Definition set_participants v (l : Lobby) :=
  mkLobby (code l) (host l) v (createdAt l) (gameStarted l).
Definition set_gameStarted v (l : Lobby) :=
  mkLobby (code l) (host l) (participants l) (createdAt l) v.
Definition set_connected v (p : Participant) :=
  mkParticipant (username p) (isHost p) v.

(** [clearInterval(handle)]: the callback never runs again. *)
Definition clearInterval (h : nat) (s : State) : State :=
  with_timers s (delete h (timers s)).

(** [if (gameState.timerInterval) clearInterval(gameState.timerInterval)] *)
Definition clear_timer_of (g : GameState) (s : State) : State :=
  match timerInterval g with
  | Some h => clearInterval h s
  | None => s
  end.

Definition setTimeout (d : Delayed) (delay : Z) (s : State) : State :=
  with_fresh
    (with_timers s (<[fresh s := mkPending (now s + delay) (Once d)]> (timers s)))
    (S (fresh s)).

(** ** Roster helpers *)

(** [participants.find(p => p.username === u)] as a test. *)
Definition member (u : string) (ps : list Participant) : bool :=
  bool_decide (u ∈ username <$> ps).

(** [participants.find(..).connected = b]: the first match is mutated. *)
Fixpoint mark (b : bool) (u : string) (ps : list Participant)
  : list Participant :=
  match ps with
  | [] => []
  | p :: r =>
      if decide (username p = u) then set_connected b p :: r
      else p :: mark b u r
  end.

(** [participants.filter(p => p.username !== u)] *)
Definition without (u : string) (ps : list Participant) : list Participant :=
  filter (λ p, username p ≠ u) ps.

(** ** The [disconnectedPlayers] map, in insertion order *)

Fixpoint dp_set (u : string) (v : string * Z) (m : list (string * (string * Z)))
  : list (string * (string * Z)) :=
  match m with
  | [] => [(u, v)]
  | (u', v') :: r =>
      if decide (u' = u) then (u', v) :: r else (u', v') :: dp_set u v r
  end.

Definition dp_delete (u : string) (m : list (string * (string * Z)))
  : list (string * (string * Z)) :=
  filter (λ e, e.1 ≠ u) m.

(** ** Helper functions of the server (lines 70-84) *)

Definition base36 (d : nat) : ascii :=
  let d := d mod 36 in
  if (d <? 10)%nat then ascii_of_nat (48 + d) else ascii_of_nat (55 + d).

(** [Math.random().toString(36).substr(2, 6).toUpperCase()], from the
    base-36 digits that [toString] prints after ["0."]. *)
Definition generateLobbyCode (fraction : list nat) : string :=
  string_of_list_ascii (base36 <$> take 6 fraction).

(** [Math.floor(Math.random() * gameImages.length)], three times. *)
Definition getRandomImages (s : State) : list string * State :=
  let n := length (gameImages s) in
  if (n <? 3)%nat then ([], s)
  else
    let pick i := default "" (gameImages s !! (random s (draws s + i) mod n)) in
    ([pick 0; pick 1; pick 2], with_draws s (draws s + 3)).

(** ** Game logic functions (lines 330-541) *)

Definition endGame (c : string) (s : State) : State :=
  match game s c with
  | None => s
  | Some (r, g) => broadcast c (game_ended (scores g)) (clear_timer_of g s)
  end.

Definition startTimer (c : string) (seconds : Z) (k : Continuation)
    (s : State) : State :=
  match game s c with
  | None => s
  | Some (r, g) =>
      let s1 := clear_timer_of g (mutate r (set_timer seconds) s) in
      let h := fresh s1 in
      let p := mkPending (now s1 + 1000) (Tick c r k) in
      mutate r (set_timerInterval (Some h))
        (with_fresh (with_timers s1 (<[h := p]> (timers s1))) (S h))
  end.

Definition calculateResults (c : string) (s : State) : State :=
  match game s c, lobbies s !! c with
  | Some (r, g), Some l =>
      let bs := ballots (participants l) (votes g) in
      let m := majorityChoices bs (currentImages g) in
      let ws := winners m bs in
      let s1 := mutate r (λ g, set_phase "results"
                                 (set_scores (award ws (scores g)) g)) s in
      let s2 := broadcast c (game_phase_update "results" None) s1 in
      let s3 := broadcast c (round_results m (length ws) (length bs) ws) s2 in
      setTimeout (ShowScoreboard c) 5000 s3
  | _, _ => s
  end.

Definition startVotingPhase (c : string) (s : State) : State :=
  match game s c with
  | None => s
  | Some (r, g) =>
      let s1 := mutate r (λ g, set_timer 30 (set_phase "voting" g)) s in
      startTimer c 30 ToResults
        (broadcast c (game_phase_update "voting" None) s1)
  end.

Definition startDiscussionPhase (c : string) (s : State) : State :=
  match game s c, lobbies s !! c with
  | Some (r, g), Some _ =>
      if (length (gameImages s) <? 3)%nat || (totalRounds g <? roundNumber g)%Z
      then endGame c s
      else
        let '(selected, s1) := getRandomImages s in
        if (length selected <? 3)%nat then endGame c s1
        else
          let s2 := mutate r (λ g, set_timer 60
                                     (set_votes ∅
                                        (set_phase "discussion"
                                           (set_currentImages selected g)))) s1 in
          let s3 := clear_timer_of g s2 in
          let s4 := broadcast c (images_selected selected) s3 in
          let s5 := broadcast c (game_phase_update "discussion"
                                   (Some (roundNumber g))) s4 in
          startTimer c 60 ToVoting s5
  | _, _ => s
  end.

(** The callback that [showScoreboard] hands to [setTimeout]: it works on
    the captured game object. *)
Definition nextRound (c : string) (r : nat) (s : State) : State :=
  match heap s !! r with
  | None => s
  | Some g =>
      let n := (roundNumber g + 1)%Z in
      let s1 := mutate r (set_roundNumber n) s in
      if (totalRounds g <? n)%Z then endGame c s1
      else
        setTimeout (StartDiscussion c) 3000
          (broadcast c (game_phase_update "waiting" None)
             (mutate r (set_phase "waiting") s1))
  end.

Definition showScoreboard (c : string) (s : State) : State :=
  match game s c with
  | None => s
  | Some (r, g) =>
      let s1 := mutate r (set_phase "scoreboard") s in
      let s2 := broadcast c (game_phase_update "scoreboard" None) s1 in
      let s3 := broadcast c (scoreboard_update (scores g)) s2 in
      setTimeout (NextRound c r) 5000 s3
  end.

Definition continue (k : Continuation) (c : string) : State → State :=
  match k with
  | ToVoting => startVotingPhase c
  | ToResults => calculateResults c
  end.

(** The callback that [startTimer] hands to [setInterval]: it too works on
    the captured game object. *)
Definition tick (c : string) (r : nat) (k : Continuation) (s : State) : State :=
  match heap s !! r with
  | None => s
  | Some g =>
      let t := (timer g - 1)%Z in
      let s1 := broadcast c (game_timer t) (mutate r (set_timer t) s) in
      if (t <=? 0)%Z
      then continue k c (mutate r (set_timerInterval None) (clear_timer_of g s1))
      else s1
  end.

Definition delayed (d : Delayed) : State → State :=
  match d with
  | StartDiscussion c => startDiscussionPhase c
  | ShowScoreboard c => showScoreboard c
  | NextRound c r => nextRound c r
  end.

(** ** The event loop: running a pending callback *)

Definition reschedule (h : nat) (s : State) : State :=
  with_timers s (alter (λ p, mkPending (due p + 1000) (job p)) h (timers s)).

(** Callback [h] runs at the time it is due.  A timeout is spent; an
    interval that was not cleared meanwhile is due again a second later. *)
Definition fire (h : nat) (s : State) : State :=
  match timers s !! h with
  | None => s
  | Some p =>
      let s0 := with_now s (due p) in
      match job p with
      | Once d => delayed d (with_timers s0 (delete h (timers s0)))
      | Tick c r k => reschedule h (tick c r k s0)
      end
  end.

Definition earlier (a b : nat * Pending) : bool :=
  (due a.2 <? due b.2)%Z || ((due a.2 =? due b.2)%Z && (a.1 <? b.1)%nat).

(** The pending callback that is due first (the older one on a tie). *)
Definition next_due (s : State) : option (nat * Pending) :=
  foldr (λ e acc, match acc with
                  | None => Some e
                  | Some b => if earlier e b then Some e else Some b
                  end) None (map_to_list (timers s)).

(** Let time pass until [t]: every callback due by then runs, in order.
    [None] when more than [fuel] callbacks are due. *)
Fixpoint advance (fuel : nat) (t : Z) (s : State) : option State :=
  match next_due s with
  | Some (h, p) =>
      if (due p <=? t)%Z
      then match fuel with
           | O => None
           | S fuel' => advance fuel' t (fire h s)
           end
      else Some (with_now s t)
  | None => Some (with_now s t)
  end.

(** ** HTTP routes (lines 87-137) *)

Definition api_lobby_create (u : string) (fraction : list nat) (s : State)
  : State :=
  if negb (JS.truthy u) || (JS.length u <? 2)%nat
  then emit (http 400 None false) s
  else
    let c := generateLobbyCode fraction in
    let l := mkLobby c u [mkParticipant u true true] (now s) false in
    emit (http 200 (Some l) false) (with_lobbies s (<[c := l]> (lobbies s))).

Definition api_lobby_join (c u : string) (s : State) : State :=
  if negb (JS.truthy c) || negb (JS.truthy u)
  then emit (http 400 None false) s
  else
    match lobbies s !! c with
    | None => emit (http 404 None false) s
    | Some l =>
        if member u (participants l)
        then
          let l' := set_participants (mark true u (participants l)) l in
          emit (http 200 (Some l') true)
            (with_lobbies s (<[c := l']> (lobbies s)))
        else
          let l' := set_participants
                      (participants l ++ [mkParticipant u false true]) l in
          let s1 := with_lobbies s (<[c := l']> (lobbies s)) in
          let s2 := match game s1 c with
                    | Some (r, _) =>
                        mutate r (λ g, set_scores (JS.set u 0%Z (scores g)) g) s1
                    | None => s1
                    end in
          emit (http 200 (Some l') false) s2
    end.

(** ** Socket handlers (lines 143-309) *)

Definition images_needed : string :=
  "Need at least 3 images to play Shoot Shag Marry. Please add more images to the images/ folder".

(** [gameState && gameState.phase !== 'waiting'] *)
Definition mid_game (s : State) (c : string) : bool :=
  match game s c with
  | Some (_, g) => bool_decide (phase g ≠ "waiting")
  | None => false
  end.

Definition store (c : string) (l : Lobby) (s : State) : State :=
  with_lobbies s (<[c := l]> (lobbies s)).

(** [lobbies.delete(code); gameStates.delete(code)] *)
Definition deleteSession (c : string) (s : State) : State :=
  with_gameStates (with_lobbies s (delete c (lobbies s)))
    (delete c (gameStates s)).

Definition on_join_lobby (sock : nat) (c u : string) (s : State) : State :=
  let s1 := with_sockets s (<[sock := (Some u, Some c)]> (sockets s)) in
  match lobbies s1 !! c with
  | Some l =>
      let l' := set_participants (mark true u (participants l)) l in
      broadcast c (lobby_updated l') (store c l' s1)
  | None => s1
  end.

Definition on_leave_lobby (sock : nat) (c u : string) (s : State) : State :=
  match lobbies s !! c with
  | None => s
  | Some l =>
      if mid_game s c
      then
        if member u (participants l)
        then
          let l' := set_participants (mark false u (participants l)) l in
          broadcast c (lobby_updated l')
            (with_disconnectedPlayers (store c l' s)
               (dp_set u (c, now s) (disconnectedPlayers s)))
        else broadcast c (lobby_updated l) s
      else
        let l' := set_participants (without u (participants l)) l in
        if (length (participants l') =? 0)%nat || bool_decide (u = host l)
        then broadcast c lobby_closed (deleteSession c s)
        else broadcast c (lobby_updated l') (store c l' s)
  end.

(** [lobby.participants.forEach(p => scores[p.username] = 0)] *)
Definition zero_scores (ps : list Participant) (sc : gmap string Z)
  : gmap string Z :=
  fold_left (λ sc p, JS.set (username p) 0%Z sc) ps sc.

Definition on_start_game (sock : nat) (c u : string) (s : State) : State :=
  match lobbies s !! c with
  | Some l =>
      if bool_decide (host l = u) && (2 <=? length (participants l))%nat
      then
        if (length (gameImages s) <? 3)%nat
        then emit (to_socket sock (error_event images_needed)) s
        else
          let l' := set_gameStarted true l in
          let g := mkGameState "discussion" 1 30 [] ∅
                     (zero_scores (participants l) ∅) 60 None in
          let r := fresh s in
          let s1 := with_fresh
                      (with_heap
                         (with_gameStates (store c l' s)
                            (<[c := r]> (gameStates s)))
                         (<[r := g]> (heap s)))
                      (S r) in
          setTimeout (StartDiscussion c) 2000
            (broadcast c (game_started l' g) s1)
      else s
  | None => s
  end.

(** [gameState.votes[username]] is truthy for a recorded vote and for a
    name inherited from [Object.prototype]. *)
Definition has_voted (vs : gmap string Vote) (u : string) : bool :=
  bool_decide (is_Some (vs !! u)) || JS.proto_key u.

Definition on_cast_vote (c u : string) (v : Vote) (s : State) : State :=
  match game s c with
  | Some (r, g) =>
      if bool_decide (phase g = "voting") && negb (has_voted (votes g) u)
      then
        if complete v
        then mutate r (λ g, set_votes (<[u := v]> (votes g)) g) s
        else s
      else s
  | None => s
  end.

Definition restarted (l : Lobby) (g : GameState) : GameState :=
  set_scores (zero_scores (participants l) (scores g))
    (set_timer 60
       (set_votes ∅
          (set_currentImages []
             (set_roundNumber 1 (set_phase "discussion" g))))).

Definition on_restart_game (sock : nat) (c : string) (s : State) : State :=
  match lobbies s !! c, game s c with
  | Some l, Some (r, g) =>
      if bool_decide ((sockets s !! sock) ≫= fst = Some (host l))
      then
        if (length (gameImages s) <? 3)%nat
        then emit (to_socket sock (error_event images_needed)) s
        else
          let s1 := clear_timer_of g (mutate r (restarted l) s) in
          setTimeout (StartDiscussion c) 2000
            (broadcast c (game_started l (restarted l g)) s1)
      else s
  | _, _ => s
  end.

Definition on_disconnect (sock : nat) (s : State) : State :=
  let s0 := with_sockets s (delete sock (sockets s)) in
  match sockets s !! sock with
  | Some (Some u, Some c) =>
      if JS.truthy c && JS.truthy u
      then
        match lobbies s0 !! c with
        | Some l =>
            if member u (participants l)
            then
              if mid_game s0 c
              then
                let l' := set_participants (mark false u (participants l)) l in
                broadcast c (lobby_updated l')
                  (with_disconnectedPlayers (store c l' s0)
                     (dp_set u (c, now s0) (disconnectedPlayers s0)))
              else
                let l' := set_participants (without u (participants l)) l in
                if (length (participants l') =? 0)%nat
                   || bool_decide (u = host l)
                then
                  let s1 := match game s0 c with
                            | Some (_, g) => clear_timer_of g s0
                            | None => s0
                            end in
                  broadcast c lobby_closed (deleteSession c s1)
                else broadcast c (lobby_updated l') (store c l' s0)
            else s0
        | None => s0
        end
      else s0
  | _ => s0
  end.

(** ** The periodic jobs (lines 41-67 and 313-327) *)

(** [loadImages], given the identifiers that the directory scan yields. *)
Definition loadImages (found : list string) (s : State) : State :=
  with_gameImages s found.

Definition grace : Z := 5 * 60 * 1000.

(** The body of [disconnectedPlayers.forEach] for one entry. *)
Definition sweep_entry (t : Z) (s : State) (e : string * (string * Z))
  : State :=
  if (grace <? t - e.2.2)%Z
  then
    let s1 := match lobbies s !! e.2.1 with
              | Some l =>
                  let l' := set_participants (without e.1 (participants l)) l in
                  broadcast e.2.1 (lobby_updated l') (store e.2.1 l' s)
              | None => s
              end in
    with_disconnectedPlayers s1 (dp_delete e.1 (disconnectedPlayers s1))
  else s.

Definition sweep (s : State) : State :=
  fold_left (sweep_entry (now s)) (disconnectedPlayers s) s.

(** ** The directory scan of [loadImages] (lines 41-61) *)

Definition image_extensions : list string :=
  [".jpg"; ".jpeg"; ".png"; ".gif"; ".webp"].

Section Scan_directory.

(** [path.extname] and [String.prototype.toLowerCase], which the server
    takes from its platform. *)
Variables (extname toLowerCase : string → string).

Definition is_image (file : string) : bool :=
  bool_decide (toLowerCase (extname file) ∈ image_extensions).

(** The value that [loadImages] assigns to [gameImages], given what
    [fs.readdirSync] returns ([None] when it throws). *)
Definition scanImages (files : option (list string)) : list string :=
  match files with
  | Some fs => (λ file, "/images/" +:+ file) <$> List.filter is_image fs
  | None => []
  end.

End Scan_directory.

(** ** Runs of the server *)

(** What reaches the process from outside: the two HTTP routes, the socket
    events, and the firing of the two process-wide intervals (the sweep
    every 60 s, the rescan of the image directory every 5 min), which
    a run receives like requests, with the time at which they happen.
    The draws of [Math.random] come with the request ([fraction]) or from
    the oracle of the state ([random]). *)
Inductive Request :=
  | CreateLobby (u : string) (fraction : list nat)
  | JoinLobbyHttp (c u : string)
  | JoinLobby (sock : nat) (c u : string)
  | LeaveLobby (sock : nat) (c u : string)
  | StartGame (sock : nat) (c u : string)
  | CastVote (c u : string) (v : Vote)
  | RestartGame (sock : nat) (c : string)
  | Disconnect (sock : nat)
  | Sweep
  | LoadImages (found : list string).

Definition handle (q : Request) : State → State :=
  match q with
  | CreateLobby u fraction => api_lobby_create u fraction
  | JoinLobbyHttp c u => api_lobby_join c u
  | JoinLobby sock c u => on_join_lobby sock c u
  | LeaveLobby sock c u => on_leave_lobby sock c u
  | StartGame sock c u => on_start_game sock c u
  | CastVote c u v => on_cast_vote c u v
  | RestartGame sock c => on_restart_game sock c
  | Disconnect sock => on_disconnect sock
  | Sweep => sweep
  | LoadImages found => loadImages found
  end.

(** A run is a list of requests with the time, in milliseconds since
    start-up, at which each one arrives.  Before a request is handled,
    every callback due by then has run; [None] marks a list that goes back
    in time or needs more than [fuel] callbacks between two requests. *)
Fixpoint run (fuel : nat) (trace : list (Z * Request)) (s : State)
  : option State :=
  match trace with
  | [] => Some s
  | (t, q) :: rest =>
      if (t <? now s)%Z then None
      else match advance fuel t s with
           | Some s' => run fuel rest (handle q s')
           | None => None
           end
  end.

(** A run followed by the passing of time until [t]. *)
Definition play (fuel : nat) (trace : list (Z * Request)) (t : Z) (s : State)
  : option State :=
  match run fuel trace s with
  | Some s' => if (t <? now s')%Z then None else advance fuel t s'
  | None => None
  end.

(** ** Vocabulary of the statements *)

Definition names (l : Lobby) : list string := username <$> participants l.

(** Lobby [c] is alive and [u] is not on its roster. *)
Definition swept (c u : string) (s : State) : Prop :=
  ∃ l, lobbies s !! c = Some l ∧ u ∉ names l.

(** The intervals of room [c] that are still scheduled. *)
Definition ticks_in (c : string) (p : Pending) : bool :=
  match job p with
  | Tick c' _ _ => bool_decide (c' = c)
  | Once _ => false
  end.

Definition live_intervals (c : string) (s : State) : list nat :=
  (List.filter (λ e, ticks_in c e.2) (map_to_list (timers s))).*1.

(** The events sent since the log had [n] entries. *)
Definition since (n : nat) (s : State) : list Emit := drop n (emitted s).



(** A property of every game object, registered or not. *)
Definition heap_all (P : GameState → Prop) (s : State) : Prop :=
  ∀ r g, heap s !! r = Some g → P g.

(** The states of the process: start-up, then any request, any pending
    callback, any passing of time.  Every timed run stays inside. *)
Inductive reachable : State → Prop :=
  | reach_boot images rnd : reachable (boot images rnd)
  | reach_handle q s : reachable s → reachable (handle q s)
  | reach_fire h s : reachable s → reachable (fire h s)
  | reach_wait t s : reachable s → reachable (with_now s t).

(** Every score recorded in [g] is recorded in [g'], not smaller. *)
Definition scores_le (g g' : GameState) : Prop :=
  ∀ u n, scores g !! u = Some n → ∃ n', scores g' !! u = Some n' ∧ (n ≤ n')%Z.

(** Every game object of [s] is still there in [s'], related by [R]. *)
Definition evolves (R : GameState → GameState → Prop) (s s' : State) : Prop :=
  ∀ r g, heap s !! r = Some g → ∃ g', heap s' !! r = Some g' ∧ R g g'.

(** The scores of [g'] are those of [g] after some awards of one point. *)
Definition scores_awarded (g g' : GameState) : Prop :=
  ∃ ws, scores g' = award ws (scores g).

Definition scores_kept (g g' : GameState) : Prop := scores g' = scores g.

(** The requests that begin a game cycle or enrol a player. *)
Definition resets (q : Request) : bool :=
  match q with
  | StartGame _ _ _ | RestartGame _ _ | JoinLobbyHttp _ _ => true
  | _ => false
  end.

(** The number of counted ballots that chose [x]. *)
Definition tallied (x : string) (ks : list string) : Z :=
  Z.of_nat (length (filter (λ y, y = x) ks)).

(** The distinct choices, in the order of their first appearance. *)
Fixpoint firsts (ks : list string) : list string :=
  match ks with
  | [] => []
  | k :: r => k :: filter (λ y, y ≠ k) (firsts r)
  end.

(** An identifier that an object literal treats as a plain string key:
    no array index and no member of [Object.prototype].  Every
    identifier that [loadImages] hands out starts with [/images/]. *)
Definition ordinary (k : string) : Prop :=
  JS.array_index k = None ∧ JS.proto_key k = false.

(** The counter object after counting [ks], as a list of entries. *)
Definition entries (ks : list string) : JS.object :=
  map (λ x, (x, JS.Count (tallied x ks))) (firsts ks).

(** The three categories with the field of the result each one fills. *)
Definition categories : list ((Vote → string) * (Majority → option string)) :=
  [(shoot, m_shoot); (shag, m_shag); (marry, m_marry)].

(** [cast-vote] records [v] for [u] in game [g]. *)
Definition accepts (g : GameState) (u : string) (v : Vote) : bool :=
  bool_decide (phase g = "voting") && negb (has_voted (votes g) u)
  && complete v.

Definition record (u : string) (v : Vote) (g : GameState) : GameState :=
  set_votes (<[u := v]> (votes g)) g.

(** A property of every lobby of the registry. *)
Definition lobbies_all (P : Lobby → Prop) (s : State) : Prop :=
  ∀ c l, lobbies s !! c = Some l → P l.

(** At most one participant is flagged as host and no name occurs twice. *)
Definition roster_ok (l : Lobby) : Prop :=
  length (filter (λ b, b = true) (isHost <$> participants l)) ≤ 1
  ∧ NoDup (names l).

(** Every scheduled interval is the one its game object refers to, and
    references stay below the allocation counter. *)
Definition intervals_registered (s : State) : Prop :=
  (∀ r g, heap s !! r = Some g → r < fresh s)
  ∧ ∀ h p c r k,
      timers s !! h = Some p → job p = Tick c r k →
      ∃ g, heap s !! r = Some g ∧ timerInterval g = Some h.

(** The tables that only requests change. *)
Definition registries (s : State) :=
  (lobbies s, gameStates s, disconnectedPlayers s, gameImages s, sockets s).

(** The requests that write to [disconnectedPlayers]. *)
Definition writes_records (q : Request) : bool :=
  match q with
  | LeaveLobby _ _ _ | Disconnect _ | Sweep => true
  | _ => false
  end.

(** The tally as the specification words it: the complete votes of the
    connected participants are counted in the order in which they arrived. *)
Definition ballots_in_arrival_order (arrived : list (string * Vote))
    (ps : list Participant) : list (string * Vote) :=
  List.filter
    (λ b, bool_decide (b.1 ∈ username <$> List.filter connected ps)
          && complete b.2) arrived.

Definition majorityChoices_in_arrival_order (arrived : list (string * Vote))
    (ps : list Participant) (imgs : list string) : Majority :=
  majorityChoices (ballots_in_arrival_order arrived ps) imgs.

(** A participant whose ballot the tally counts, in the words of the
    claim: connected, with a recorded vote that has its three choices. *)
Definition counted (vs : gmap string Vote) (p : Participant) : Prop :=
  connected p = true ∧ ∃ v, vs !! username p = Some v ∧ complete v = true.

#[global] Instance counted_dec vs p : Decision (counted vs p).
Proof.
  unfold counted. destruct (connected p); [|right; by intros [? _]].
  destruct (vs !! username p) as [v|];
    [|right; by intros [_ (? & ? & _)]].
  destruct (complete v) eqn:Hv.
  - left. eauto.
  - right. intros [_ (v' & [= <-] & Hv')]. congruence.
Defined.

(** The votes of [arrived], cast in that order. *)
Definition cast_votes (c : string) (arrived : list (string * Vote))
    (s : State) : State :=
  fold_left (λ s b, on_cast_vote c b.1 b.2 s) arrived s.

(** The characters of a lobby code: a digit or an upper-case letter. *)
Definition code_char (a : ascii) : bool :=
  let n := nat_of_ascii a in
  ((48 <=? n) && (n <=? 57)) || ((65 <=? n) && (n <=? 90)).

(** Every registered game belongs to a lobby that is alive. *)
Definition games_have_lobbies (s : State) : Prop :=
  ∀ c, is_Some (gameStates s !! c) → is_Some (lobbies s !! c).

(** The handle of every pending callback is below the counter from
    which handles and references are drawn. *)
Definition handles_below_fresh (s : State) : Prop :=
  ∀ h p, timers s !! h = Some p → h < fresh s.

(** What handlers and callbacks keep true of a game object: every
    recorded vote has its three fields set and sits under a name that no
    object inherits; no score is negative; the round number is at least
    1; the round shows no image or three; the countdown is at most 60
    and, while the object refers to an interval, at least 1. *)
Definition votes_complete (g : GameState) : Prop :=
  ∀ u v, votes g !! u = Some v → complete v = true ∧ JS.proto_key u = false.

Definition nonneg (sc : gmap string Z) : Prop :=
  ∀ u n, sc !! u = Some n → (0 ≤ n)%Z.

Definition tidy (g : GameState) : Prop :=
  votes_complete g ∧ nonneg (scores g) ∧ (1 ≤ roundNumber g)%Z
  ∧ (currentImages g = [] ∨ length (currentImages g) = 3)
  ∧ (timerInterval g ≠ None → (1 ≤ timer g)%Z)
  ∧ (timer g ≤ 60)%Z.

(** The game object behind reference [r], for statements about a
    concrete state. *)
Definition object_at (r : nat) (s : State) : GameState :=
  default (mkGameState "" 0 0 [] ∅ ∅ 0 None) (heap s !! r).

(** Every lobby of [s] is a lobby of [s'] and the other way round, with
    the same code, host, creation time and flag, and a roster that lost
    entries at most. *)
Definition shrinks (s s' : State) : Prop :=
  ∀ c, match lobbies s !! c, lobbies s' !! c with
       | Some l, Some l' =>
           participants l' `sublist_of` participants l
           ∧ (code l', host l', createdAt l', gameStarted l')
             = (code l, host l, createdAt l, gameStarted l)
       | None, None => True
       | _, _ => False
       end.

(** A grace record that the sweep at time [t] removes. *)
Definition expired (t : Z) (e : string * (string * Z)) : Prop :=
  (grace < t - e.2.2)%Z.

#[global] Instance expired_dec t e : Decision (expired t e).
Proof. unfold expired. apply _. Defined.

(** No user has two grace records. *)
Definition one_record_per_user (s : State) : Prop :=
  NoDup (disconnectedPlayers s).*1.

(** ** Concrete sessions *)

Module Scenario.

Definition pool : list string :=
  ["/images/a.jpg"; "/images/b.jpg"; "/images/c.jpg"].

(** The draws that pick the images of a round. *)
Definition oracle (n : nat) : nat := n.

(** The code that [generateLobbyCode] makes of the digits 1 to 6. *)
Definition room : string := "123456".

Definition abc : Vote := mkVote "/images/a.jpg" "/images/b.jpg" "/images/c.jpg".
Definition bac : Vote := mkVote "/images/b.jpg" "/images/a.jpg" "/images/c.jpg".

(** "al" opens a lobby at time [t0]; "bo" joins; both attach a socket. *)
Definition two_players (t0 : Z) : list (Z * Request) :=
  [ (t0, CreateLobby "al" [1; 2; 3; 4; 5; 6]);
    ((t0 + 10)%Z, JoinLobbyHttp room "bo");
    ((t0 + 20)%Z, JoinLobby 1 room "al");
    ((t0 + 30)%Z, JoinLobby 2 room "bo") ].

Definition three_players : list (Z * Request) :=
  two_players 0
    ++ [ (40%Z, JoinLobbyHttp room "cy"); (50%Z, JoinLobby 3 room "cy") ].

(** The host starts the game one second after the lobby opened: the
    first discussion begins at 3 s, voting at 63 s, the results come at
    93 s, the scoreboard at 98 s, and from 103 s to 106 s the game is
    [waiting]. *)
Definition started : list (Z * Request) :=
  two_players 0 ++ [ (1000%Z, StartGame 1 room "al") ].

(** "bo" votes before "al". *)
Definition bo_votes_first : list (Z * Request) :=
  started ++ [ (70000%Z, CastVote room "bo" bac);
               (71000%Z, CastVote room "al" abc) ].

(** The host leaves during the first discussion and a sweep runs six
    minutes after start-up. *)
Definition host_swept : list (Z * Request) :=
  started ++ [ (5000%Z, LeaveLobby 1 room "al"); (360000%Z, Sweep) ].

(** The host sends start-game a second time, during the discussion; the
    discussion of the second game begins at 6.5 s. *)
Definition started_twice : list (Z * Request) :=
  started ++ [ (4500%Z, StartGame 1 room "al") ].

(** The host restarts while the results are shown, then leaves while
    the game is [waiting]. *)
Definition restarted_then_closed : list (Z * Request) :=
  started ++ [ (93500%Z, RestartGame 1 room);
               (103700%Z, LeaveLobby 1 room "al") ].

(** "bo" leaves between two rounds, which leaves the host alone. *)
Definition bo_left : list (Z * Request) :=
  started ++ [ (103500%Z, LeaveLobby 2 room "bo") ].



(** Three players cast the same vote in round one. *)
Definition all_agree : list (Z * Request) :=
  three_players
    ++ [ (1000%Z, StartGame 1 room "al");
         (70000%Z, CastVote room "al" abc);
         (70100%Z, CastVote room "bo" abc);
         (70200%Z, CastVote room "cy" abc) ].

(** Three players agree in round one; "cy" leaves between the rounds. *)
Definition cy_leaves : list (Z * Request) :=
  three_players
    ++ [ (1000%Z, StartGame 1 room "al");
         (70000%Z, CastVote room "al" abc);
         (70100%Z, CastVote room "bo" abc);
         (70200%Z, CastVote room "cy" abc);
         (103500%Z, LeaveLobby 3 room "cy") ].


(** A lobby without images on disk. *)
Definition no_images : State :=
  default (boot [] oracle) (run 0 (two_players 0) (boot [] oracle)).

(** The state at time [t] of the process that booted with [pool] and
    received [trace]. *)
Definition outcome (trace : list (Z * Request)) (t : Z) : State :=
  default (boot pool oracle) (play 4000 trace t (boot pool oracle)).

End Scenario.

(** * Properties *)

(** ** Bookkeeping *)

Ltac state_simpl :=
  cbn [broadcast store deleteSession mutate setTimeout clearInterval emit
       with_lobbies with_gameStates with_heap with_disconnectedPlayers
       with_gameImages with_sockets with_timers with_fresh with_now
       with_draws with_emitted
       lobbies gameStates heap disconnectedPlayers gameImages sockets timers
       fresh now random draws emitted] in *.

Lemma names_without u (ps : list Participant) :
  u ∉ username <$> without u ps.
Proof.
  unfold without. intros Hin. apply list_elem_of_fmap in Hin as (p & -> & Hp).
  apply list_elem_of_filter in Hp as [Hne _]. by apply Hne.
Qed.

Lemma names_without_subset u v (ps : list Participant) :
  v ∈ username <$> without u ps → v ∈ username <$> ps.
Proof.
  unfold without. intros Hin. apply list_elem_of_fmap in Hin as (p & -> & Hp).
  apply list_elem_of_filter in Hp as [_ Hp].
  apply list_elem_of_fmap. eauto.
Qed.

(** ** Timed runs are reachable *)

Lemma advance_reachable fuel t s s' :
  reachable s → advance fuel t s = Some s' → reachable s'.
Proof.
  revert s. induction fuel as [|fuel IH]; intros s Hs; cbn.
  - destruct (next_due s) as [[h p]|]; [destruct (due p <=? t)%Z|];
      intros [= <-] || (try done); by constructor.
  - destruct (next_due s) as [[h p]|]; [destruct (due p <=? t)%Z|].
    + apply IH. by constructor.
    + intros [= <-]. by constructor.
    + intros [= <-]. by constructor.
Qed.

Lemma run_reachable fuel trace s s' :
  reachable s → run fuel trace s = Some s' → reachable s'.
Proof.
  revert s. induction trace as [|[t q] trace IH]; intros s Hs; cbn.
  - by intros [= <-].
  - destruct (t <? now s)%Z; [done|].
    destruct (advance fuel t s) as [s1|] eqn:Ha; [|done].
    apply IH. constructor. by eapply advance_reachable.
Qed.

Lemma play_reachable fuel trace t s s' :
  reachable s → play fuel trace t s = Some s' → reachable s'.
Proof.
  unfold play. intros Hs.
  destruct (run fuel trace s) as [s1|] eqn:Hr; [|done].
  destruct (t <? now s1)%Z; [done|].
  apply advance_reachable. by eapply run_reachable.
Qed.

(** ** Timed runs of the concrete sessions *)

Lemma outcome_reachable trace t : reachable (Scenario.outcome trace t).
Proof.
  unfold Scenario.outcome.
  destruct (play 4000 trace t (boot Scenario.pool Scenario.oracle)) as [s|] eqn:Hp.
  - cbn. eapply play_reachable; [|exact Hp]. constructor.
  - cbn. constructor.
Qed.

(** ** Lobby codes *)

(** C5 (as stated, refuted).  A second lobby created with the same draw
    of [Math.random] gets the code of the lobby that is alive, and takes
    its place in the registry. *)
Lemma create_lobby_collision :
  let s1 := api_lobby_create "al" [1; 2; 3; 4; 5; 6] (boot [] Scenario.oracle) in
  let s2 := api_lobby_create "bo" [1; 2; 3; 4; 5; 6] s1 in
  ¬ (∀ c l, lobbies s1 !! c = Some l → generateLobbyCode [1; 2; 3; 4; 5; 6] ≠ c)
  ∧ host <$> lobbies s1 !! "123456" = Some "al"
  ∧ host <$> lobbies s2 !! "123456" = Some "bo".
Proof.
  split; [|split; vm_compute; reflexivity].
  intros H.
  apply (H "123456" (mkLobby "123456" "al" [mkParticipant "al" true true] 0 false));
    vm_compute; reflexivity.
Qed.

(** C5 (amended).  For a username of at least two UTF-16 code units
    (the test of line 90; shorter ones are refused with 400),
    [api_lobby_create] stores the new lobby under the code that
    [generateLobbyCode] yields, without consulting the registry: the
    lobby of that code is the new one, hosted by the requester alone,
    and it is the response; the lobby of every other code is untouched;
    when the code was free, every lobby that was alive is still there;
    when the code was taken by another lobby, that lobby is gone.
    Nothing else changes. *)
Theorem create_lobby_registers u fraction s :
  2 ≤ JS.length u →
  let c := generateLobbyCode fraction in
  let l := mkLobby c u [mkParticipant u true true] (now s) false in
  let s' := api_lobby_create u fraction s in
  lobbies s' !! c = Some l
  ∧ (∀ c', c' ≠ c → lobbies s' !! c' = lobbies s !! c')
  ∧ (lobbies s !! c = None →
     ∀ c' l', lobbies s !! c' = Some l' → lobbies s' !! c' = Some l')
  ∧ (∀ l0, lobbies s !! c = Some l0 → l0 ≠ l →
           ¬ (∀ c' l', lobbies s !! c' = Some l' → lobbies s' !! c' = Some l'))
  ∧ emitted s' = emitted s ++ [http 200 (Some l) false]
  ∧ (gameStates s', heap s', timers s', disconnectedPlayers s', sockets s')
    = (gameStates s, heap s, timers s, disconnectedPlayers s, sockets s).
Proof.
  intros Hu c l s'. subst s'. unfold api_lobby_create.
  assert (JS.truthy u = true) as -> by (destruct u; [cbn in Hu; lia | done]).
  destruct (Nat.ltb_spec (JS.length u) 2); [lia|]. cbn [negb orb].
  fold c l. state_simpl.
  split; [apply lookup_insert_eq|]. split; [|split; [|split; [|done]]].
  - intros c' Hne. by rewrite lookup_insert_ne.
  - intros Hfree c' l' Hl. rewrite lookup_insert_ne; [done|]. congruence.
  - intros l0 Hl0 Hne Hall. specialize (Hall c l0 Hl0).
    rewrite lookup_insert_eq in Hall. congruence.
Qed.

Lemma create_lobby_registers_witness :
  let s := Scenario.outcome (Scenario.two_players 0) 100 in
  let c := generateLobbyCode [6; 5; 4; 3; 2; 1] in
  let l := mkLobby c "zoé" [mkParticipant "zoé" true true] (now s) false in
  let s' := api_lobby_create "zoé" [6; 5; 4; 3; 2; 1] s in
  (JS.length "zoé" = 3 ∧ c = "654321"
   ∧ names <$> lobbies s !! Scenario.room = Some ["al"; "bo"]
   ∧ names <$> lobbies s' !! Scenario.room = Some ["al"; "bo"])
  ∧ lobbies s' !! c = Some l
  ∧ (∀ c', c' ≠ c → lobbies s' !! c' = lobbies s !! c')
  ∧ (lobbies s !! c = None →
     ∀ c' l', lobbies s !! c' = Some l' → lobbies s' !! c' = Some l')
  ∧ (∀ l0, lobbies s !! c = Some l0 → l0 ≠ l →
           ¬ (∀ c' l', lobbies s !! c' = Some l' → lobbies s' !! c' = Some l'))
  ∧ emitted s' = emitted s ++ [http 200 (Some l) false]
  ∧ (gameStates s', heap s', timers s', disconnectedPlayers s', sockets s')
    = (gameStates s, heap s, timers s, disconnectedPlayers s, sockets s).
Proof.
  intros s. split; [repeat split; vm_compute; reflexivity|].
  apply (create_lobby_registers "zoé" [6; 5; 4; 3; 2; 1] s).
  vm_compute. lia.
Defined.

(** ** Rejections leave the state alone *)

(** C9.  When the host of a lobby with at least two participants sends
    start-game while fewer than three images are loaded, the only effect
    is one [error] event sent to the sender's socket: the registries, the
    game objects and the pending callbacks are unchanged, so no game is
    created for the lobby and its [gameStarted] flag stays false. *)
Theorem start_game_needs_three_images sock c u s l :
  lobbies s !! c = Some l → host l = u → 2 ≤ length (participants l) →
  length (gameImages s) < 3 →
  let s' := on_start_game sock c u s in
  emitted s' = emitted s ++ [to_socket sock (error_event images_needed)]
  ∧ lobbies s' = lobbies s ∧ gameStates s' = gameStates s
  ∧ heap s' = heap s ∧ timers s' = timers s
  ∧ (gameStates s !! c = None → gameStates s' !! c = None)
  ∧ (gameStarted l = false → gameStarted <$> lobbies s' !! c = Some false).
Proof.
  intros Hl Hh Hn Hi s'. subst s'. unfold on_start_game. rewrite Hl.
  rewrite bool_decide_eq_true_2 by done.
  destruct (Nat.leb_spec 2 (length (participants l))); [|lia].
  destruct (Nat.ltb_spec (length (gameImages s)) 3); [|lia].
  cbn [andb]. state_simpl. repeat split; try done.
  intros Hg. by rewrite Hl; cbn; rewrite Hg.
Qed.

Lemma start_game_needs_three_images_witness :
  let s := Scenario.no_images in
  let l := mkLobby Scenario.room "al"
             [mkParticipant "al" true true; mkParticipant "bo" false true]
             0%Z false in
  let s' := on_start_game 1 Scenario.room "al" s in
  emitted s' = emitted s ++ [to_socket 1 (error_event images_needed)]
  ∧ lobbies s' = lobbies s ∧ gameStates s' = gameStates s
  ∧ heap s' = heap s ∧ timers s' = timers s
  ∧ (gameStates s !! Scenario.room = None → gameStates s' !! Scenario.room = None)
  ∧ (gameStarted l = false
     → gameStarted <$> lobbies s' !! Scenario.room = Some false).
Proof.
  intros s l.
  apply (start_game_needs_three_images 1 Scenario.room "al" s l);
    [vm_compute; reflexivity | reflexivity | simpl; lia | vm_compute; lia].
Defined.

(** ** Callbacks that look the session up *)

Lemma game_deleted s c : gameStates s !! c = None → game s c = None.
Proof. unfold game. by intros ->. Qed.

(** The functions that start from [gameStates.get(code)] do nothing once
    the session is deleted.  The interval callback and the inner callback
    of [showScoreboard] work on the captured object instead. *)
Lemma deleted_session_callbacks c n k s :
  gameStates s !! c = None →
  startDiscussionPhase c s = s ∧ startVotingPhase c s = s
  ∧ calculateResults c s = s ∧ showScoreboard c s = s
  ∧ endGame c s = s ∧ startTimer c n k s = s.
Proof.
  intros Hg%game_deleted.
  unfold startDiscussionPhase, startVotingPhase, calculateResults,
    showScoreboard, endGame, startTimer.
  by rewrite !Hg.
Qed.

(** ** The guards of restart-game *)

(** X24.  [restart-game] does nothing, and answers nothing, when the
    lobby or the game is missing or when the socket is not the one of
    the host; with fewer than three images in the pool it answers the
    sender with the error and changes nothing else. *)
Lemma restart_game_guards sock c s :
  (lobbies s !! c = None ∨ gameStates s !! c = None →
   on_restart_game sock c s = s)
  ∧ (∀ l, lobbies s !! c = Some l →
          (sockets s !! sock) ≫= fst ≠ Some (host l) →
          on_restart_game sock c s = s)
  ∧ (∀ l r g, lobbies s !! c = Some l → game s c = Some (r, g) →
              (sockets s !! sock) ≫= fst = Some (host l) →
              length (gameImages s) < 3 →
              on_restart_game sock c s
              = emit (to_socket sock (error_event images_needed)) s).
Proof.
  unfold on_restart_game. repeat split.
  - intros [->| ->%game_deleted]; [done|]. by destruct (lobbies s !! c).
  - intros l -> Hs. destruct (game s c) as [[r g]|]; [|done].
    by rewrite bool_decide_eq_false_2.
  - intros l r g -> -> Hs Hi. rewrite bool_decide_eq_true_2 by done.
    by destruct (Nat.ltb_spec (length (gameImages s)) 3); [|lia].
Qed.

(** C6.  After "bo" left between two rounds the host is the only
    participant; the host's restart-game is accepted all the same: the
    game goes back to round 1 in phase [discussion] and a new
    discussion is scheduled. *)
Lemma restart_game_accepted_with_one_participant :
  let s := Scenario.outcome Scenario.bo_left 104000 in
  let s' := on_restart_game 1 Scenario.room s in
  reachable s
  ∧ length <$> (participants <$> lobbies s !! Scenario.room) = Some 1
  ∧ (λ g, (phase g.2, roundNumber g.2)) <$> game s Scenario.room
    = Some ("waiting", 2%Z)
  ∧ (λ g, (phase g.2, roundNumber g.2)) <$> game s' Scenario.room
    = Some ("discussion", 1%Z)
  ∧ timers s' !! fresh s
    = Some (mkPending 106000 (Once (StartDiscussion Scenario.room))).
Proof.
  split; [apply outcome_reachable|]. repeat split; vm_compute; reflexivity.
Qed.

(** ** Rosters *)

Lemma mark_names b u ps : username <$> mark b u ps = username <$> ps.
Proof.
  induction ps as [|p ps IH]; [done|]. cbn. case_decide; cbn; [done|].
  by rewrite IH.
Qed.

Lemma mark_hosts b u ps : isHost <$> mark b u ps = isHost <$> ps.
Proof.
  induction ps as [|p ps IH]; [done|]. cbn. case_decide; cbn; [done|].
  by rewrite IH.
Qed.

Lemma without_hosts u ps :
  length (filter (λ b, b = true) (isHost <$> without u ps))
  ≤ length (filter (λ b, b = true) (isHost <$> ps)).
Proof.
  unfold without. induction ps as [|p ps IH]; [done|].
  rewrite filter_cons. case_decide; rewrite ?fmap_cons, ?filter_cons;
    repeat case_decide; cbn [length]; lia.
Qed.

Lemma without_NoDup u ps :
  NoDup (username <$> ps) → NoDup (username <$> without u ps).
Proof.
  induction ps as [|p ps IH]; [done|]. rewrite fmap_cons.
  intros [Hp Hnd]%NoDup_cons. unfold without. rewrite filter_cons.
  case_decide; [|by apply IH]. rewrite fmap_cons. apply NoDup_cons.
  split; [|by apply IH]. intros Hin. by apply names_without_subset in Hin.
Qed.

Lemma roster_ok_mark b u l :
  roster_ok l → roster_ok (set_participants (mark b u (participants l)) l).
Proof.
  unfold roster_ok, names. cbn. by rewrite mark_names, mark_hosts.
Qed.

Lemma roster_ok_without u l :
  roster_ok l → roster_ok (set_participants (without u (participants l)) l).
Proof.
  unfold roster_ok, names. cbn. intros [Hh Hnd]. split.
  - pose proof (without_hosts u (participants l)). lia.
  - by apply without_NoDup.
Qed.

Lemma roster_ok_join u l :
  u ∉ names l →
  roster_ok l →
  roster_ok (set_participants (participants l ++ [mkParticipant u false true]) l).
Proof.
  unfold roster_ok, names. cbn. intros Hu [Hh Hnd]. rewrite !fmap_app. split.
  - rewrite filter_app, length_app. cbn.
    destruct (decide (false = true)); [done|]. cbn. lia.
  - apply NoDup_app. split; [done|]. split; [|apply NoDup_singleton].
    intros x Hx ->%list_elem_of_singleton. done.
Qed.

Lemma lobbies_all_store P c l s s' :
  lobbies s' = <[c := l]> (lobbies s) → P l →
  lobbies_all P s → lobbies_all P s'.
Proof.
  intros Hs' Hl Hs c' l'. rewrite Hs', lookup_insert.
  case_decide; [by intros [= <-]|apply Hs].
Qed.

Lemma lobbies_all_delete P c s s' :
  lobbies s' = delete c (lobbies s) → lobbies_all P s → lobbies_all P s'.
Proof.
  intros Hs' Hs c' l'. rewrite Hs', lookup_delete.
  case_decide; [done|apply Hs].
Qed.

Lemma lobbies_all_same P s s' :
  lobbies s' = lobbies s → lobbies_all P s → lobbies_all P s'.
Proof. unfold lobbies_all. by intros ->. Qed.

Lemma registries_clear_timer_of g s :
  registries (clear_timer_of g s) = registries s.
Proof. unfold clear_timer_of. by destruct (timerInterval g). Qed.

Lemma registries_endGame c s : registries (endGame c s) = registries s.
Proof.
  unfold endGame. destruct (game s c) as [[r g]|]; [|done].
  apply registries_clear_timer_of.
Qed.

Lemma registries_startTimer c n k s :
  registries (startTimer c n k s) = registries s.
Proof.
  unfold startTimer. destruct (game s c) as [[r g]|]; [|done].
  apply (registries_clear_timer_of g (mutate r (set_timer n) s)).
Qed.

Lemma registries_calculateResults c s :
  registries (calculateResults c s) = registries s.
Proof. unfold calculateResults. by repeat case_match. Qed.

Lemma registries_startVotingPhase c s :
  registries (startVotingPhase c s) = registries s.
Proof.
  unfold startVotingPhase. destruct (game s c) as [[r g]|]; [|done].
  by rewrite registries_startTimer.
Qed.

Lemma registries_startDiscussionPhase c s :
  registries (startDiscussionPhase c s) = registries s.
Proof.
  unfold startDiscussionPhase. destruct (game s c) as [[r g]|]; [|done].
  destruct (lobbies s !! c); [|done].
  destruct (_ || _); [apply registries_endGame|].
  unfold getRandomImages. cbv zeta.
  destruct (length (gameImages s) <? 3)%nat; cbn [length Nat.ltb Nat.leb];
    [apply registries_endGame|].
  rewrite registries_startTimer.
  match goal with
  | |- registries (broadcast _ _ (broadcast _ _ (clear_timer_of ?g ?s0))) = _ =>
      apply (registries_clear_timer_of g s0)
  end.
Qed.

Lemma registries_nextRound c r s : registries (nextRound c r s) = registries s.
Proof.
  unfold nextRound. destruct (heap s !! r); [|done]. cbv zeta.
  case_match; [by rewrite registries_endGame|done].
Qed.

Lemma registries_showScoreboard c s :
  registries (showScoreboard c s) = registries s.
Proof. unfold showScoreboard. by repeat case_match. Qed.

Lemma registries_tick c r k s : registries (tick c r k s) = registries s.
Proof.
  unfold tick. destruct (heap s !! r) as [g|]; [|done]. cbv zeta.
  case_match; [|done].
  destruct k; cbn [continue];
    [rewrite registries_startVotingPhase
    | rewrite registries_calculateResults];
    match goal with
    | |- registries (mutate _ _ (clear_timer_of ?g ?s0)) = _ =>
        apply (registries_clear_timer_of g s0)
    end.
Qed.

(** No timer callback touches a lobby, the table of games, a disconnect
    record, the image pool or a socket. *)
Lemma registries_fire h s : registries (fire h s) = registries s.
Proof.
  unfold fire. destruct (timers s !! h) as [p|]; [|done]. cbv zeta.
  destruct (job p) as [c r k|[c|c|c r]]; cbn [delayed].
  - apply (registries_tick c r k (with_now s (due p))).
  - by rewrite registries_startDiscussionPhase.
  - by rewrite registries_showScoreboard.
  - by rewrite registries_nextRound.
Qed.

Lemma lobbies_fire h s : lobbies (fire h s) = lobbies s.
Proof. pose proof (registries_fire h s) as H. by injection H. Qed.

Lemma disconnectedPlayers_fire h s :
  disconnectedPlayers (fire h s) = disconnectedPlayers s.
Proof. pose proof (registries_fire h s) as H. by injection H. Qed.

Lemma sweep_rosters s :
  lobbies_all roster_ok s → lobbies_all roster_ok (sweep s).
Proof.
  unfold sweep. generalize (now s) as t. intros t.
  generalize (disconnectedPlayers s) as es. intros es. revert s.
  induction es as [|e es IH]; intros s Hs; cbn; [done|].
  apply IH. unfold sweep_entry. case_match; [|done].
  destruct (lobbies s !! e.2.1) as [l|] eqn:Hl; [|done].
  eapply lobbies_all_store; [reflexivity| |done].
  apply roster_ok_without. by eapply Hs.
Qed.

Ltac rosters :=
  repeat first
    [ assumption
    | progress (eauto using roster_ok_mark, roster_ok_without)
    | eapply lobbies_all_store; [reflexivity| |]
    | eapply lobbies_all_delete; [reflexivity|]
    | match goal with
      | |- lobbies_all _ (clear_timer_of ?g ?s) =>
          apply (lobbies_all_same _ s);
          [unfold clear_timer_of; by destruct (timerInterval g)|]
      | |- lobbies_all _ (?f ?x) =>
          apply (lobbies_all_same _ x (f x)); [reflexivity|]
      | |- lobbies_all _ (?f ?x ?v) =>
          apply (lobbies_all_same _ x (f x v)); [reflexivity|]
      end ].

Lemma handle_rosters q s :
  lobbies_all roster_ok s → lobbies_all roster_ok (handle q s).
Proof.
  intros Hs. destruct q; cbn [handle].
  - unfold api_lobby_create. repeat case_match; rosters.
    split; cbn; [|apply NoDup_singleton].
    destruct (decide (true = true)); cbn; lia.
  - unfold api_lobby_join. destruct (_ || _); [rosters|].
    destruct (lobbies s !! c) as [l|] eqn:Hl; [|rosters].
    pose proof (Hs c l Hl). unfold member. case_bool_decide as Hm.
    + rosters.
    + cbv zeta. repeat case_match; rosters; by apply roster_ok_join.
  - unfold on_join_lobby. cbv zeta.
    change (lobbies (with_sockets s ?v)) with (lobbies s).
    destruct (lobbies s !! c) as [l|] eqn:Hl; rosters.
  - unfold on_leave_lobby.
    destruct (lobbies s !! c) as [l|] eqn:Hl; [|done].
    pose proof (Hs c l Hl). repeat case_match; rosters.
  - unfold on_start_game.
    destruct (lobbies s !! c) as [l|] eqn:Hl; [|done].
    pose proof (Hs c l Hl) as Hok. repeat case_match; cbv zeta; rosters.
  - unfold on_cast_vote. repeat case_match; rosters.
  - unfold on_restart_game. repeat case_match; cbv zeta; rosters.
  - unfold on_disconnect. cbv zeta.
    change (lobbies (with_sockets s ?v)) with (lobbies s).
    destruct (sockets s !! sock) as [[[u|] [c|]]|]; rosters.
    destruct (_ && _); rosters.
    destruct (lobbies s !! c) as [l|] eqn:Hl; rosters.
    pose proof (Hs c l Hl). repeat case_match; rosters.
  - by apply sweep_rosters.
  - rosters.
Qed.

(** In every reachable state, every lobby has at most one participant
    flagged as host, and no username occurs twice on its roster. *)
Lemma reachable_rosters s : reachable s → lobbies_all roster_ok s.
Proof.
  induction 1.
  - intros c l. cbn. by rewrite lookup_empty.
  - by apply handle_rosters.
  - by apply (lobbies_all_same _ s); [apply lobbies_fire|].
  - done.
Qed.

(** C2.  The host leaves during the first discussion, so the handler only
    marks the host as disconnected and records the time.  The sweep that
    runs after the grace period takes the host off the roster and keeps
    the lobby.  In the state reached, which satisfies the roster invariant
    (at most one participant flagged as host), the lobby is alive, its
    [host] is "al", and "al" is no participant. *)
Lemma sweep_removes_host_and_keeps_lobby :
  let s := Scenario.outcome Scenario.host_swept 360000 in
  reachable s
  ∧ lobbies_all roster_ok s
  ∧ (λ l, (host l, participants l)) <$> lobbies s !! Scenario.room
    = Some ("al", [mkParticipant "bo" false true])
  ∧ ¬ (∀ c l, lobbies s !! c = Some l → host l ∈ names l).
Proof.
  intros s.
  assert (reachable s) as Hr by apply outcome_reachable.
  assert ((λ l, (host l, participants l)) <$> lobbies s !! Scenario.room
          = Some ("al", [mkParticipant "bo" false true])) as Hl
    by (vm_compute; reflexivity).
  clearbody s. split; [done|]. split; [by apply reachable_rosters|].
  split; [done|]. intros Hall.
  destruct (lobbies s !! Scenario.room) as [l|] eqn:El; [|discriminate].
  specialize (Hall _ l El). injection Hl as Hh Hp.
  unfold names in Hall. rewrite Hh, Hp in Hall.
  apply list_elem_of_singleton in Hall. discriminate.
Qed.

(** ** The grace-period sweep *)

Section Sweep.

Variables (c u : string).

Lemma sweep_entry_keeps_lobby t s e :
  is_Some (lobbies s !! c) → is_Some (lobbies (sweep_entry t s e) !! c).
Proof.
  intros Hl. unfold sweep_entry. case_match; [|done].
  destruct (lobbies s !! e.2.1) as [l|] eqn:El; state_simpl; [|done].
  destruct (decide (e.2.1 = c)) as [->|Hne].
  - rewrite lookup_insert_eq. eauto.
  - by rewrite lookup_insert_ne.
Qed.

Lemma sweep_entry_keeps_swept t s e :
  swept c u s → swept c u (sweep_entry t s e).
Proof.
  intros (l & Hl & Hu). unfold sweep_entry, swept. case_match; [|eauto].
  destruct (lobbies s !! e.2.1) as [l'|] eqn:El; state_simpl; [|eauto].
  destruct (decide (e.2.1 = c)) as [Heq|Hne].
  - rewrite Heq in *. rewrite lookup_insert_eq. eexists; split; [done|].
    unfold names; cbn. intros Hin. apply names_without_subset in Hin.
    assert (l' = l) as -> by congruence. by apply Hu.
  - rewrite lookup_insert_ne; [|done]. eauto.
Qed.

Lemma sweep_entry_removes t s ts :
  is_Some (lobbies s !! c) → (grace < t - ts)%Z →
  swept c u (sweep_entry t s (u, (c, ts))).
Proof.
  intros [l Hl] Ht. unfold sweep_entry, swept; cbn [fst snd].
  destruct (Z.ltb_spec grace (t - ts)); [|lia].
  rewrite Hl. state_simpl. rewrite lookup_insert_eq.
  eexists; split; [done|]. unfold names; cbn. apply names_without.
Qed.

Lemma sweep_fold_keeps_swept t es s :
  swept c u s → swept c u (fold_left (sweep_entry t) es s).
Proof.
  revert s. induction es as [|e es IH]; intros s Hs; cbn; [done|].
  apply IH. by apply sweep_entry_keeps_swept.
Qed.

Lemma sweep_fold_removes t es s ts :
  (u, (c, ts)) ∈ es → is_Some (lobbies s !! c) → (grace < t - ts)%Z →
  swept c u (fold_left (sweep_entry t) es s).
Proof.
  revert s. induction es as [|e es IH]; intros s Hin Hl Ht.
  - by apply elem_of_nil in Hin.
  - cbn. apply elem_of_cons in Hin as [<-|Hin].
    + apply sweep_fold_keeps_swept. by apply sweep_entry_removes.
    + apply IH; [done| |done]. by apply sweep_entry_keeps_lobby.
Qed.

End Sweep.

Lemma join_http_keeps_records c u s :
  disconnectedPlayers (api_lobby_join c u s) = disconnectedPlayers s.
Proof.
  unfold api_lobby_join. repeat case_match; state_simpl; done.
Qed.

Lemma join_socket_keeps_records sock c u s :
  disconnectedPlayers (on_join_lobby sock c u s) = disconnectedPlayers s.
Proof.
  unfold on_join_lobby. state_simpl. repeat case_match; state_simpl; done.
Qed.

(** ** Reconnection and the sweep *)

Lemma handle_keeps_records q s :
  writes_records q = false →
  disconnectedPlayers (handle q s) = disconnectedPlayers s.
Proof.
  intros Hq. destruct q; try discriminate Hq; cbn [handle].
  - unfold api_lobby_create. by repeat case_match.
  - apply join_http_keeps_records.
  - apply join_socket_keeps_records.
  - unfold on_start_game. by repeat case_match.
  - unfold on_cast_vote. by repeat case_match.
  - unfold on_restart_game. repeat case_match; try done.
    cbv zeta. state_simpl. unfold clear_timer_of.
    by destruct (timerInterval _).
  - done.
Qed.






(** ** What the callbacks do to the game objects *)

Lemma heap_clear_timer_of g s : heap (clear_timer_of g s) = heap s.
Proof. unfold clear_timer_of. by destruct (timerInterval g). Qed.

Lemma heap_all_same P s s' : heap s' = heap s → heap_all P s → heap_all P s'.
Proof. unfold heap_all. by intros ->. Qed.

Lemma heap_all_mutate P r f s :
  (∀ g, P g → P (f g)) → heap_all P s → heap_all P (mutate r f s).
Proof.
  intros Hf Hs r' g'. state_simpl. rewrite lookup_alter.
  case_decide as Hr; [|by apply Hs]. subst r'.
  destruct (heap s !! r) as [g|] eqn:Hg; [|done].
  intros [= <-]. apply Hf. by eapply Hs.
Qed.

Lemma heap_all_alloc P r g (s : State) v :
  heap v = <[r := g]> (heap s) → P g → heap_all P s → heap_all P v.
Proof.
  intros Hv Hg Hs r' g'. rewrite Hv, lookup_insert. case_decide.
  - by intros [= <-].
  - by apply Hs.
Qed.








Lemma getRandomImages_heap s : heap (getRandomImages s).2 = heap s.
Proof. unfold getRandomImages. by case_match. Qed.






Lemma sweep_heap s : heap (sweep s) = heap s.
Proof.
  unfold sweep. generalize (now s). intros t.
  generalize (disconnectedPlayers s) as es. intros es. revert s.
  induction es as [|e es IH]; intros s; cbn; [done|].
  rewrite IH. unfold sweep_entry. repeat case_match; done.
Qed.



(** ** The end of a game *)

Lemma game_same s s' c :
  gameStates s' = gameStates s → heap s' = heap s → game s' c = game s c.
Proof. unfold game. by intros -> ->. Qed.

Lemma game_mutate s c r g f :
  game s c = Some (r, g) → game (mutate r f s) c = Some (r, f g).
Proof.
  unfold game. state_simpl. destruct (gameStates s !! c) as [r'|]; [|done].
  cbn. destruct (heap s !! r') as [g'|] eqn:Hg; [|done]. cbn.
  intros [= -> ->]. by rewrite lookup_alter_eq, Hg.
Qed.

Lemma game_alloc s c r g s' :
  gameStates s' = <[c := r]> (gameStates s) → heap s' = <[r := g]> (heap s) →
  game s' c = Some (r, g).
Proof.
  unfold game. intros -> ->. rewrite lookup_insert_eq. cbn.
  by rewrite lookup_insert_eq.
Qed.

Lemma game_heap s c r g : game s c = Some (r, g) → heap s !! r = Some g.
Proof.
  unfold game. destruct (gameStates s !! c) as [r'|]; [|done]. cbn.
  destruct (heap s !! r') as [g'|] eqn:Hg; [|done]. cbn. by intros [= <- <-].
Qed.

Lemma game_broadcast c' e s c : game (broadcast c' e s) c = game s c.
Proof. done. Qed.

Lemma game_clear_timer_of g s c : game (clear_timer_of g s) c = game s c.
Proof. unfold clear_timer_of. by destruct (timerInterval g). Qed.













(** ** Intervals and the objects that own them *)

Lemma registered_same s s' :
  heap s' = heap s → timers s' = timers s → fresh s' = fresh s →
  intervals_registered s → intervals_registered s'.
Proof. unfold intervals_registered. by intros -> -> ->. Qed.

Lemma registered_setTimeout d t s :
  intervals_registered s → intervals_registered (setTimeout d t s).
Proof.
  intros [HA HB]. split; state_simpl.
  - intros r g Hg. specialize (HA r g Hg). lia.
  - intros h p c r k. rewrite lookup_insert. case_decide.
    + by intros [= <-].
    + apply HB.
Qed.

Lemma registered_clearInterval h0 s :
  intervals_registered s → intervals_registered (clearInterval h0 s).
Proof.
  intros [HA HB]. split; state_simpl; [done|].
  intros h p c r k. rewrite lookup_delete. case_decide; [done|apply HB].
Qed.

Lemma registered_clear_timer_of g s :
  intervals_registered s → intervals_registered (clear_timer_of g s).
Proof.
  unfold clear_timer_of. destruct (timerInterval g); [|done].
  apply registered_clearInterval.
Qed.

Lemma registered_mutate r f s :
  (∀ g, timerInterval (f g) = timerInterval g) →
  intervals_registered s → intervals_registered (mutate r f s).
Proof.
  intros Hf [HA HB]. split; state_simpl.
  - intros r' g'. rewrite lookup_alter. case_decide; [|apply HA]. subst r'.
    destruct (heap s !! r) as [g|] eqn:Hg; [|done]. intros _. by eapply HA.
  - intros h p c r' k Hp Hj. destruct (HB h p c r' k Hp Hj) as (g & Hg & Ht).
    rewrite lookup_alter. case_decide.
    + subst r'. rewrite Hg. cbn. eexists. split; [done|]. by rewrite Hf.
    + eauto.
Qed.

Lemma registered_reschedule h s :
  intervals_registered s → intervals_registered (reschedule h s).
Proof.
  intros [HA HB]. split; unfold reschedule; state_simpl; [done|].
  intros h' p c r k. rewrite lookup_alter. case_decide; [|apply HB]. subst h'.
  destruct (timers s !! h) as [p0|] eqn:Hp0; [|done]. cbn.
  intros [= <-] Hj. by eapply HB.
Qed.

Lemma registered_alloc g s s' :
  heap s' = <[fresh s := g]> (heap s) → timers s' = timers s →
  fresh s' = S (fresh s) →
  intervals_registered s → intervals_registered s'.
Proof.
  intros Hh Ht Hf [HA HB]. split; rewrite ?Hh, ?Ht, ?Hf.
  - intros r g'. rewrite lookup_insert. case_decide; [lia|].
    intros Hg. specialize (HA r g' Hg). lia.
  - intros h p c r k Hp Hj. destruct (HB h p c r k Hp Hj) as (g0 & Hg0 & Hi).
    exists g0. split; [|done]. rewrite lookup_insert_ne; [done|].
    specialize (HA r g0 Hg0). lia.
Qed.

(** Once the handle an object refers to is cleared, the object has no
    scheduled interval, and its [timerInterval] may be overwritten. *)
Lemma registered_overwrite r g v s :
  heap s !! r = Some g →
  (∀ h0, timerInterval g = Some h0 → timers s !! h0 = None) →
  intervals_registered s →
  intervals_registered (mutate r (set_timerInterval v) s)
  ∧ ∀ h p c k, timers s !! h = Some p → job p ≠ Tick c r k.
Proof.
  intros Hg Hfree [HA HB].
  assert (∀ h p c k, timers s !! h = Some p → job p ≠ Tick c r k) as Hno.
  { intros h p c k Hp Hj. destruct (HB h p c r k Hp Hj) as (g' & Hg' & Hi).
    assert (g' = g) as -> by congruence.
    specialize (Hfree h Hi). congruence. }
  split; [|done]. split; state_simpl.
  - intros r' g'. rewrite lookup_alter. case_decide; [|apply HA]. subst r'.
    intros _. by eapply HA.
  - intros h p c r' k Hp Hj. rewrite lookup_alter. case_decide.
    + subst r'. by destruct (Hno h p c k Hp).
    + by eapply HB.
Qed.

Lemma startTimer_registered c n k s :
  intervals_registered s → intervals_registered (startTimer c n k s).
Proof.
  intros Hs. unfold startTimer.
  destruct (game s c) as [[r g]|] eqn:Hg; [|done]. cbv zeta.
  apply game_heap in Hg.
  set (s1 := clear_timer_of g (mutate r (set_timer n) s)).
  assert (intervals_registered s1) as Hs1.
  { by apply registered_clear_timer_of, registered_mutate. }
  assert (heap s1 !! r = Some (set_timer n g)) as Hg1.
  { unfold s1. rewrite heap_clear_timer_of. state_simpl.
    by rewrite lookup_alter_eq, Hg. }
  assert (∀ h0, timerInterval (set_timer n g) = Some h0 →
                timers s1 !! h0 = None) as Hfree.
  { intros h0 Hh0. unfold s1, clear_timer_of. cbn in Hh0. rewrite Hh0.
    state_simpl. apply lookup_delete_eq. }
  destruct (registered_overwrite r _ (Some (fresh s1)) s1 Hg1 Hfree Hs1)
    as [[HA HB] Hno].
  destruct Hs1 as [HA1 HB1]. split.
  - intros r' g'. state_simpl. intros Hr'. specialize (HA r' g' Hr'). lia.
  - intros h p c' r' k'. state_simpl. rewrite lookup_insert. case_decide.
    + intros [= <-] [= <- <- <-]. rewrite lookup_alter_eq, Hg1. cbn.
      eexists. split; [done|]. by subst h.
    + apply HB.
Qed.

Ltac registered :=
  repeat first
    [ assumption
    | apply registered_setTimeout
    | apply registered_clearInterval
    | apply registered_clear_timer_of
    | apply registered_reschedule
    | apply startTimer_registered
    | apply registered_mutate; [ intros ?; reflexivity | ]
    | match goal with
      | |- intervals_registered (?f ?x) =>
          apply (registered_same x (f x)); [reflexivity..|]
      | |- intervals_registered (?f ?x ?v) =>
          apply (registered_same x (f x v)); [reflexivity..|]
      end ].

Lemma endGame_registered c s :
  intervals_registered s → intervals_registered (endGame c s).
Proof. intros Hs. unfold endGame. repeat case_match; registered. Qed.

Lemma calculateResults_registered c s :
  intervals_registered s → intervals_registered (calculateResults c s).
Proof.
  intros Hs. unfold calculateResults. repeat case_match; cbv zeta; registered.
Qed.

Lemma startVotingPhase_registered c s :
  intervals_registered s → intervals_registered (startVotingPhase c s).
Proof.
  intros Hs. unfold startVotingPhase. repeat case_match; cbv zeta; registered.
Qed.

Lemma startDiscussionPhase_registered c s :
  intervals_registered s → intervals_registered (startDiscussionPhase c s).
Proof.
  intros Hs. unfold startDiscussionPhase.
  destruct (game s c) as [[r g]|]; [|done].
  destruct (lobbies s !! c); [|done].
  destruct (_ || _); [by apply endGame_registered|].
  unfold getRandomImages. cbv zeta.
  destruct (length (gameImages s) <? 3)%nat; cbn [length Nat.ltb Nat.leb];
    [by apply endGame_registered|].
  registered.
Qed.

Lemma nextRound_registered c r s :
  intervals_registered s → intervals_registered (nextRound c r s).
Proof.
  intros Hs. unfold nextRound. repeat case_match; cbv zeta;
    try apply endGame_registered; registered.
Qed.

Lemma showScoreboard_registered c s :
  intervals_registered s → intervals_registered (showScoreboard c s).
Proof.
  intros Hs. unfold showScoreboard. repeat case_match; cbv zeta; registered.
Qed.

Lemma tick_registered c r k s :
  intervals_registered s → intervals_registered (tick c r k s).
Proof.
  intros Hs. unfold tick. destruct (heap s !! r) as [g|] eqn:Hg; [|done].
  cbv zeta. case_match; [|registered].
  set (s1 := clear_timer_of g
               (broadcast c (game_timer (timer g - 1))
                  (mutate r (set_timer (timer g - 1)) s))).
  assert (intervals_registered s1) as Hs1 by (unfold s1; registered).
  assert (heap s1 !! r = Some (set_timer (timer g - 1) g)) as Hg1.
  { unfold s1. rewrite heap_clear_timer_of. state_simpl.
    by rewrite lookup_alter_eq, Hg. }
  assert (∀ h0, timerInterval (set_timer (timer g - 1) g) = Some h0 →
                timers s1 !! h0 = None) as Hfree.
  { intros h0 Hh0. unfold s1, clear_timer_of. cbn in Hh0. rewrite Hh0.
    state_simpl. apply lookup_delete_eq. }
  destruct (registered_overwrite r _ None s1 Hg1 Hfree Hs1) as [Hs2 _].
  destruct k; cbn [continue];
    [by apply startVotingPhase_registered
    | by apply calculateResults_registered].
Qed.

Lemma fire_registered h s :
  intervals_registered s → intervals_registered (fire h s).
Proof.
  intros Hs. unfold fire. destruct (timers s !! h) as [p|]; [|done].
  cbv zeta. destruct (job p) as [c r k|d].
  - registered. apply tick_registered. registered.
  - assert (intervals_registered
              (with_timers (with_now s (due p))
                 (delete h (timers (with_now s (due p)))))) as Hs'.
    { apply (registered_clearInterval h (with_now s (due p))). registered. }
    destruct d; cbn [delayed];
      [by apply startDiscussionPhase_registered
      | by apply showScoreboard_registered
      | by apply nextRound_registered].
Qed.

Lemma sweep_timers s : timers (sweep s) = timers s ∧ fresh (sweep s) = fresh s.
Proof.
  unfold sweep. generalize (now s) as t. intros t.
  generalize (disconnectedPlayers s) as es. intros es. revert s.
  induction es as [|e es IH]; intros s; cbn; [done|].
  destruct (IH (sweep_entry t s e)) as [-> ->].
  unfold sweep_entry. repeat case_match; done.
Qed.

Lemma handle_registered q s :
  intervals_registered s → intervals_registered (handle q s).
Proof.
  intros Hs. destruct q; cbn [handle].
  - unfold api_lobby_create. repeat case_match; registered.
  - unfold api_lobby_join. repeat case_match; cbv zeta; registered.
  - unfold on_join_lobby. cbv zeta. repeat case_match; registered.
  - unfold on_leave_lobby. repeat case_match; cbv zeta; registered.
  - unfold on_start_game. repeat case_match; cbv zeta; registered.
    eapply registered_alloc; [reflexivity..|done].
  - unfold on_cast_vote. repeat case_match; registered.
  - unfold on_restart_game. repeat case_match; cbv zeta; registered.
  - unfold on_disconnect. cbv zeta. repeat case_match; registered.
  - destruct (sweep_timers s).
    by apply (registered_same s); [apply sweep_heap|..].
  - registered.
Qed.

Lemma reachable_registered s : reachable s → intervals_registered s.
Proof.
  induction 1.
  - split; intros *; cbn; by rewrite lookup_empty.
  - by apply handle_registered.
  - by apply fire_registered.
  - registered.
Qed.

(** X25.  In every reachable state a game object has at most one scheduled
    interval, the one its [timerInterval] refers to; the intervals of a
    room are as many as the game objects that were registered for it and
    discarded with their interval running. *)
Lemma one_interval_per_game_object s h1 h2 p1 p2 c1 c2 r k1 k2 :
  reachable s →
  timers s !! h1 = Some p1 → job p1 = Tick c1 r k1 →
  timers s !! h2 = Some p2 → job p2 = Tick c2 r k2 →
  h1 = h2.
Proof.
  intros [_ HB]%reachable_registered Hp1 Hj1 Hp2 Hj2.
  destruct (HB h1 p1 c1 r k1 Hp1 Hj1) as (g1 & Hg1 & Hi1).
  destruct (HB h2 p2 c2 r k2 Hp2 Hj2) as (g2 & Hg2 & Hi2).
  congruence.
Qed.



(** Which handlers cancel, and which do not. *)

Lemma leave_lobby_clears_nothing sock c u s :
  timers (on_leave_lobby sock c u s) = timers s.
Proof. unfold on_leave_lobby. by repeat case_match. Qed.

Lemma start_game_clears_nothing sock c u s h :
  h ≠ S (fresh s) → timers (on_start_game sock c u s) !! h = timers s !! h.
Proof.
  intros Hh. unfold on_start_game. repeat case_match; try done.
  cbv zeta. state_simpl. by rewrite lookup_insert_ne.
Qed.

Lemma restart_game_clears sock c s l r g h :
  lobbies s !! c = Some l → game s c = Some (r, g) →
  (sockets s !! sock) ≫= fst = Some (host l) →
  3 ≤ length (gameImages s) →
  timerInterval g = Some h → h ≠ fresh s →
  timers (on_restart_game sock c s) !! h = None.
Proof.
  intros Hl Hg Hs Hi Hh Hne. unfold on_restart_game. rewrite Hl, Hg.
  rewrite bool_decide_eq_true_2 by done.
  destruct (Nat.ltb_spec (length (gameImages s)) 3); [lia|].
  cbv zeta. unfold clear_timer_of. rewrite Hh. state_simpl.
  rewrite lookup_insert_ne by done. apply lookup_delete_eq.
Qed.

Lemma disconnect_teardown_clears sock s u c l r g h :
  sockets s !! sock = Some (Some u, Some c) →
  JS.truthy c = true → JS.truthy u = true →
  lobbies s !! c = Some l → u = host l → u ∈ names l →
  game s c = Some (r, g) → phase g = "waiting" →
  timerInterval g = Some h →
  let s' := on_disconnect sock s in
  lobbies s' !! c = None ∧ gameStates s' !! c = None ∧ timers s' !! h = None.
Proof.
  intros Hsock Hc Hu Hl Hhost Hin Hg Hph Hh. unfold on_disconnect.
  rewrite Hsock, Hc, Hu. cbv zeta. cbn [andb].
  change (lobbies (with_sockets s ?v)) with (lobbies s). rewrite Hl.
  unfold member. rewrite bool_decide_eq_true_2 by done.
  unfold mid_game.
  change (game (with_sockets s ?v) c) with (game s c). rewrite Hg.
  rewrite bool_decide_eq_false_2 by (by intros Hne; apply Hne).
  rewrite (bool_decide_eq_true_2 (u = host l)) by done.
  rewrite orb_true_r. unfold clear_timer_of. rewrite Hh. state_simpl.
  rewrite !lookup_delete_eq. done.
Qed.

(** C3.  A second start-game replaces the game object of the room
    without clearing the interval of the object it discards: once the new
    discussion has begun, two intervals tick for the room, the one of the
    discarded object and the one of the registered object, and each
    second brings a [game-timer] event from each. *)
Lemma second_start_game_leaves_two_intervals :
  let s := Scenario.outcome Scenario.started_twice 7200 in
  let s' := Scenario.outcome Scenario.started_twice 8200 in
  reachable s
  ∧ gameStates s !! Scenario.room = Some 3
  ∧ live_intervals Scenario.room s = [2; 5]
  ∧ job <$> timers s !! 2 = Some (Tick Scenario.room 0 ToVoting)
  ∧ job <$> timers s !! 5 = Some (Tick Scenario.room 3 ToVoting)
  ∧ since (length (emitted s)) s'
    = [to_room Scenario.room (game_timer 59);
       to_room Scenario.room (game_timer 55)].
Proof.
  split; [apply outcome_reachable|]. repeat split; vm_compute; reflexivity.
Qed.

(** C4.  The host restarts while the results are shown; the scoreboard
    chain of the first cycle then puts the game into [waiting] while the
    interval of the new discussion runs.  When the host leaves in that
    state, [leave-lobby] deletes lobby and game and clears nothing: the
    interval stays scheduled, and its next tick decrements the timer of
    the deleted game and broadcasts [game-timer] to the room. *)
Lemma interval_survives_leave_lobby_teardown :
  let s := Scenario.outcome Scenario.restarted_then_closed 103700 in
  let s' := Scenario.outcome Scenario.restarted_then_closed 104500 in
  reachable s
  ∧ last (emitted s) = Some (to_room Scenario.room lobby_closed)
  ∧ lobbies s !! Scenario.room = None
  ∧ gameStates s !! Scenario.room = None
  ∧ live_intervals Scenario.room s = [6]
  ∧ since (length (emitted s)) s' = [to_room Scenario.room (game_timer 51)]
  ∧ timer <$> heap s !! 0 = Some 52%Z
  ∧ timer <$> heap s' !! 0 = Some 51%Z.
Proof.
  split; [apply outcome_reachable|]. repeat split; vm_compute; reflexivity.
Qed.

(** ** Scores *)

Lemma award_app ws1 ws2 sc : award (ws1 ++ ws2) sc = award ws2 (award ws1 sc).
Proof. unfold award. apply fold_left_app. Qed.

Lemma award_le ws sc u n :
  sc !! u = Some n → ∃ n', award ws sc !! u = Some n' ∧ (n ≤ n')%Z.
Proof.
  unfold award. revert sc n. induction ws as [|w ws IH]; intros sc n Hn; cbn.
  - exists n. split; [done|lia].
  - unfold JS.set at 2. case_decide; [by apply IH|].
    destruct (decide (w = u)) as [->|Hne].
    + edestruct (IH (<[u := (default 0 (sc !! u) + 1)%Z]> sc)) as (n' & Hn' & ?).
      { apply lookup_insert_eq. }
      exists n'. split; [done|]. rewrite Hn in *. cbn in *. lia.
    + apply IH. by rewrite lookup_insert_ne.
Qed.

Lemma scores_awarded_refl g : scores_awarded g g.
Proof. by exists []. Qed.

Lemma scores_awarded_trans g1 g2 g3 :
  scores_awarded g1 g2 → scores_awarded g2 g3 → scores_awarded g1 g3.
Proof.
  intros [ws1 H1] [ws2 H2]. exists (ws1 ++ ws2).
  by rewrite award_app, <- H1.
Qed.

(** Points are only ever added. *)
Lemma scores_awarded_le g g' : scores_awarded g g' → scores_le g g'.
Proof. intros [ws Hws] u n Hn. rewrite Hws. by apply award_le. Qed.

Lemma scores_kept_awarded g g' : scores_kept g g' → scores_awarded g g'.
Proof. intros Hk. by exists []. Qed.

Section Evolution.

Variable R : GameState → GameState → Prop.
Hypothesis R_refl : ∀ g, R g g.
Hypothesis R_trans : ∀ g1 g2 g3, R g1 g2 → R g2 g3 → R g1 g3.

Lemma evolves_refl s : evolves R s s.
Proof. intros r g Hg. exists g. split; [done|apply R_refl]. Qed.

Lemma evolves_same s0 s s' :
  heap s' = heap s → evolves R s0 s → evolves R s0 s'.
Proof. unfold evolves. by intros ->. Qed.

Lemma evolves_mutate s0 r f s :
  (∀ g, R g (f g)) → evolves R s0 s → evolves R s0 (mutate r f s).
Proof.
  intros Hf Hs r' g0 Hg0. destruct (Hs r' g0 Hg0) as (g & Hg & Hle).
  state_simpl. rewrite lookup_alter. case_decide as Hr.
  - subst r'. rewrite Hg. cbn. eexists. split; [done|].
    eapply R_trans; [done|apply Hf].
  - eauto.
Qed.

End Evolution.

Lemma evolves_weaken (R R' : GameState → GameState → Prop) s s' :
  (∀ g g', R g g' → R' g g') → evolves R s s' → evolves R' s s'.
Proof.
  intros HR Hs r g Hg. destruct (Hs r g Hg) as (g' & Hg' & HRg). eauto.
Qed.

Ltac evolution lemma_mutate lemma_same field :=
  repeat first
    [ assumption
    | apply lemma_mutate; [ field | ]
    | match goal with
      | |- evolves _ _ (clear_timer_of ?g ?s) =>
          apply (lemma_same _ s); [apply heap_clear_timer_of|]
      | |- evolves _ _ (?f ?x) =>
          apply (lemma_same _ x (f x)); [reflexivity|]
      | |- evolves _ _ (?f ?x ?v) =>
          apply (lemma_same _ x (f x v)); [reflexivity|]
      end ].

Lemma awarded_mutate s0 r f s :
  (∀ g, scores_awarded g (f g)) →
  evolves scores_awarded s0 s → evolves scores_awarded s0 (mutate r f s).
Proof. apply evolves_mutate, scores_awarded_trans. Qed.

Lemma awarded_same s0 s s' :
  heap s' = heap s →
  evolves scores_awarded s0 s → evolves scores_awarded s0 s'.
Proof. apply evolves_same. Qed.

Ltac grows_field :=
  intros ?; first [ by exists [] | by eexists ].

Ltac grows := evolution awarded_mutate awarded_same grows_field.

Lemma endGame_grows s0 c s :
  evolves scores_awarded s0 s → evolves scores_awarded s0 (endGame c s).
Proof. intros Hs. unfold endGame. repeat case_match; grows. Qed.

Lemma startTimer_grows s0 c n k s :
  evolves scores_awarded s0 s → evolves scores_awarded s0 (startTimer c n k s).
Proof. intros Hs. unfold startTimer. repeat case_match; cbv zeta; grows. Qed.

Lemma calculateResults_grows s0 c s :
  evolves scores_awarded s0 s →
  evolves scores_awarded s0 (calculateResults c s).
Proof.
  intros Hs. unfold calculateResults. repeat case_match; cbv zeta; grows.
Qed.

Lemma startVotingPhase_grows s0 c s :
  evolves scores_awarded s0 s →
  evolves scores_awarded s0 (startVotingPhase c s).
Proof.
  intros Hs. unfold startVotingPhase. repeat case_match; cbv zeta;
    try apply startTimer_grows; grows.
Qed.

Lemma startDiscussionPhase_grows s0 c s :
  evolves scores_awarded s0 s →
  evolves scores_awarded s0 (startDiscussionPhase c s).
Proof.
  intros Hs. unfold startDiscussionPhase.
  destruct (game s c) as [[r g]|]; [|done].
  destruct (lobbies s !! c); [|done].
  destruct (_ || _); [by apply endGame_grows|].
  pose proof (getRandomImages_heap s) as Hh.
  destruct (getRandomImages s) as [selected s1]. cbn in Hh.
  assert (evolves scores_awarded s0 s1) by by apply (awarded_same _ s).
  case_match; [by apply endGame_grows|].
  cbv zeta. apply startTimer_grows. grows.
Qed.

Lemma nextRound_grows s0 c r s :
  evolves scores_awarded s0 s → evolves scores_awarded s0 (nextRound c r s).
Proof.
  intros Hs. unfold nextRound. repeat case_match; cbv zeta;
    try apply endGame_grows; grows.
Qed.

Lemma showScoreboard_grows s0 c s :
  evolves scores_awarded s0 s →
  evolves scores_awarded s0 (showScoreboard c s).
Proof.
  intros Hs. unfold showScoreboard. repeat case_match; cbv zeta; grows.
Qed.

Lemma tick_grows s0 c r k s :
  evolves scores_awarded s0 s → evolves scores_awarded s0 (tick c r k s).
Proof.
  intros Hs. unfold tick. repeat case_match; cbv zeta; [|grows..].
  destruct k; cbn [continue];
    [apply startVotingPhase_grows | apply calculateResults_grows]; grows.
Qed.

(** A timer callback changes the scores of a game object by awards only. *)
Lemma fire_grows h s : evolves scores_awarded s (fire h s).
Proof.
  pose proof (evolves_refl scores_awarded scores_awarded_refl s) as Hs.
  unfold fire. destruct (timers s !! h) as [p|]; [|done].
  cbv zeta. destruct (job p) as [c r k|d].
  - unfold reschedule. grows. apply tick_grows. grows.
  - destruct d; cbn [delayed];
      [apply startDiscussionPhase_grows | apply showScoreboard_grows
      | apply nextRound_grows]; grows.
Qed.

Lemma scores_kept_trans g1 g2 g3 :
  scores_kept g1 g2 → scores_kept g2 g3 → scores_kept g1 g3.
Proof. unfold scores_kept. congruence. Qed.

Lemma kept_mutate s0 r f s :
  (∀ g, scores_kept g (f g)) →
  evolves scores_kept s0 s → evolves scores_kept s0 (mutate r f s).
Proof. apply evolves_mutate, scores_kept_trans. Qed.

Lemma kept_same s0 s s' :
  heap s' = heap s → evolves scores_kept s0 s → evolves scores_kept s0 s'.
Proof. apply evolves_same. Qed.

Ltac keeps := evolution kept_mutate kept_same ltac:(intros ?; reflexivity).

(** A request that neither starts a cycle nor enrols a player leaves the
    scores of every game object as they are. *)
Lemma handle_keeps q s : resets q = false → evolves scores_kept s (handle q s).
Proof.
  intros Hq.
  assert (evolves scores_kept s s) as Hs
    by (apply evolves_refl; by intros ?).
  destruct q; try discriminate Hq; cbn [handle].
  - unfold api_lobby_create. repeat case_match; keeps.
  - unfold on_join_lobby. cbv zeta. repeat case_match; keeps.
  - unfold on_leave_lobby. repeat case_match; cbv zeta; keeps.
  - unfold on_cast_vote. repeat case_match; keeps.
  - unfold on_disconnect. cbv zeta. repeat case_match; keeps.
  - by apply (kept_same _ s); [apply sweep_heap|].
  - keeps.
Qed.

Lemma award_exact ws sc u :
  NoDup ws → "__proto__" ∉ ws →
  award ws sc !! u
  = if bool_decide (u ∈ ws) then Some (default 0 (sc !! u) + 1)%Z else sc !! u.
Proof.
  unfold award. revert sc. induction ws as [|w ws IH]; intros sc Hnd Hp; cbn.
  - done.
  - apply NoDup_cons in Hnd as [Hw Hnd].
    apply not_elem_of_cons in Hp as [Hpw Hp].
    unfold JS.set at 2. rewrite decide_False by done.
    rewrite IH by done. destruct (decide (u = w)) as [->|Hne].
    + rewrite bool_decide_eq_false_2 by done.
      rewrite bool_decide_eq_true_2 by apply list_elem_of_here.
      apply lookup_insert_eq.
    + rewrite lookup_insert_ne by done.
      destruct (decide (u ∈ ws)) as [Hin|Hin].
      * rewrite !bool_decide_eq_true_2; [done| |done].
        by apply list_elem_of_further.
      * rewrite !bool_decide_eq_false_2; [done| |done].
        intros [?|?]%elem_of_cons; done.
Qed.

Lemma ballots_cons p ps vs :
  ballots (p :: ps) vs
  = match (if connected p
           then match vs !! username p with
                | Some v => if complete v then Some (username p, v) else None
                | None => None
                end
           else None) with
    | Some b => b :: ballots ps vs
    | None => ballots ps vs
    end.
Proof. done. Qed.

Lemma ballots_voter ps vs u :
  u ∈ (ballots ps vs).*1 → u ∈ username <$> ps ∧ is_Some (vs !! u).
Proof.
  induction ps as [|p ps IH]; [by intros ?%elem_of_nil|].
  rewrite ballots_cons, fmap_cons.
  destruct (connected p); [destruct (vs !! username p) as [v|] eqn:Hv;
                           [destruct (complete v)|]|]; cbn;
    try (intros Hu; destruct (IH Hu); split; [by apply list_elem_of_further|done]).
  intros [->|Hu]%elem_of_cons.
  - split; [apply list_elem_of_here|by eexists].
  - destruct (IH Hu). split; [by apply list_elem_of_further|done].
Qed.

Lemma ballots_NoDup ps vs :
  NoDup (username <$> ps) → NoDup (ballots ps vs).*1.
Proof.
  induction ps as [|p ps IH]; [intros _; apply NoDup_nil_2|].
  rewrite ballots_cons, fmap_cons. intros [Hp Hnd]%NoDup_cons.
  destruct (connected p); [destruct (vs !! username p) as [v|];
                           [destruct (complete v)|]|]; cbn; try by apply IH.
  apply NoDup_cons. split; [|by apply IH].
  intros Hu. by apply ballots_voter in Hu as [? _].
Qed.

Lemma winners_voter m bs u : u ∈ winners m bs → u ∈ bs.*1.
Proof.
  unfold winners. intros ([u' v] & -> & Hb)%list_elem_of_fmap.
  apply list_elem_of_filter in Hb as [_ Hb].
  apply list_elem_of_fmap. by exists (u', v).
Qed.

Lemma winners_NoDup m bs : NoDup bs.*1 → NoDup (winners m bs).
Proof.
  unfold winners. induction bs as [|b bs IH]; [done|].
  rewrite fmap_cons. intros [Hb Hnd]%NoDup_cons. rewrite filter_cons.
  case_decide; [|by apply IH]. rewrite fmap_cons. apply NoDup_cons.
  split; [|by apply IH]. intros Hin. by apply winners_voter in Hin.
Qed.

Lemma zero_scores_values ps sc :
  (∀ u n, sc !! u = Some n → n = 0%Z) →
  ∀ u n, zero_scores ps sc !! u = Some n → n = 0%Z.
Proof.
  unfold zero_scores. revert sc. induction ps as [|p ps IH]; intros sc Hsc; cbn.
  - done.
  - apply IH. intros u n. unfold JS.set. case_decide; [by apply Hsc|].
    rewrite lookup_insert. case_decide; [by intros [= <-]|by apply Hsc].
Qed.

Lemma zero_scores_keeps ps sc u :
  sc !! u = Some 0%Z → zero_scores ps sc !! u = Some 0%Z.
Proof.
  unfold zero_scores. revert sc. induction ps as [|p ps IH]; intros sc Hu; cbn.
  - done.
  - apply IH. unfold JS.set. case_decide; [done|].
    rewrite lookup_insert. by case_decide.
Qed.

Lemma zero_scores_member ps sc p :
  p ∈ ps → username p ≠ "__proto__" →
  zero_scores ps sc !! username p = Some 0%Z.
Proof.
  revert sc. induction ps as [|q ps IH]; intros sc Hin Hp.
  - by apply elem_of_nil in Hin.
  - apply elem_of_cons in Hin as [<-|Hin].
    + cbn. apply (zero_scores_keeps ps). unfold JS.set.
      rewrite decide_False by done. apply lookup_insert_eq.
    + cbn. by apply (IH _ Hin).
Qed.

Lemma calculateResults_scores c s r g l :
  game s c = Some (r, g) → lobbies s !! c = Some l →
  NoDup (names l) → votes g !! "__proto__" = None →
  let bs := ballots (participants l) (votes g) in
  let ws := winners (majorityChoices bs (currentImages g)) bs in
  ∃ g', heap (calculateResults c s) !! r = Some g'
        ∧ ∀ u, scores g' !! u
               = if bool_decide (u ∈ ws)
                 then Some (default 0 (scores g !! u) + 1)%Z
                 else scores g !! u.
Proof.
  intros Hg Hl Hnd Hp bs ws. unfold calculateResults. rewrite Hg, Hl.
  cbv zeta. state_simpl. rewrite lookup_alter_eq, (game_heap _ _ _ _ Hg).
  cbn. eexists. split; [done|]. intros u. cbn. apply award_exact.
  - apply winners_NoDup. by apply ballots_NoDup.
  - intros Hin. apply winners_voter, ballots_voter in Hin as [_ [v Hv]].
    congruence.
Qed.

Lemma start_game_scores sock c u s l :
  lobbies s !! c = Some l → host l = u → 2 ≤ length (participants l) →
  3 ≤ length (gameImages s) →
  ∃ r g', game (on_start_game sock c u s) c = Some (r, g')
          ∧ (∀ v n, scores g' !! v = Some n → n = 0%Z)
          ∧ (∀ p, p ∈ participants l → username p ≠ "__proto__" →
                  scores g' !! username p = Some 0%Z).
Proof.
  intros Hl Hh Hn Hi. unfold on_start_game. rewrite Hl.
  rewrite bool_decide_eq_true_2 by done.
  destruct (Nat.leb_spec 2 (length (participants l))); [|lia].
  destruct (Nat.ltb_spec (length (gameImages s)) 3); [lia|].
  cbn [andb]. cbv zeta.
  exists (fresh s), (mkGameState "discussion" 1 30 [] ∅
                       (zero_scores (participants l) ∅) 60 None).
  split; [|split].
  - by apply (game_alloc s).
  - cbn. apply zero_scores_values. intros v n. by rewrite lookup_empty.
  - cbn. intros p Hp Hne. by apply zero_scores_member.
Qed.

Lemma restart_game_scores sock c s l r g :
  lobbies s !! c = Some l → game s c = Some (r, g) →
  (sockets s !! sock) ≫= fst = Some (host l) →
  3 ≤ length (gameImages s) →
  ∃ g', game (on_restart_game sock c s) c = Some (r, g')
        ∧ ∀ p, p ∈ participants l → username p ≠ "__proto__" →
               scores g' !! username p = Some 0%Z.
Proof.
  intros Hl Hg Hs Hi. unfold on_restart_game. rewrite Hl, Hg.
  rewrite bool_decide_eq_true_2 by done.
  destruct (Nat.ltb_spec (length (gameImages s)) 3); [lia|].
  cbv zeta. exists (restarted l g). split.
  - change (game (broadcast c (game_started l (restarted l g))
                    (clear_timer_of g (mutate r (restarted l) s))) c
            = Some (r, restarted l g)).
    rewrite game_broadcast, game_clear_timer_of. by apply game_mutate.
  - intros p Hp Hne. cbn. by apply zero_scores_member.
Qed.

Lemma join_scores c u s l r g :
  JS.truthy c = true → JS.truthy u = true → u ≠ "__proto__" →
  lobbies s !! c = Some l → u ∉ names l → game s c = Some (r, g) →
  ∃ g', game (api_lobby_join c u s) c = Some (r, g')
        ∧ scores g' !! u = Some 0%Z.
Proof.
  intros Hc Hu Hne Hl Hin Hg. unfold api_lobby_join. rewrite Hc, Hu, Hl.
  cbn [negb orb]. unfold member. rewrite bool_decide_eq_false_2 by done.
  cbv zeta.
  assert (game (with_lobbies s
                  (<[c := set_participants
                            (participants l ++ [mkParticipant u false true]) l]>
                     (lobbies s))) c = Some (r, g)) as -> by exact Hg.
  eexists. split.
  - change (game (emit ?e ?s) c) with (game s c). by apply game_mutate.
  - cbn. unfold JS.set. rewrite decide_False by done. apply lookup_insert_eq.
Qed.

(** ** What stays true of every game object *)

Lemma nonneg_set u n sc : (0 ≤ n)%Z → nonneg sc → nonneg (JS.set u n sc).
Proof.
  intros Hn Hsc u' n'. unfold JS.set. case_decide; [apply Hsc|].
  rewrite lookup_insert. case_decide; [by intros [= <-]|apply Hsc].
Qed.

Lemma nonneg_award ws sc : nonneg sc → nonneg (award ws sc).
Proof.
  unfold award. revert sc. induction ws as [|w ws IH]; intros sc Hsc; cbn;
    [done|].
  apply IH, nonneg_set; [|done].
  destruct (sc !! w) as [n|] eqn:Hw; cbn; [|lia].
  specialize (Hsc w n Hw). lia.
Qed.

Lemma nonneg_zero_scores ps sc : nonneg sc → nonneg (zero_scores ps sc).
Proof.
  unfold zero_scores. revert sc. induction ps as [|p ps IH]; intros sc Hsc;
    cbn; [done|].
  by apply IH, nonneg_set.
Qed.

Lemma heap_all_alter P f r s s' :
  heap s' = alter f r (heap s) → (∀ g, heap s !! r = Some g → P g → P (f g)) →
  heap_all P s → heap_all P s'.
Proof.
  intros Hh Hf Hs r' g'. rewrite Hh, lookup_alter.
  case_decide as Hr; [|by apply Hs]. subst r'.
  destruct (heap s !! r) as [g|] eqn:Hg; [|done].
  intros [= <-]. apply Hf; [done|]. by eapply Hs.
Qed.

Ltac tidy_field :=
  let Hv := fresh "Hv" in
  let Hsc := fresh "Hsc" in
  let Hr := fresh "Hr" in
  let Hi := fresh "Hi" in
  let Ht := fresh "Ht" in
  let Hu := fresh "Hu" in
  intros ? (Hv & Hsc & Hr & Hi & Ht & Hu); unfold tidy;
  split; [|split; [|split; [|split; [|split]]]]; cbn;
  [ first [ exact Hv
          | unfold votes_complete; cbn; intros ? ?; by rewrite lookup_empty ]
  | first [ exact Hsc | by apply nonneg_award | by apply nonneg_zero_scores
          | by apply nonneg_set ]
  | first [ exact Hr | lia ]
  | first [ exact Hi | by left | by right ]
  | first [ exact Ht | intros _; lia | intros ?; congruence ]
  | first [ exact Hu | lia ] ].

Ltac tidied :=
  repeat first
    [ assumption
    | apply heap_all_mutate; [ tidy_field | ]
    | match goal with
      | |- heap_all _ (clear_timer_of ?g ?s) =>
          apply (heap_all_same _ s); [apply heap_clear_timer_of|]
      | |- heap_all _ (?f ?x) =>
          apply (heap_all_same _ x (f x)); [reflexivity|]
      | |- heap_all _ (?f ?x ?v) =>
          apply (heap_all_same _ x (f x v)); [reflexivity|]
      end ].

Lemma endGame_tidy c s : heap_all tidy s → heap_all tidy (endGame c s).
Proof. intros Hs. unfold endGame. repeat case_match; tidied. Qed.

Lemma startTimer_heap c n k s r g :
  game s c = Some (r, g) →
  heap (startTimer c n k s)
  = alter (λ g, set_timerInterval (Some (fresh s)) (set_timer n g)) r (heap s).
Proof.
  intros Hg. unfold startTimer. rewrite Hg. cbv zeta. state_simpl.
  rewrite heap_clear_timer_of. state_simpl.
  assert (fresh (clear_timer_of g (mutate r (set_timer n) s)) = fresh s) as ->
    by (unfold clear_timer_of; by destruct (timerInterval g)).
  by rewrite alter_alter_eq.
Qed.

Lemma startTimer_tidy c n k s :
  (1 ≤ n ≤ 60)%Z → heap_all tidy s → heap_all tidy (startTimer c n k s).
Proof.
  intros Hn Hs. destruct (game s c) as [[r g]|] eqn:Hg.
  - eapply heap_all_alter; [apply (startTimer_heap c n k s r g Hg)| |done].
    intros g0 _. revert g0. tidy_field.
  - unfold startTimer. by rewrite Hg.
Qed.

Lemma calculateResults_tidy c s :
  heap_all tidy s → heap_all tidy (calculateResults c s).
Proof.
  intros Hs. unfold calculateResults. repeat case_match; cbv zeta; tidied.
Qed.

Lemma startVotingPhase_tidy c s :
  heap_all tidy s → heap_all tidy (startVotingPhase c s).
Proof.
  intros Hs. unfold startVotingPhase. repeat case_match; cbv zeta;
    try (apply startTimer_tidy; [lia|]); tidied.
Qed.

Lemma startDiscussionPhase_tidy c s :
  heap_all tidy s → heap_all tidy (startDiscussionPhase c s).
Proof.
  intros Hs. unfold startDiscussionPhase.
  destruct (game s c) as [[r g]|]; [|done].
  destruct (lobbies s !! c); [|done].
  destruct (_ || _); [by apply endGame_tidy|].
  unfold getRandomImages. cbv zeta.
  destruct (length (gameImages s) <? 3)%nat; cbn [length Nat.ltb Nat.leb];
    [by apply endGame_tidy|].
  apply startTimer_tidy; [lia|]. tidied.
Qed.

Lemma nextRound_tidy c r s :
  heap_all tidy s → heap_all tidy (nextRound c r s).
Proof.
  intros Hs. unfold nextRound. destruct (heap s !! r) as [g|] eqn:Hg; [|done].
  destruct (Hs r g Hg) as (_ & _ & Hr & _). cbv zeta.
  case_match; try apply endGame_tidy; tidied.
Qed.

Lemma showScoreboard_tidy c s :
  heap_all tidy s → heap_all tidy (showScoreboard c s).
Proof.
  intros Hs. unfold showScoreboard. repeat case_match; cbv zeta; tidied.
Qed.

Lemma tick_tidy c r k s : heap_all tidy s → heap_all tidy (tick c r k s).
Proof.
  intros Hs. unfold tick. destruct (heap s !! r) as [g|] eqn:Hg; [|done].
  cbv zeta. destruct (Hs r g Hg) as (_ & _ & _ & _ & _ & Hg60).
  destruct (Z.leb_spec (timer g - 1) 0) as [Hle|Hgt].
  - assert (heap_all tidy
              (mutate r (set_timerInterval None)
                 (clear_timer_of g
                    (broadcast c (game_timer (timer g - 1))
                       (mutate r (set_timer (timer g - 1)) s))))) as Hs'.
    { eapply (heap_all_alter _
                (λ g0, set_timerInterval None (set_timer (timer g - 1) g0)) r s);
        [|intros g0 _; revert g0; tidy_field|done].
      state_simpl. rewrite heap_clear_timer_of. state_simpl.
      by rewrite alter_alter_eq. }
    destruct k; cbn [continue];
      [by apply startVotingPhase_tidy | by apply calculateResults_tidy].
  - tidied.
Qed.

Lemma fire_tidy h s : heap_all tidy s → heap_all tidy (fire h s).
Proof.
  intros Hs. unfold fire. destruct (timers s !! h) as [p|]; [|done].
  cbv zeta. destruct (job p) as [c r k|d].
  - unfold reschedule. tidied. apply tick_tidy. tidied.
  - destruct d; cbn [delayed];
      [apply startDiscussionPhase_tidy | apply showScoreboard_tidy
      | apply nextRound_tidy]; tidied.
Qed.

Lemma handle_tidy q s : heap_all tidy s → heap_all tidy (handle q s).
Proof.
  intros Hs. destruct q; cbn [handle].
  - unfold api_lobby_create. repeat case_match; tidied.
  - unfold api_lobby_join. repeat case_match; cbv zeta;
      repeat case_match; tidied.
  - unfold on_join_lobby. cbv zeta. repeat case_match; tidied.
  - unfold on_leave_lobby. repeat case_match; cbv zeta; tidied.
  - unfold on_start_game. repeat case_match; cbv zeta; tidied.
    eapply heap_all_alloc; [reflexivity| |done].
    unfold tidy. cbn. split; [|split; [|split; [|split; [|split]]]].
    + intros ? ?. cbn. by rewrite lookup_empty.
    + apply nonneg_zero_scores. intros ? ?. by rewrite lookup_empty.
    + lia.
    + by left.
    + intros ?. congruence.
    + lia.
  - unfold on_cast_vote.
    destruct (game s c) as [[r g]|]; [|done].
    destruct (_ && _) eqn:Hok; [|done].
    destruct (complete v) eqn:Hc; [|done].
    apply andb_prop in Hok as [_ Hv]. apply negb_true_iff in Hv.
    unfold has_voted in Hv. apply orb_false_elim in Hv as [_ Hp].
    apply heap_all_mutate; [|done].
    intros g0 (Hv & Hrest). split; [|exact Hrest].
    intros u' v'. cbn. rewrite lookup_insert. case_decide.
    + subst u'. by intros [= <-].
    + apply Hv.
  - unfold on_restart_game. repeat case_match; cbv zeta; tidied.
  - unfold on_disconnect. cbv zeta. repeat case_match; tidied.
  - by apply (heap_all_same _ s); [apply sweep_heap|].
  - tidied.
Qed.

Lemma reachable_tidy s : reachable s → heap_all tidy s.
Proof.
  induction 1.
  - intros r g. cbn. by rewrite lookup_empty.
  - by apply handle_tidy.
  - by apply fire_tidy.
  - tidied.
Qed.

Lemma zero_scores_other ps sc u :
  u ∉ username <$> ps → zero_scores ps sc !! u = sc !! u.
Proof.
  unfold zero_scores. revert sc. induction ps as [|p ps IH]; intros sc Hu;
    cbn; [done|].
  rewrite fmap_cons in Hu. apply not_elem_of_cons in Hu as [Hne Hu].
  rewrite IH by done. unfold JS.set. case_decide; [done|].
  by rewrite lookup_insert_ne.
Qed.

Lemma zero_scores_proto ps sc :
  zero_scores ps sc !! "__proto__" = sc !! "__proto__".
Proof.
  unfold zero_scores. revert sc. induction ps as [|p ps IH]; intros sc; cbn;
    [done|].
  rewrite IH. unfold JS.set. case_decide; [done|].
  by rewrite lookup_insert_ne.
Qed.

(** [forEach(p => scores[p.username] = 0)], key by key. *)
Lemma zero_scores_exact ps sc v :
  zero_scores ps sc !! v
  = if bool_decide (v ∈ username <$> ps ∧ v ≠ "__proto__") then Some 0%Z
    else sc !! v.
Proof.
  case_bool_decide as Hv.
  - destruct Hv as [Hin Hne].
    apply list_elem_of_fmap in Hin as (p & -> & Hp).
    by apply zero_scores_member.
  - destruct (decide (v = "__proto__")) as [->|Hne];
      [apply zero_scores_proto|].
    apply zero_scores_other. tauto.
Qed.

Lemma game_registered s c r g :
  game s c = Some (r, g) → gameStates s !! c = Some r.
Proof.
  unfold game. destruct (gameStates s !! c) as [r'|]; [|done]. cbn.
  destruct (heap s !! r') as [g'|]; [|done]. cbn. by intros [= <- _].
Qed.

(** *** Which callbacks change scores *)

Lemma endGame_kept s0 c s :
  evolves scores_kept s0 s → evolves scores_kept s0 (endGame c s).
Proof. intros Hs. unfold endGame. repeat case_match; keeps. Qed.

Lemma startTimer_kept s0 c n k s :
  evolves scores_kept s0 s → evolves scores_kept s0 (startTimer c n k s).
Proof. intros Hs. unfold startTimer. repeat case_match; cbv zeta; keeps. Qed.

Lemma startVotingPhase_kept s0 c s :
  evolves scores_kept s0 s → evolves scores_kept s0 (startVotingPhase c s).
Proof.
  intros Hs. unfold startVotingPhase. repeat case_match; cbv zeta;
    try apply startTimer_kept; keeps.
Qed.

Lemma startDiscussionPhase_kept s0 c s :
  evolves scores_kept s0 s → evolves scores_kept s0 (startDiscussionPhase c s).
Proof.
  intros Hs. unfold startDiscussionPhase.
  destruct (game s c) as [[r g]|]; [|done].
  destruct (lobbies s !! c); [|done].
  destruct (_ || _); [by apply endGame_kept|].
  pose proof (getRandomImages_heap s) as Hh.
  destruct (getRandomImages s) as [selected s1]. cbn in Hh.
  assert (evolves scores_kept s0 s1) by by apply (kept_same _ s).
  case_match; [by apply endGame_kept|].
  cbv zeta. apply startTimer_kept. keeps.
Qed.

Lemma nextRound_kept s0 c r s :
  evolves scores_kept s0 s → evolves scores_kept s0 (nextRound c r s).
Proof.
  intros Hs. unfold nextRound. repeat case_match; cbv zeta;
    try apply endGame_kept; keeps.
Qed.

Lemma showScoreboard_kept s0 c s :
  evolves scores_kept s0 s → evolves scores_kept s0 (showScoreboard c s).
Proof.
  intros Hs. unfold showScoreboard. repeat case_match; cbv zeta; keeps.
Qed.

(** [calculateResults] changes the scores of the registered object of
    the room, by the award to the winners of its round, and no other. *)
Lemma calculateResults_exact c s r g :
  heap s !! r = Some g →
  ∃ g', heap (calculateResults c s) !! r = Some g'
        ∧ (scores g' = scores g
           ∨ ∃ l, gameStates s !! c = Some r ∧ lobbies s !! c = Some l
                  ∧ let bs := ballots (participants l) (votes g) in
                    let ws := winners (majorityChoices bs (currentImages g))
                                bs in
                    scores g' = award ws (scores g)).
Proof.
  intros Hg. unfold calculateResults.
  destruct (game s c) as [[r1 g1]|] eqn:Hg1; [|by eauto].
  destruct (lobbies s !! c) as [l|] eqn:Hl; [|by eauto].
  cbv zeta. state_simpl. rewrite lookup_alter. case_decide as Hr.
  - subst r1. rewrite Hg. cbn. eexists. split; [done|]. right.
    exists l. split; [by eapply game_registered|]. split; [done|].
    apply game_heap in Hg1. assert (g1 = g) as -> by congruence. done.
  - eauto.
Qed.

Lemma tick_scores c r0 k s r g :
  heap s !! r = Some g →
  ∃ g', heap (tick c r0 k s) !! r = Some g'
        ∧ (scores g' = scores g
           ∨ ∃ l, k = ToResults ∧ gameStates s !! c = Some r
                  ∧ lobbies s !! c = Some l
                  ∧ let bs := ballots (participants l) (votes g) in
                    let ws := winners (majorityChoices bs (currentImages g))
                                bs in
                    scores g' = award ws (scores g)).
Proof.
  intros Hg. unfold tick. destruct (heap s !! r0) as [g0|] eqn:Hg0; [|by eauto].
  cbv zeta. destruct (timer g0 - 1 <=? 0)%Z.
  - set (s2 := mutate r0 (set_timerInterval None)
                 (clear_timer_of g0
                    (broadcast c (game_timer (timer g0 - 1))
                       (mutate r0 (set_timer (timer g0 - 1)) s)))).
    assert (gameStates s2 = gameStates s ∧ lobbies s2 = lobbies s)
      as [Hgs Hls]
      by (unfold s2, clear_timer_of; by destruct (timerInterval g0)).
    assert (∃ g2, heap s2 !! r = Some g2
                  ∧ (scores g2, votes g2, currentImages g2)
                    = (scores g, votes g, currentImages g))
      as (g2 & Hg2 & [= Hsc Hv Hi]).
    { unfold s2. state_simpl. rewrite heap_clear_timer_of. state_simpl.
      rewrite alter_alter_eq, lookup_alter. case_decide as Hr.
      - subst r0. rewrite Hg. cbn. eauto.
      - eauto. }
    clearbody s2. destruct k; cbn [continue].
    + assert (evolves scores_kept s2 (startVotingPhase c s2)) as Hk.
      { apply startVotingPhase_kept, evolves_refl. by intros ?. }
      destruct (Hk r g2 Hg2) as (g' & Hg' & Hk').
      exists g'. split; [done|]. left. unfold scores_kept in Hk'. congruence.
    + destruct (calculateResults_exact c s2 r g2 Hg2) as (g' & Hg' & Hcase).
      exists g'. split; [done|]. destruct Hcase as [Hk'|(l & Hr & Hl & Ha)].
      * left. congruence.
      * right. exists l. rewrite Hgs in Hr. rewrite Hls in Hl.
        cbv zeta in *. rewrite Hsc, Hv, Hi in Ha. done.
  - state_simpl. rewrite lookup_alter. case_decide as Hr.
    + subst r0. rewrite Hg. cbn. eauto.
    + eauto.
Qed.

(** A timer callback changes a score only when it is the tick that ends
    a voting countdown, and then by the award of that round. *)
Lemma fire_scores h s r g :
  heap s !! r = Some g →
  ∃ g', heap (fire h s) !! r = Some g'
        ∧ (scores g' = scores g
           ∨ ∃ p c r0 l,
               timers s !! h = Some p ∧ job p = Tick c r0 ToResults
               ∧ gameStates s !! c = Some r ∧ lobbies s !! c = Some l
               ∧ let bs := ballots (participants l) (votes g) in
                 let ws := winners (majorityChoices bs (currentImages g))
                             bs in
                 scores g' = award ws (scores g)).
Proof.
  intros Hg. unfold fire. destruct (timers s !! h) as [p|] eqn:Hp; [|by eauto].
  cbv zeta. destruct (job p) as [c r0 k|d] eqn:Hj.
  - destruct (tick_scores c r0 k (with_now s (due p)) r g Hg)
      as (g' & Hg' & Hcase).
    exists g'. split; [exact Hg'|].
    destruct Hcase as [Hk|(l & -> & Hr & Hl & Ha)]; [by left|].
    right. by exists p, c, r0, l.
  - assert (evolves scores_kept s
              (with_timers (with_now s (due p))
                 (delete h (timers (with_now s (due p)))))) as Hs.
    { apply (kept_same _ s); [done|]. apply evolves_refl. by intros ?. }
    assert (evolves scores_kept s
              (delayed d
                 (with_timers (with_now s (due p))
                    (delete h (timers (with_now s (due p))))))) as Hk.
    { destruct d; cbn [delayed];
        [by apply startDiscussionPhase_kept | by apply showScoreboard_kept
        | by apply nextRound_kept]. }
    destruct (Hk r g Hg) as (g' & Hg' & Hk'). eauto.
Qed.

(** *** Which requests change scores *)

Lemma start_game_kept sock c u s :
  (∀ r g, heap s !! r = Some g → r < fresh s) →
  evolves scores_kept s (on_start_game sock c u s).
Proof.
  intros Hfresh r g Hg. exists g. split; [|done].
  specialize (Hfresh r g Hg). unfold on_start_game.
  repeat case_match; try done. cbv zeta. state_simpl.
  rewrite lookup_insert_ne by lia. done.
Qed.

Lemma start_game_exact sock c u s l :
  lobbies s !! c = Some l → host l = u → 2 ≤ length (participants l) →
  3 ≤ length (gameImages s) →
  ∃ g', game (on_start_game sock c u s) c = Some (fresh s, g')
        ∧ ∀ v, scores g' !! v
               = if bool_decide (v ∈ names l ∧ v ≠ "__proto__")
                 then Some 0%Z else None.
Proof.
  intros Hl Hh Hn Hi. unfold on_start_game. rewrite Hl.
  rewrite bool_decide_eq_true_2 by done.
  destruct (Nat.leb_spec 2 (length (participants l))); [|lia].
  destruct (Nat.ltb_spec (length (gameImages s)) 3); [lia|].
  cbn [andb]. cbv zeta.
  exists (mkGameState "discussion" 1 30 [] ∅
            (zero_scores (participants l) ∅) 60 None).
  split; [by apply (game_alloc s)|].
  intros v. cbn. rewrite zero_scores_exact. by rewrite lookup_empty.
Qed.

Lemma restart_game_exact sock c s r g :
  heap s !! r = Some g →
  ∃ g', heap (on_restart_game sock c s) !! r = Some g'
        ∧ (scores g' = scores g
           ∨ ∃ l, lobbies s !! c = Some l ∧ gameStates s !! c = Some r
                  ∧ (sockets s !! sock) ≫= fst = Some (host l)
                  ∧ ∀ v, scores g' !! v
                         = if bool_decide (v ∈ names l ∧ v ≠ "__proto__")
                           then Some 0%Z else scores g !! v).
Proof.
  intros Hg. unfold on_restart_game.
  destruct (lobbies s !! c) as [l|] eqn:Hl; [|by eauto].
  destruct (game s c) as [[r1 g1]|] eqn:Hg1; [|by eauto].
  case_bool_decide as Hs; [|by eauto].
  destruct (length (gameImages s) <? 3)%nat; [by eauto|].
  cbv zeta. state_simpl.
  assert (heap (clear_timer_of g1 (mutate r1 (restarted l) s))
          = alter (restarted l) r1 (heap s)) as ->
    by (by rewrite heap_clear_timer_of).
  rewrite lookup_alter. case_decide as Hr; [|by eauto].
  subst r1. rewrite Hg. cbn. eexists. split; [done|]. right.
  exists l. split; [done|]. split; [by eapply game_registered|].
  split; [done|]. intros v. cbn. apply zero_scores_exact.
Qed.

Lemma join_exact c u s r g :
  heap s !! r = Some g →
  ∃ g', heap (api_lobby_join c u s) !! r = Some g'
        ∧ (scores g' = scores g
           ∨ ∃ l, lobbies s !! c = Some l ∧ (u ∉ names l)
                  ∧ gameStates s !! c = Some r
                  ∧ ∀ v, scores g' !! v
                         = if bool_decide (v = u ∧ u ≠ "__proto__")
                           then Some 0%Z else scores g !! v).
Proof.
  intros Hg. unfold api_lobby_join.
  destruct (_ || _); [by eauto|].
  destruct (lobbies s !! c) as [l|] eqn:Hl; [|by eauto].
  unfold member. case_bool_decide as Hin; [by eauto|].
  cbv zeta.
  change (game (with_lobbies s ?v) c) with (game s c).
  destruct (game s c) as [[r1 g1]|] eqn:Hg1; [|by eauto].
  state_simpl. rewrite lookup_alter. case_decide as Hr; [|by eauto].
  subst r1. rewrite Hg. cbn. eexists. split; [done|]. right.
  exists l. split; [done|]. split; [done|].
  split; [by eapply game_registered|].
  intros v. cbn. unfold JS.set. case_bool_decide as Hv.
  - destruct Hv as [-> Hne]. rewrite decide_False by done.
    apply lookup_insert_eq.
  - case_decide as Hp; [done|]. rewrite lookup_insert_ne; [done|].
    intros <-. tauto.
Qed.

(** C8 (as stated, refuted).  "cy" earned a point in round one and left
    between the rounds.  A restart at that moment keeps the recorded
    score 1 of "cy"; and when "cy" comes back through the join route, with
    no start or restart in between, the score of "cy" drops from 1 to 0. *)
Lemma recorded_score_survives_restart_and_drops_on_join :
  let s := Scenario.outcome Scenario.cy_leaves 104000 in
  let score (s : State) (u : string) :=
    game s Scenario.room ≫= λ g, scores g.2 !! u in
  score s "cy" = Some 1%Z
  ∧ score (on_restart_game 1 Scenario.room s) "cy" = Some 1%Z
  ∧ score (api_lobby_join Scenario.room "cy" s) "cy" = Some 0%Z.
Proof. repeat split; vm_compute; reflexivity. Qed.

(** C8 (amended).  A timer callback changes the scores of a game object
    by awards of one point only, so no recorded score is lowered or
    dropped; a request other than start-game, restart-game and the join
    route changes no score.  More exactly, in a reachable state the only
    callback that changes a score is the tick that ends a voting
    countdown, and it changes the scores of the registered game object of
    its room only: [calculateResults] adds exactly one point to each
    winner of the round and leaves every other score as it is.
    Start-game leaves the scores of the existing game objects alone and
    registers a new object in which every participant has the score 0
    and nobody else has a score.  Restart-game changes the scores of the
    registered object only: the score of every current participant
    becomes 0 and every other recorded score stays.  The join route
    changes the scores of the registered object only, and of these only
    the score of the player it enrols, which becomes 0; when the player
    is on the roster already it changes no score.  (A name [__proto__]
    never gets a score: the assignment is swallowed.) *)
Theorem scores_grow_between_resets c :
  (∀ h s, evolves scores_awarded s (fire h s))
  ∧ (∀ g g', scores_awarded g g' → scores_le g g')
  ∧ (∀ q s, resets q = false → evolves scores_kept s (handle q s))
  ∧ (∀ s r g l,
       game s c = Some (r, g) → lobbies s !! c = Some l →
       NoDup (names l) → votes g !! "__proto__" = None →
       let bs := ballots (participants l) (votes g) in
       let ws := winners (majorityChoices bs (currentImages g)) bs in
       ∃ g', heap (calculateResults c s) !! r = Some g'
             ∧ ∀ u, scores g' !! u
                    = if bool_decide (u ∈ ws)
                      then Some (default 0 (scores g !! u) + 1)%Z
                      else scores g !! u)
  ∧ (∀ sock u s l,
       lobbies s !! c = Some l → host l = u →
       2 ≤ length (participants l) → 3 ≤ length (gameImages s) →
       ∃ r g', game (on_start_game sock c u s) c = Some (r, g')
               ∧ (∀ v n, scores g' !! v = Some n → n = 0%Z)
               ∧ (∀ p, p ∈ participants l → username p ≠ "__proto__" →
                       scores g' !! username p = Some 0%Z))
  ∧ (∀ sock s l r g,
       lobbies s !! c = Some l → game s c = Some (r, g) →
       (sockets s !! sock) ≫= fst = Some (host l) →
       3 ≤ length (gameImages s) →
       ∃ g', game (on_restart_game sock c s) c = Some (r, g')
             ∧ ∀ p, p ∈ participants l → username p ≠ "__proto__" →
                    scores g' !! username p = Some 0%Z)
  ∧ (∀ u s l r g,
       JS.truthy c = true → JS.truthy u = true → u ≠ "__proto__" →
       lobbies s !! c = Some l → u ∉ names l → game s c = Some (r, g) →
       ∃ g', game (api_lobby_join c u s) c = Some (r, g')
             ∧ scores g' !! u = Some 0%Z)
  ∧ (∀ h s r g,
       reachable s → heap s !! r = Some g →
       ∃ g', heap (fire h s) !! r = Some g'
             ∧ (scores g' = scores g
                ∨ ∃ p c' r0 l,
                    timers s !! h = Some p ∧ job p = Tick c' r0 ToResults
                    ∧ gameStates s !! c' = Some r ∧ lobbies s !! c' = Some l
                    ∧ let bs := ballots (participants l) (votes g) in
                      let ws := winners (majorityChoices bs (currentImages g))
                                  bs in
                      ∀ u, scores g' !! u
                           = if bool_decide (u ∈ ws)
                             then Some (default 0 (scores g !! u) + 1)%Z
                             else scores g !! u))
  ∧ (∀ sock u s,
       reachable s → evolves scores_kept s (on_start_game sock c u s))
  ∧ (∀ sock u s l,
       lobbies s !! c = Some l → host l = u →
       2 ≤ length (participants l) → 3 ≤ length (gameImages s) →
       ∃ g', game (on_start_game sock c u s) c = Some (fresh s, g')
             ∧ ∀ v, scores g' !! v
                    = if bool_decide (v ∈ names l ∧ v ≠ "__proto__")
                      then Some 0%Z else None)
  ∧ (∀ sock s r g,
       heap s !! r = Some g →
       ∃ g', heap (on_restart_game sock c s) !! r = Some g'
             ∧ (scores g' = scores g
                ∨ ∃ l, lobbies s !! c = Some l ∧ gameStates s !! c = Some r
                       ∧ (sockets s !! sock) ≫= fst = Some (host l)
                       ∧ ∀ v, scores g' !! v
                              = if bool_decide (v ∈ names l ∧ v ≠ "__proto__")
                                then Some 0%Z else scores g !! v))
  ∧ (∀ u s r g,
       heap s !! r = Some g →
       ∃ g', heap (api_lobby_join c u s) !! r = Some g'
             ∧ (scores g' = scores g
                ∨ ∃ l, lobbies s !! c = Some l ∧ (u ∉ names l)
                       ∧ gameStates s !! c = Some r
                       ∧ ∀ v, scores g' !! v
                              = if bool_decide (v = u ∧ u ≠ "__proto__")
                                then Some 0%Z else scores g !! v)).
Proof.
  split; [|split; [|split; [|split; [|split; [|split; [|split; [|split;
    [|split; [|split; [|split]]]]]]]]]].
  - apply fire_grows.
  - apply scores_awarded_le.
  - apply handle_keeps.
  - intros s r g l. apply calculateResults_scores.
  - intros sock u s l. apply start_game_scores.
  - intros sock s l r g. apply restart_game_scores.
  - intros u s l r g. apply join_scores.
  - intros h s r g Hs Hg.
    destruct (fire_scores h s r g Hg) as (g' & Hg' & Hcase).
    exists g'. split; [exact Hg'|].
    destruct Hcase as [Hk|(p & c' & r0 & l & Hp & Hj & Hr & Hl & Ha)];
      [by left|].
    right. exists p, c', r0, l. repeat (split; [done|]).
    cbv zeta in *. intros u. rewrite Ha.
    destruct (reachable_rosters s Hs c' l Hl) as [_ Hnd].
    destruct (reachable_tidy s Hs r g Hg) as (Hv & _).
    apply award_exact.
    + by apply winners_NoDup, ballots_NoDup.
    + intros Hin. apply winners_voter, ballots_voter in Hin as [_ [v Hin]].
      by destruct (Hv _ _ Hin).
  - intros sock u s Hs. apply start_game_kept.
    by destruct (reachable_registered s Hs).
  - intros sock u s l. apply start_game_exact.
  - intros sock s r g. apply restart_game_exact.
  - intros u s r g. apply join_exact.
Qed.

Lemma scores_grow_between_resets_witness :
  let s := Scenario.outcome Scenario.all_agree 92500 in
  let s' := fire 3 s in
  let l := mkLobby Scenario.room "al"
             [mkParticipant "al" true true; mkParticipant "bo" false true;
              mkParticipant "cy" false true] 0 true in
  let g := object_at 0 s in
  let bs := ballots (participants l) (votes g) in
  let ws := winners (majorityChoices bs (currentImages g)) bs in
  (job <$> timers s !! 3 = Some (Tick Scenario.room 0 ToResults)
   ∧ ws = ["al"; "bo"; "cy"]
   ∧ scores g !! "al" = Some 0%Z
   ∧ scores (object_at 0 s') !! "al" = Some 1%Z)
  ∧ ∃ g', heap s' !! 0 = Some g'
          ∧ ∀ u, scores g' !! u
                 = if bool_decide (u ∈ ws)
                   then Some (default 0 (scores g !! u) + 1)%Z
                   else scores g !! u.
Proof.
  intros s s' l g bs ws.
  assert (heap s !! 0 = Some g) as Hg by (vm_compute; reflexivity).
  assert (lobbies s !! Scenario.room = Some l) as Hl
    by (vm_compute; reflexivity).
  assert (scores g !! "al" = Some 0%Z
          ∧ scores (object_at 0 s') !! "al" = Some 1%Z) as [H0 H1]
    by (split; vm_compute; reflexivity).
  split; [repeat split; try exact H0; try exact H1; vm_compute; reflexivity|].
  destruct (scores_grow_between_resets Scenario.room)
    as (_ & _ & _ & _ & _ & _ & _ & Hfire & _).
  destruct (Hfire 3 s 0 g (outcome_reachable _ _) Hg) as (g' & Hg' & Hcase).
  exists g'. split; [exact Hg'|].
  destruct Hcase as [Hk|(p & c' & r0 & l' & Hp & Hj & Hr & Hl' & Ha)].
  - exfalso. assert (object_at 0 s' = g') as Heq
      by (unfold object_at, s'; by rewrite Hg').
    rewrite Heq, Hk, H0 in H1. discriminate H1.
  - assert (c' = Scenario.room) as ->.
    { assert (job <$> timers s !! 3 = Some (Tick Scenario.room 0 ToResults))
        as Hj3 by (vm_compute; reflexivity).
      rewrite Hp in Hj3. cbn in Hj3. congruence. }
    assert (l' = l) as -> by congruence. exact Ha.
Defined.

(** ** The tally *)

Lemma elem_of_firsts x ks : x ∈ firsts ks ↔ x ∈ ks.
Proof.
  induction ks as [|k ks IH]; [done|]. cbn.
  rewrite !elem_of_cons, list_elem_of_filter, IH.
  destruct (decide (x = k)); tauto.
Qed.

Lemma filter_all {A} (P : A → Prop) `{∀ x, Decision (P x)} (l : list A) :
  (∀ x, P x) → filter P l = l.
Proof.
  intros HP. induction l as [|a l IH]; [done|].
  by rewrite filter_cons_True, IH.
Qed.

Lemma firsts_app a b :
  firsts (a ++ b) = firsts a ++ filter (λ y, y ∉ a) (firsts b).
Proof.
  induction a as [|h a IH]; cbn.
  - symmetry. apply filter_all. intros x. apply not_elem_of_nil.
  - f_equal. rewrite IH, filter_app. f_equal.
    rewrite list_filter_filter. apply list_filter_iff.
    intros x. rewrite not_elem_of_cons. tauto.
Qed.

Lemma firsts_snoc ks k :
  firsts (ks ++ [k]) = if decide (k ∈ ks) then firsts ks else firsts ks ++ [k].
Proof.
  rewrite firsts_app. cbn.
  destruct (decide (k ∉ ks)); destruct (decide (k ∈ ks)); try done.
  by rewrite app_nil_r.
Qed.

Lemma firsts_NoDup ks : NoDup (firsts ks).
Proof.
  induction ks as [|k ks IH]; cbn; [apply NoDup_nil_2|].
  apply NoDup_cons. split.
  - intros [Hne _]%list_elem_of_filter. by apply Hne.
  - by apply NoDup_filter.
Qed.

Lemma tallied_nonneg x ks : (0 ≤ tallied x ks)%Z.
Proof. unfold tallied. lia. Qed.

Lemma tallied_snoc x ks k :
  tallied x (ks ++ [k]) = (tallied x ks + if decide (k = x) then 1 else 0)%Z.
Proof.
  unfold tallied. rewrite filter_app, length_app, filter_cons, filter_nil.
  case_decide; cbn; lia.
Qed.

Lemma tallied_pos x ks : x ∈ ks → (0 < tallied x ks)%Z.
Proof.
  intros Hin. unfold tallied.
  assert (x ∈ filter (λ y, y = x) ks) as Hf by by apply list_elem_of_filter.
  destruct (filter (λ y, y = x) ks); [by apply elem_of_nil in Hf|cbn; lia].
Qed.

Lemma tallied_zero x ks : x ∉ ks → tallied x ks = 0%Z.
Proof.
  intros Hin. unfold tallied.
  destruct (filter (λ y, y = x) ks) as [|y l] eqn:Hf; [done|].
  assert (y ∈ filter (λ y, y = x) ks) as Hy by (rewrite Hf; apply list_elem_of_here).
  apply list_elem_of_filter in Hy as [-> Hy]. done.
Qed.

Lemma own_map (f : string → JS.cell) k l :
  JS.own k (map (λ x, (x, f x)) l) = if decide (k ∈ l) then Some (f k) else None.
Proof.
  induction l as [|a l IH]; cbn; [done|].
  destruct (decide (k = a)) as [->|Hne].
  - by rewrite decide_True by apply list_elem_of_here.
  - rewrite IH. destruct (decide (k ∈ l)).
    + by rewrite decide_True by by apply list_elem_of_further.
    + rewrite decide_False; [done|]. intros [?|?]%elem_of_cons; done.
Qed.

Lemma update_map (f : string → JS.cell) k c l :
  NoDup l →
  JS.update k c (map (λ x, (x, f x)) l)
  = map (λ x, (x, if decide (x = k) then c else f x)) l.
Proof.
  induction l as [|a l IH]; cbn; [done|]. intros [Ha Hnd]%NoDup_cons.
  destruct (decide (k = a)) as [->|Hne].
  - rewrite decide_True by done. f_equal. apply map_ext_in.
    intros x Hx%list_elem_of_In. rewrite decide_False; [done|].
    by intros ->.
  - rewrite decide_False by done. f_equal. by apply IH.
Qed.

Lemma create_append k c o :
  JS.array_index k = None → JS.create k c o = o ++ [(k, c)].
Proof.
  intros Hk. induction o as [|[k' c'] o IH]; cbn; [done|].
  rewrite Hk. by rewrite IH.
Qed.

Lemma proto_key_proto : JS.proto_key "__proto__" = true.
Proof. vm_compute. reflexivity. Qed.

Lemma assign_ordinary k c o :
  k ≠ "__proto__" →
  JS.assign k c o = match JS.own k o with
                    | Some _ => JS.update k c o
                    | None => JS.create k c o
                    end.
Proof. intros Hne. unfold JS.assign. by rewrite decide_False. Qed.

Lemma incr_entries ks k :
  ordinary k → JS.incr k (entries ks) = entries (ks ++ [k]).
Proof.
  intros [Hidx Hproto].
  assert (k ≠ "__proto__") as Hne.
  { intros ->. rewrite proto_key_proto in Hproto. discriminate. }
  unfold JS.incr, entries. rewrite own_map, firsts_snoc, Hproto.
  destruct (decide (k ∈ ks)) as [Hin|Hin].
  - rewrite decide_True by by apply elem_of_firsts.
    pose proof (tallied_pos k ks Hin).
    destruct (Z.eqb_spec (tallied k ks) 0); [lia|].
    rewrite assign_ordinary, own_map by done.
    rewrite decide_True by by apply elem_of_firsts.
    rewrite update_map by apply firsts_NoDup.
    apply map_ext. intros x. f_equal. rewrite tallied_snoc.
    destruct (decide (x = k)) as [->|Hx].
    + rewrite decide_True by done. done.
    + rewrite decide_False by (by intros ->). f_equal. lia.
  - rewrite decide_False by by rewrite elem_of_firsts.
    rewrite assign_ordinary, own_map by done.
    rewrite decide_False by by rewrite elem_of_firsts.
    rewrite create_append by done. rewrite map_app. cbn. f_equal.
    + apply map_ext_in. intros x Hx%list_elem_of_In.
      apply (proj1 (elem_of_firsts x ks)) in Hx. f_equal. f_equal. rewrite tallied_snoc. rewrite decide_False; [lia|].
      intros Heq. apply Hin. by rewrite Heq.
    + rewrite tallied_snoc, tallied_zero, decide_True by done. done.
Qed.

(** Counting leaves one entry per distinct choice, in the order of first
    appearance, holding the number of ballots for it. *)
Lemma categoryVotes_entries ks :
  Forall ordinary ks → categoryVotes ks = entries ks.
Proof.
  induction ks as [|k ks IH] using rev_ind; [done|].
  intros [Hks Hk]%Forall_app. apply Forall_inv in Hk.
  unfold categoryVotes in *.
  rewrite fold_left_app. cbn. rewrite IH by done. by apply incr_entries.
Qed.

Section Scan.

Variable f : string → Z.

Lemma scan_keeps l acc :
  (∀ y, y ∈ l → (f y ≤ acc.1)%Z) →
  fold_left scan_entry (map (λ x, (x, JS.Count (f x))) l) acc = acc.
Proof.
  induction l as [|a l IH]; intros Hl; cbn [map fold_left]; [done|].
  unfold scan_entry at 2. cbn [fst snd].
  destruct (Z.ltb_spec acc.1 (f a)) as [Hlt|_].
  - specialize (Hl a (list_elem_of_here _ _)). lia.
  - apply IH. intros y Hy. apply Hl. by apply list_elem_of_further.
Qed.

Lemma scan_below l acc M :
  (∀ y, y ∈ l → (f y < M)%Z) → (acc.1 < M)%Z →
  ((fold_left scan_entry (map (λ x, (x, JS.Count (f x))) l) acc).1 < M)%Z.
Proof.
  revert acc. induction l as [|a l IH]; intros acc Hl Hacc;
    cbn [map fold_left]; [done|].
  apply IH.
  - intros y Hy. apply Hl. by apply list_elem_of_further.
  - unfold scan_entry. cbn [fst snd].
    destruct (Z.ltb_spec acc.1 (f a)); cbn [fst snd]; [|done].
    apply Hl, list_elem_of_here.
Qed.

Lemma scan_first pre x post acc :
  (∀ y, y ∈ pre → (f y < f x)%Z) → (acc.1 < f x)%Z →
  (∀ y, y ∈ post → (f y ≤ f x)%Z) →
  fold_left scan_entry (map (λ x, (x, JS.Count (f x))) (pre ++ x :: post)) acc
  = (f x, Some x).
Proof.
  intros Hpre Hacc Hpost. rewrite map_app, fold_left_app.
  cbn [map fold_left].
  pose proof (scan_below pre acc (f x) Hpre Hacc) as Hlt.
  unfold scan_entry at 2. cbn [fst snd].
  destruct (Z.ltb_spec
              (fold_left scan_entry (map (λ x, (x, JS.Count (f x))) pre) acc).1
              (f x)); [|lia].
  by apply scan_keeps.
Qed.

End Scan.

Lemma majorityImage_first ks imgs pre x post :
  Forall ordinary ks → ks = pre ++ x :: post → x ∉ pre → JS.truthy x = true →
  (∀ y, y ∈ pre → (tallied y ks < tallied x ks)%Z) →
  (∀ y, y ∈ post → (tallied y ks ≤ tallied x ks)%Z) →
  majorityImage ks imgs = Some x.
Proof.
  intros Hord Hks Hx Htr Hpre Hpost. unfold majorityImage.
  rewrite categoryVotes_entries by done. unfold entries, scan.
  assert (firsts ks
          = firsts pre
              ++ x :: filter (λ y, y ∉ pre) (filter (λ y, y ≠ x) (firsts post)))
    as ->.
  { rewrite Hks, firsts_app. cbn [firsts]. by rewrite filter_cons_True. }
  rewrite (scan_first (λ y, tallied y ks)).
  - cbn. by rewrite Htr.
  - intros y Hy. apply Hpre. by apply elem_of_firsts.
  - cbn. apply tallied_pos. rewrite Hks, elem_of_app, elem_of_cons. tauto.
  - intros y Hy. apply Hpost.
    apply list_elem_of_filter in Hy as [_ Hy].
    apply list_elem_of_filter in Hy as [_ Hy]. by apply elem_of_firsts.
Qed.

Lemma majorityImage_none imgs : majorityImage [] imgs = head imgs.
Proof. unfold majorityImage. cbn. by destruct imgs. Qed.

Lemma ballots_recorded ps vs u v :
  (u, v) ∈ ballots ps vs →
  vs !! u = Some v ∧ complete v = true
  ∧ ∃ p, p ∈ ps ∧ username p = u ∧ connected p = true.
Proof.
  unfold ballots. intros (p & Hp & Hb)%list_elem_of_omap.
  destruct (connected p) eqn:Hc; [|done].
  destruct (vs !! username p) as [v'|] eqn:Hv; [|done].
  destruct (complete v') eqn:Hcv; [|done].
  injection Hb as <- <-. eauto 10.
Qed.

Lemma validVoters_in_roster_order ps vs :
  validVoters ps vs `sublist_of` (username <$> ps).
Proof.
  unfold validVoters. induction ps as [|p ps IH]; [done|].
  rewrite ballots_cons, fmap_cons.
  destruct (connected p); [destruct (vs !! username p) as [v|];
                           [destruct (complete v)|]|]; cbn;
    try (by apply sublist_cons).
  by apply sublist_skip.
Qed.

Lemma picks_truthy ps vs cat m_cat x :
  (cat, m_cat) ∈ categories → x ∈ picks cat (ballots ps vs) →
  JS.truthy x = true.
Proof.
  intros Hcat Hx. unfold picks in Hx.
  apply list_elem_of_In, in_map_iff in Hx as ([u v] & <- & Hb).
  apply list_elem_of_In, ballots_recorded in Hb as (_ & Hc & _).
  unfold complete in Hc. apply andb_prop in Hc as [Hc H3].
  apply andb_prop in Hc as [H1 H2]. unfold categories in Hcat.
  repeat (apply elem_of_cons in Hcat as [[= -> ->]|Hcat]; [done|]).
  by apply elem_of_nil in Hcat.
Qed.

Lemma majorityChoices_field bs imgs cat m_cat :
  (cat, m_cat) ∈ categories →
  m_cat (majorityChoices bs imgs) = majorityImage (picks cat bs) imgs.
Proof.
  intros Hcat. unfold categories in Hcat.
  repeat (apply elem_of_cons in Hcat as [[= -> ->]|Hcat]; [done|]).
  by apply elem_of_nil in Hcat.
Qed.

Lemma calculateResults_emits c s r g l :
  game s c = Some (r, g) → lobbies s !! c = Some l →
  let bs := ballots (participants l) (votes g) in
  let m := majorityChoices bs (currentImages g) in
  emitted (calculateResults c s)
  = emitted s
      ++ [to_room c (game_phase_update "results" None);
          to_room c (round_results m (length (winners m bs)) (length bs)
                       (winners m bs))].
Proof.
  intros Hg Hl bs m. unfold calculateResults. rewrite Hg, Hl. cbv zeta.
  state_simpl. by rewrite <- app_assoc.
Qed.

(** ** The order in which votes arrive *)

Lemma on_cast_vote_unfold c u v s r g :
  game s c = Some (r, g) →
  on_cast_vote c u v s = if accepts g u v then mutate r (record u v) s else s.
Proof.
  intros Hg. unfold on_cast_vote, accepts. rewrite Hg.
  destruct (bool_decide _), (has_voted _ _), (complete v); reflexivity.
Qed.

Lemma accepts_record g u v u' v' :
  u ≠ u' → accepts (record u' v' g) u v = accepts g u v.
Proof.
  intros Hne. unfold accepts, has_voted, record. cbn.
  by rewrite lookup_insert_ne.
Qed.

Lemma mutate_commute r f1 f2 s :
  (∀ g, f1 (f2 g) = f2 (f1 g)) →
  mutate r f1 (mutate r f2 s) = mutate r f2 (mutate r f1 s).
Proof.
  intros Hf. unfold mutate, with_heap. state_simpl. f_equal.
  apply map_eq. intros i.
  destruct (decide (r = i)) as [->|Hne].
  - rewrite !lookup_alter_eq. destruct (heap s !! i); cbn; [|done].
    by rewrite Hf.
  - by rewrite !lookup_alter_ne.
Qed.

Lemma cast_vote_commute c u1 v1 u2 v2 s :
  u1 ≠ u2 →
  on_cast_vote c u1 v1 (on_cast_vote c u2 v2 s)
  = on_cast_vote c u2 v2 (on_cast_vote c u1 v1 s).
Proof.
  intros Hne. destruct (game s c) as [[r g]|] eqn:Hg.
  - rewrite (on_cast_vote_unfold c u2 v2 s r g Hg).
    rewrite (on_cast_vote_unfold c u1 v1 s r g Hg).
    destruct (accepts g u2 v2) eqn:H2, (accepts g u1 v1) eqn:H1.
    + rewrite (on_cast_vote_unfold c u1 v1 _ r _ (game_mutate _ _ _ _ _ Hg)).
      rewrite (on_cast_vote_unfold c u2 v2 _ r _ (game_mutate _ _ _ _ _ Hg)).
      rewrite !accepts_record, H1, H2 by done.
      apply mutate_commute. intros g0. unfold record, set_votes. cbn.
      f_equal. by apply insert_insert_ne.
    + rewrite (on_cast_vote_unfold c u1 v1 _ r _ (game_mutate _ _ _ _ _ Hg)).
      rewrite (on_cast_vote_unfold c u2 v2 s r g Hg).
      by rewrite accepts_record, H1, H2.
    + rewrite (on_cast_vote_unfold c u1 v1 s r g Hg).
      rewrite (on_cast_vote_unfold c u2 v2 _ r _ (game_mutate _ _ _ _ _ Hg)).
      by rewrite accepts_record, H1, H2.
    + rewrite (on_cast_vote_unfold c u1 v1 s r g Hg).
      rewrite (on_cast_vote_unfold c u2 v2 s r g Hg).
      by rewrite H1, H2.
  - unfold on_cast_vote. by rewrite !Hg.
Qed.

Lemma first_maximum (f : string → Z) l :
  l ≠ [] →
  ∃ pre x post, l = pre ++ x :: post
                ∧ (∀ y, y ∈ pre → (f y < f x)%Z)
                ∧ (∀ y, y ∈ post → (f y ≤ f x)%Z).
Proof.
  induction l as [|a l IH]; [done|]. intros _.
  destruct l as [|b l].
  - exists [], a, []. repeat split; by intros y ?%elem_of_nil.
  - destruct IH as (pre & x & post & Hl & Hpre & Hpost); [done|].
    destruct (Z.lt_ge_cases (f a) (f x)) as [Hlt|Hge].
    + exists (a :: pre), x, post. rewrite Hl. repeat split; [|done].
      intros y [->|Hy]%elem_of_cons; [done|by apply Hpre].
    + exists [], a, (b :: l). repeat split; [by intros y ?%elem_of_nil|].
      rewrite Hl. intros y [Hy|[->|Hy]%elem_of_cons]%elem_of_app.
      * specialize (Hpre y Hy). lia.
      * done.
      * specialize (Hpost y Hy). lia.
Qed.

(** The ballots are those of the counted participants, all of them, in
    roster order. *)
Lemma ballots_counted ps vs :
  ballots ps vs
  = omap (λ p, (λ v, (username p, v)) <$> vs !! username p)
      (filter (counted vs) ps).
Proof.
  induction ps as [|p ps IH]; [done|].
  rewrite ballots_cons, filter_cons, IH.
  destruct (decide (counted vs p)) as [[Hc (v & Hv & Hcv)]|Hno].
  - rewrite Hc, Hv, Hcv. cbn. by rewrite Hv.
  - destruct (connected p) eqn:Hc; [|done].
    destruct (vs !! username p) as [v|] eqn:Hv; [|done].
    destruct (complete v) eqn:Hcv; [|done].
    destruct Hno. split; [exact Hc|eauto].
Qed.

Lemma fmap_fmap_fst (ps : list Participant) (vs : gmap string Vote) :
  (omap (λ p, (λ v, (username p, v)) <$> vs !! username p)
     (filter (counted vs) ps)).*1
  = username <$> filter (counted vs) ps.
Proof.
  induction ps as [|p ps IH]; [done|].
  rewrite filter_cons. case_decide as Hp; [|exact IH].
  destruct Hp as [_ (v & Hv & _)]. cbn. rewrite Hv. cbn. by rewrite IH.
Qed.

Lemma picks_counted (ps : list Participant) (vs : gmap string Vote)
    (cat : Vote → string) :
  map (λ b : string * Vote, cat b.2)
    (omap (λ p, (λ v, (username p, v)) <$> vs !! username p)
       (filter (counted vs) ps))
  = omap (λ p, cat <$> vs !! username p) (filter (counted vs) ps).
Proof.
  induction (filter (counted vs) ps) as [|p l IH]; [done|].
  cbn. destruct (vs !! username p); cbn; by rewrite IH.
Qed.

Lemma ballots_complete ps vs u v :
  (∃ p, p ∈ ps ∧ username p = u ∧ connected p = true
        ∧ vs !! u = Some v ∧ complete v = true) →
  (u, v) ∈ ballots ps vs.
Proof.
  intros (p & Hp & <- & Hc & Hv & Hcv). unfold ballots.
  apply list_elem_of_omap. exists p. split; [done|].
  by rewrite Hc, Hv, Hcv.
Qed.

Lemma ballots_lookups ps vs vs' :
  (∀ p, p ∈ ps → vs !! username p = vs' !! username p) →
  ballots ps vs = ballots ps vs'.
Proof.
  induction ps as [|p ps IH]; intros Hsame; [done|].
  rewrite !ballots_cons, (Hsame p) by apply list_elem_of_here.
  rewrite IH; [done|]. intros q Hq. by apply Hsame, list_elem_of_further.
Qed.

Lemma cast_votes_perm c arrived arrived' s :
  NoDup arrived.*1 → arrived ≡ₚ arrived' →
  cast_votes c arrived s = cast_votes c arrived' s.
Proof.
  intros Hnd Hperm. revert s Hnd. unfold cast_votes.
  induction Hperm as [|b l l' _ IH|b1 b2 l|l1 l2 l3 H12 IH12 _ IH23];
    intros s Hnd.
  - done.
  - cbn [fold_left]. apply IH.
    rewrite fmap_cons in Hnd. by apply NoDup_cons in Hnd as [_ ?].
  - cbn [fold_left]. rewrite cast_vote_commute; [done|].
    rewrite !fmap_cons in Hnd. apply NoDup_cons in Hnd as [Hne _].
    intros Heq. apply Hne. rewrite Heq. apply list_elem_of_here.
  - rewrite IH12 by done. apply IH23. by rewrite <- H12.
Qed.

(** C1 (as stated, refuted).  "bo" votes before "al"; in the shoot
    category each image has one vote.  The broadcast majority is the
    choice of "al", who comes first on the roster; counted in the order of
    arrival, the first image met would be the choice of "bo". *)
Lemma tie_goes_to_roster_order_not_arrival_order :
  let s := Scenario.outcome Scenario.bo_votes_first 94000 in
  let arrived := [("bo", Scenario.bac); ("al", Scenario.abc)] in
  let roster := [mkParticipant "al" true true; mkParticipant "bo" false true] in
  let sent := mkMajority (Some "/images/a.jpg") (Some "/images/b.jpg")
                (Some "/images/c.jpg") in
  participants <$> lobbies s !! Scenario.room = Some roster
  ∧ last (emitted s)
    = Some (to_room Scenario.room (round_results sent 1 2 ["al"]))
  ∧ majorityChoices_in_arrival_order arrived roster Scenario.pool
    = mkMajority (Some "/images/b.jpg") (Some "/images/a.jpg")
        (Some "/images/c.jpg")
  ∧ sent ≠ majorityChoices_in_arrival_order arrived roster Scenario.pool.
Proof.
  intros s arrived roster sent.
  assert (majorityChoices_in_arrival_order arrived roster Scenario.pool
          = mkMajority (Some "/images/b.jpg") (Some "/images/a.jpg")
              (Some "/images/c.jpg")) as Hspec by (vm_compute; reflexivity).
  split; [vm_compute; reflexivity|]. split; [vm_compute; reflexivity|].
  split; [exact Hspec|]. rewrite Hspec. discriminate.
Qed.

(** C1 (amended).  [calculateResults] broadcasts the majority computed
    from the ballots of the connected participants with a complete vote,
    all of them and no others, taken in roster order (the order of
    [lobby.participants]).  For identifiers that an object literal keeps
    as plain string keys, the majority of a category is the image whose
    first ballot comes first in that order among the images with the
    highest count, and such an image exists whenever there is a ballot;
    without ballots it is the first drawn image.  The tally reads the
    recorded votes through the usernames of the roster only, and the
    votes of different players cast in another order leave the same
    state, so a replay of the same votes gives the same majorities. *)
Theorem majority_follows_roster_order :
  (∀ c s r g l,
     game s c = Some (r, g) → lobbies s !! c = Some l →
     let bs := ballots (participants l) (votes g) in
     let m := majorityChoices bs (currentImages g) in
     emitted (calculateResults c s)
     = emitted s
         ++ [to_room c (game_phase_update "results" None);
             to_room c (round_results m (length (winners m bs)) (length bs)
                          (winners m bs))])
  ∧ (∀ ps vs, validVoters ps vs `sublist_of` (username <$> ps))
  ∧ (∀ ps vs u v,
       (u, v) ∈ ballots ps vs →
       vs !! u = Some v ∧ complete v = true
       ∧ ∃ p, p ∈ ps ∧ username p = u ∧ connected p = true)
  ∧ (∀ ps vs imgs cat m_cat pre x post,
       (cat, m_cat) ∈ categories →
       let ks := picks cat (ballots ps vs) in
       Forall ordinary ks → ks = pre ++ x :: post → x ∉ pre →
       (∀ y, y ∈ pre → (tallied y ks < tallied x ks)%Z) →
       (∀ y, y ∈ post → (tallied y ks ≤ tallied x ks)%Z) →
       m_cat (majorityChoices (ballots ps vs) imgs) = Some x)
  ∧ (∀ ps vs imgs cat m_cat,
       (cat, m_cat) ∈ categories →
       let ks := picks cat (ballots ps vs) in
       Forall ordinary ks → ks ≠ [] →
       ∃ pre x post,
         ks = pre ++ x :: post ∧ (x ∉ pre)
         ∧ (∀ y, y ∈ pre → (tallied y ks < tallied x ks)%Z)
         ∧ (∀ y, y ∈ post → (tallied y ks ≤ tallied x ks)%Z)
         ∧ m_cat (majorityChoices (ballots ps vs) imgs) = Some x)
  ∧ (∀ ps vs imgs cat m_cat,
       (cat, m_cat) ∈ categories → ballots ps vs = [] →
       m_cat (majorityChoices (ballots ps vs) imgs) = head imgs)
  ∧ (∀ c u1 v1 u2 v2 s,
       u1 ≠ u2 →
       on_cast_vote c u1 v1 (on_cast_vote c u2 v2 s)
       = on_cast_vote c u2 v2 (on_cast_vote c u1 v1 s))
  ∧ (∀ ps vs, validVoters ps vs = username <$> filter (counted vs) ps)
  ∧ (∀ ps vs u v,
       (u, v) ∈ ballots ps vs
       ↔ ∃ p, p ∈ ps ∧ username p = u ∧ connected p = true
              ∧ vs !! u = Some v ∧ complete v = true)
  ∧ (∀ ps vs cat,
       picks cat (ballots ps vs)
       = omap (λ p, cat <$> vs !! username p) (filter (counted vs) ps))
  ∧ (∀ ps vs vs',
       (∀ p, p ∈ ps → vs !! username p = vs' !! username p) →
       ballots ps vs = ballots ps vs')
  ∧ (∀ c s arrived arrived',
       NoDup arrived.*1 → arrived ≡ₚ arrived' →
       cast_votes c arrived s = cast_votes c arrived' s).
Proof.
  assert (∀ ps vs imgs cat m_cat pre x post,
            (cat, m_cat) ∈ categories →
            let ks := picks cat (ballots ps vs) in
            Forall ordinary ks → ks = pre ++ x :: post → x ∉ pre →
            (∀ y, y ∈ pre → (tallied y ks < tallied x ks)%Z) →
            (∀ y, y ∈ post → (tallied y ks ≤ tallied x ks)%Z) →
            m_cat (majorityChoices (ballots ps vs) imgs) = Some x) as Hfirst.
  { intros ps vs imgs cat m_cat pre x post Hcat ks Hord Hks Hx Hpre Hpost.
    rewrite (majorityChoices_field _ _ cat) by done.
    apply (majorityImage_first _ _ pre x post); try done.
    apply (picks_truthy ps vs cat m_cat); [done|]. fold ks.
    rewrite Hks, elem_of_app, elem_of_cons. tauto. }
  split; [|split; [|split; [|split; [|split; [|split; [|split; [|split;
    [|split; [|split; [|split]]]]]]]]]].
  - intros c s r g l. apply calculateResults_emits.
  - apply validVoters_in_roster_order.
  - apply ballots_recorded.
  - exact Hfirst.
  - intros ps vs imgs cat m_cat Hcat ks Hord Hne.
    destruct (first_maximum (λ y, tallied y ks) ks Hne)
      as (pre & x & post & Hks & Hpre & Hpost).
    assert (x ∉ pre) as Hx.
    { intros Hin. specialize (Hpre x Hin). cbn in Hpre. lia. }
    exists pre, x, post. repeat split; try done.
    by apply (Hfirst ps vs imgs cat m_cat pre x post).
  - intros ps vs imgs cat m_cat Hcat Hb.
    rewrite (majorityChoices_field _ _ cat), Hb by done.
    apply majorityImage_none.
  - apply cast_vote_commute.
  - intros ps vs. unfold validVoters. by rewrite ballots_counted, fmap_fmap_fst.
  - intros ps vs u v. split; [|apply ballots_complete].
    intros Hb. apply ballots_recorded in Hb as (Hv & Hc & p & Hp & Hu & Hcn).
    eauto 10.
  - intros ps vs cat. unfold picks. rewrite ballots_counted.
    apply picks_counted.
  - apply ballots_lookups.
  - intros c s arrived arrived' Hnd Hperm. by apply cast_votes_perm.
Qed.

Lemma majority_follows_roster_order_witness :
  let ps := [mkParticipant "al" true true; mkParticipant "bo" false true;
             mkParticipant "cy" false false] in
  let vs : gmap string Vote :=
    <["cy" := Scenario.abc]>
      (<["al" := Scenario.bac]> (<["bo" := Scenario.abc]> ∅)) in
  validVoters ps vs = ["al"; "bo"]
  ∧ picks shoot (ballots ps vs) = ["/images/b.jpg"; "/images/a.jpg"]
  ∧ head Scenario.pool = Some "/images/a.jpg"
  ∧ m_shoot (majorityChoices (ballots ps vs) Scenario.pool)
    = Some "/images/b.jpg".
Proof.
  intros ps vs.
  destruct majority_follows_roster_order
    as (_ & _ & _ & H & _ & _ & _ & Hvoters & _ & Hpicks & _).
  assert (filter (counted vs) ps
          = [mkParticipant "al" true true; mkParticipant "bo" false true])
    as Hf by (vm_compute; reflexivity).
  assert (picks shoot (ballots ps vs) = ["/images/b.jpg"; "/images/a.jpg"])
    as Hp by (rewrite Hpicks, Hf; vm_compute; reflexivity).
  split; [rewrite Hvoters, Hf; reflexivity|]. split; [exact Hp|].
  split; [reflexivity|].
  apply (H ps vs Scenario.pool shoot m_shoot [] "/images/b.jpg"
           ["/images/a.jpg"]).
  - apply list_elem_of_here.
  - rewrite Hp.
    repeat (constructor; [split; vm_compute; reflexivity|]). constructor.
  - exact Hp.
  - apply not_elem_of_nil.
  - intros y Hy. by apply elem_of_nil in Hy.
  - intros y Hy. apply list_elem_of_singleton in Hy as ->.
    rewrite Hp. vm_compute. discriminate.
Defined.

(** ** Identifiers that are not plain string keys *)

(** An identifier that reads as an array index is enumerated before the
    others, whatever the order of the ballots... *)
Example array_index_keys_come_first :
  majorityImage ["/images/a.jpg"; "7"] [] = Some "7".
Proof. vm_compute. reflexivity. Qed.

(** ... and a member of [Object.prototype] is never counted. *)
Example prototype_names_are_not_counted :
  majorityImage ["toString"; "toString"; "/images/a.jpg"] []
  = Some "/images/a.jpg".
Proof. vm_compute. reflexivity. Qed.

(** * Further properties of the code *)

(** ** The image pool *)

Lemma images_prefix_ordinary file : ordinary ("/images/" +:+ file).
Proof.
  split; [reflexivity|]. unfold JS.proto_key. apply bool_decide_eq_false_2.
  intros Hin. cbn in Hin.
  repeat (apply elem_of_cons in Hin as [Heq|Hin]; [discriminate Heq|]).
  by apply elem_of_nil in Hin.
Qed.

(** X1.  The directory scan of [loadImages] keeps the directory entries
    whose lower-cased extension is one of the five image extensions, in
    directory order, and names each one [/images/<entry>]; every
    identifier it yields is therefore a plain string key of an object
    literal (no array index, no member of [Object.prototype]).  When the
    directory cannot be read the pool is empty. *)
Theorem scanned_images_are_plain_keys
    (extname toLowerCase : string → string) (files : list string) :
  let found := scanImages extname toLowerCase (Some files) in
  (∀ k, k ∈ found ↔
        ∃ file, file ∈ files
                ∧ toLowerCase (extname file) ∈ image_extensions
                ∧ k = "/images/" +:+ file)
  ∧ found `sublist_of` ((λ file, "/images/" +:+ file) <$> files)
  ∧ Forall ordinary found
  ∧ scanImages extname toLowerCase None = []
  ∧ ∀ s, gameImages (loadImages found s) = found.
Proof.
  intros found. subst found. unfold scanImages.
  split; [|split; [|split; [|split]]].
  - intros k. rewrite list_elem_of_fmap. split.
    + intros (file & -> & Hin). exists file.
      apply list_elem_of_In, filter_In in Hin as [Hin Himg].
      unfold is_image in Himg. apply bool_decide_eq_true_1 in Himg.
      split; [by apply list_elem_of_In|done].
    + intros (file & Hin & Hext & ->). exists file. split; [done|].
      apply list_elem_of_In, filter_In. split; [by apply list_elem_of_In|].
      unfold is_image. by apply bool_decide_eq_true_2.
  - induction files as [|file files IH]; [done|]. cbn [List.filter].
    destruct (is_image extname toLowerCase file); rewrite !fmap_cons.
    + by apply sublist_skip.
    + by apply sublist_cons.
  - apply Forall_forall. intros k (file & -> & _)%list_elem_of_fmap.
    apply images_prefix_ordinary.
  - done.
  - done.
Qed.

(** X2.  [getRandomImages] yields nothing and draws nothing when the pool
    has fewer than three images; otherwise it yields exactly three
    images, each one a member of the pool (repetitions allowed), and
    consumes three draws of [Math.random]. *)
Theorem random_images_come_from_the_pool s :
  (length (gameImages s) < 3 → getRandomImages s = ([], s))
  ∧ (3 ≤ length (gameImages s) →
     ∃ a b c,
       getRandomImages s = ([a; b; c], with_draws s (draws s + 3))
       ∧ a ∈ gameImages s ∧ b ∈ gameImages s ∧ c ∈ gameImages s).
Proof.
  unfold getRandomImages. split; intros Hn.
  - by destruct (Nat.ltb_spec (length (gameImages s)) 3); [|lia].
  - destruct (Nat.ltb_spec (length (gameImages s)) 3); [lia|].
    assert (∀ i, default "" (gameImages s
                               !! (random s (draws s + i)
                                   mod length (gameImages s)))
                 ∈ gameImages s) as Hpick.
    { intros i.
      destruct (lookup_lt_is_Some_2 (gameImages s)
                  (random s (draws s + i) mod length (gameImages s)))
        as [x Hx].
      - apply Nat.mod_upper_bound. lia.
      - rewrite Hx. cbn. by eapply list_elem_of_lookup_2. }
    do 3 eexists. split; [reflexivity|]. repeat split; apply Hpick.
Qed.

(** ** Lobby codes *)

Lemma base36_code_char d : code_char (base36 d) = true.
Proof.
  unfold base36, code_char. cbv zeta.
  pose proof (Nat.mod_upper_bound d 36 ltac:(lia)) as Hd.
  destruct (Nat.ltb_spec (d mod 36) 10).
  - rewrite nat_ascii_embedding by lia.
    destruct (Nat.leb_spec 48 (48 + d mod 36)); [|lia].
    destruct (Nat.leb_spec (48 + d mod 36) 57); [done|lia].
  - rewrite nat_ascii_embedding by lia.
    destruct (Nat.leb_spec 65 (55 + d mod 36)); [|lia].
    destruct (Nat.leb_spec (55 + d mod 36) 90); [|lia].
    by rewrite orb_true_r.
Qed.

Lemma length_string_of_list_ascii l :
  String.length (string_of_list_ascii l) = length l.
Proof. induction l as [|a l IH]; cbn; [done|]. by rewrite IH. Qed.

(** X3.  A lobby code has as many characters as the draw has base-36
    digits, six at most, and each one is a digit or an upper-case letter;
    the draw without digits gives the empty code. *)
Theorem lobby_code_shape fraction :
  String.length (generateLobbyCode fraction) = min 6 (length fraction)
  ∧ Forall (λ a, code_char a = true)
      (list_ascii_of_string (generateLobbyCode fraction))
  ∧ generateLobbyCode [] = "".
Proof.
  unfold generateLobbyCode. split; [|split; [|done]].
  - by rewrite length_string_of_list_ascii, length_fmap, length_take.
  - rewrite list_ascii_of_string_of_list_ascii. apply Forall_fmap.
    apply Forall_forall. intros d _. apply base36_code_char.
Qed.

(** ** Requests that the HTTP routes refuse *)

Lemma truthy_empty s : JS.truthy s = false ↔ s = "".
Proof. destruct s; cbn; split; congruence. Qed.

(** X4.  The create route answers 400 exactly to the usernames of
    fewer than two UTF-16 code units ([username.length < 2], which
    includes the empty one), and then changes nothing else: no lobby is
    created.  The length is not the number of bytes: the one-letter name
    [é] is refused, the two-letter name [éa] is served. *)
Theorem create_refuses_short_usernames u fraction s :
  JS.length u < 2 →
  api_lobby_create u fraction s = emit (http 400 None false) s
  ∧ lobbies (api_lobby_create u fraction s) = lobbies s
  ∧ ∀ u', 2 ≤ JS.length u' →
          api_lobby_create u' fraction s ≠ emit (http 400 None false) s.
Proof.
  intros Hu. unfold api_lobby_create.
  destruct (Nat.ltb_spec (JS.length u) 2); [|lia].
  rewrite orb_true_r. split; [done|]. split; [done|].
  intros u' Hu'.
  assert (JS.truthy u' = true) as -> by (destruct u'; [cbn in Hu'; lia | done]).
  destruct (Nat.ltb_spec (JS.length u') 2); [lia|]. cbn [negb orb].
  intros Heq. apply (f_equal emitted) in Heq. state_simpl.
  apply app_inv_head in Heq. discriminate Heq.
Qed.

Lemma create_refuses_short_usernames_witness :
  let s := Scenario.outcome (Scenario.two_players 0) 100 in
  (String.length "é" = 2 ∧ JS.length "é" = 1 ∧ JS.length "éa" = 2)
  ∧ api_lobby_create "é" [1; 2; 3] s = emit (http 400 None false) s
  ∧ lobbies (api_lobby_create "é" [1; 2; 3] s) = lobbies s
  ∧ ∀ u', 2 ≤ JS.length u' →
          api_lobby_create u' [1; 2; 3] s ≠ emit (http 400 None false) s.
Proof.
  intros s. split; [repeat split; vm_compute; reflexivity|].
  apply (create_refuses_short_usernames "é" [1; 2; 3] s).
  vm_compute. lia.
Defined.

(** X5.  The join route answers 400 when the code or the username is
    empty and 404 when no lobby has the code; in both cases the response
    is the only effect.  A lobby stored under the empty code can therefore
    not be joined. *)
Theorem join_refusals c u s :
  (c = "" ∨ u = "" → api_lobby_join c u s = emit (http 400 None false) s)
  ∧ (c ≠ "" → u ≠ "" → lobbies s !! c = None →
     api_lobby_join c u s = emit (http 404 None false) s).
Proof.
  unfold api_lobby_join. split.
  - intros [-> | ->]; [done|]. by rewrite orb_true_r.
  - intros Hc Hu Hl.
    destruct (JS.truthy c) eqn:Hc'; [|by apply truthy_empty in Hc'].
    destruct (JS.truthy u) eqn:Hu'; [|by apply truthy_empty in Hu'].
    cbn [negb orb]. by rewrite Hl.
Qed.

(** ** Who is on a roster *)

(** X6.  The join route never removes anybody and adds at most the
    joiner: the names of the lobby afterwards are the names before,
    followed by the joiner unless already there; host, code, creation
    time and the [gameStarted] flag stay, and so does every other
    lobby. *)
Theorem join_adds_at_most_the_joiner c u s l :
  c ≠ "" → u ≠ "" → lobbies s !! c = Some l →
  ∃ l', lobbies (api_lobby_join c u s) !! c = Some l'
        ∧ names l' = (if decide (u ∈ names l) then names l
                      else names l ++ [u])
        ∧ (host l', code l', createdAt l', gameStarted l')
          = (host l, code l, createdAt l, gameStarted l)
        ∧ last (emitted (api_lobby_join c u s))
          = Some (http 200 (Some l') (bool_decide (u ∈ names l)))
        ∧ ∀ c', c' ≠ c → lobbies (api_lobby_join c u s) !! c' = lobbies s !! c'.
Proof.
  intros Hc Hu Hl. unfold api_lobby_join.
  destruct (JS.truthy c) eqn:Hc'; [|by apply truthy_empty in Hc'].
  destruct (JS.truthy u) eqn:Hu'; [|by apply truthy_empty in Hu'].
  cbn [negb orb]. rewrite Hl. unfold member, names.
  destruct (decide (u ∈ username <$> participants l)) as [Hin|Hin].
  - rewrite !bool_decide_eq_true_2 by done. eexists. state_simpl.
    rewrite lookup_insert_eq. split; [done|]. cbn.
    rewrite mark_names, last_snoc. repeat split; try done.
    intros c' Hne. by rewrite lookup_insert_ne.
  - rewrite !bool_decide_eq_false_2 by done. cbv zeta. eexists.
    assert (∀ s0 : State,
              lobbies (match game s0 c with
                       | Some (r, _) =>
                           mutate r (λ g, set_scores (JS.set u 0%Z (scores g)) g) s0
                       | None => s0
                       end) = lobbies s0) as Hkeep
      by (intros s0; by destruct (game s0 c) as [[? ?]|]).
    state_simpl. rewrite Hkeep. state_simpl. rewrite lookup_insert_eq.
    split; [done|]. cbn. rewrite fmap_app, last_snoc.
    repeat split; try done.
    intros c' Hne. by rewrite lookup_insert_ne.
Qed.

Lemma join_adds_at_most_the_joiner_witness :
  let s := Scenario.outcome (Scenario.two_players 0) 100 in
  ∃ l', lobbies (api_lobby_join Scenario.room "cy" s) !! Scenario.room = Some l'
        ∧ names l' = ["al"; "bo"; "cy"].
Proof.
  intros s.
  destruct (join_adds_at_most_the_joiner Scenario.room "cy" s
              (mkLobby Scenario.room "al"
                 [mkParticipant "al" true true; mkParticipant "bo" false true]
                 0 false))
    as (l' & Hl' & Hn & _); [discriminate | discriminate
                             | vm_compute; reflexivity |].
  exists l'. split; [exact Hl'|]. rewrite Hn. vm_compute. reflexivity.
Defined.

(** X7.  The [join-lobby] event records username and code on the socket
    and never changes who is on a roster: every lobby keeps its names,
    its host and its flags, no lobby appears or disappears, and the
    roster is broadcast exactly when the lobby exists. *)
Theorem join_lobby_event_keeps_rosters sock c u s :
  let s' := on_join_lobby sock c u s in
  sockets s' !! sock = Some (Some u, Some c)
  ∧ (∀ c', match lobbies s !! c', lobbies s' !! c' with
           | Some l, Some l' =>
               names l' = names l ∧ isHost <$> participants l' = isHost <$> participants l
               ∧ (host l', code l', createdAt l', gameStarted l')
                 = (host l, code l, createdAt l, gameStarted l)
           | None, None => True
           | _, _ => False
           end)
  ∧ emitted s'
    = emitted s ++ match lobbies s' !! c with
                   | Some l' => [to_room c (lobby_updated l')]
                   | None => []
                   end.
Proof.
  unfold on_join_lobby. cbv zeta.
  change (lobbies (with_sockets s ?v)) with (lobbies s).
  destruct (lobbies s !! c) as [l|] eqn:Hl; state_simpl.
  - split; [apply lookup_insert_eq|]. split.
    + intros c'. destruct (decide (c = c')) as [<-|Hne].
      * rewrite Hl, lookup_insert_eq. unfold names. cbn.
        by rewrite mark_names, mark_hosts.
      * rewrite lookup_insert_ne by done. by destruct (lobbies s !! c').
    + by rewrite lookup_insert_eq.
  - split; [apply lookup_insert_eq|]. split.
    + intros c'. by destruct (lobbies s !! c').
    + by rewrite Hl, app_nil_r.
Qed.

(** X8.  In every reachable state, every lobby has at most one
    participant flagged as host and no username occurs twice on its
    roster. *)
Theorem rosters_stay_well_formed s c l :
  reachable s → lobbies s !! c = Some l →
  length (filter (λ p, isHost p = true) (participants l)) ≤ 1
  ∧ NoDup (username <$> participants l).
Proof.
  intros Hs Hl. destruct (reachable_rosters s Hs c l Hl) as [Hh Hn].
  split; [|exact Hn].
  assert (∀ ps : list Participant,
            length (filter (λ p, isHost p = true) ps)
            = length (filter (λ b, b = true) (isHost <$> ps))) as ->; [|done].
  induction ps as [|p ps IH]; [done|].
  rewrite fmap_cons, !filter_cons.
  destruct (decide (isHost p = true)); cbn [length]; by rewrite IH.
Qed.

Lemma rosters_stay_well_formed_witness :
  let s := Scenario.outcome Scenario.cy_leaves 104000 in
  let l := mkLobby Scenario.room "al"
             [mkParticipant "al" true true; mkParticipant "bo" false true]
             0 true in
  length (filter (λ p, isHost p = true) (participants l)) ≤ 1
  ∧ NoDup (username <$> participants l).
Proof.
  intros s l.
  apply (rosters_stay_well_formed s Scenario.room l);
    [apply outcome_reachable | vm_compute; reflexivity].
Defined.

(** ** Games and their lobbies *)

Lemma housed_same s s' :
  lobbies s' = lobbies s → gameStates s' = gameStates s →
  games_have_lobbies s → games_have_lobbies s'.
Proof. unfold games_have_lobbies. by intros -> ->. Qed.

Lemma housed_store c l s :
  games_have_lobbies s → games_have_lobbies (store c l s).
Proof.
  intros Hs c' Hc'. state_simpl. rewrite lookup_insert.
  case_decide; [done|]. by apply Hs.
Qed.

Lemma housed_deleteSession c s :
  games_have_lobbies s → games_have_lobbies (deleteSession c s).
Proof.
  intros Hs c'. state_simpl. rewrite !lookup_delete.
  case_decide; [by intros [? ?]|]. apply Hs.
Qed.

Lemma housed_register c l r s :
  games_have_lobbies s →
  games_have_lobbies
    (with_gameStates (store c l s) (<[c := r]> (gameStates s))).
Proof.
  intros Hs c'. state_simpl. rewrite !lookup_insert.
  case_decide; [done|]. apply Hs.
Qed.

Ltac housed :=
  repeat first
    [ assumption
    | apply housed_register
    | apply housed_store
    | apply housed_deleteSession
    | match goal with
      | |- games_have_lobbies (clear_timer_of ?g ?s) =>
          apply (housed_same s);
          [unfold clear_timer_of; by destruct (timerInterval g)..|]
      | |- games_have_lobbies (?f ?x) =>
          apply (housed_same x (f x)); [reflexivity..|]
      | |- games_have_lobbies (?f ?x ?v) =>
          apply (housed_same x (f x v)); [reflexivity..|]
      end ].

Lemma sweep_housed s : games_have_lobbies s → games_have_lobbies (sweep s).
Proof.
  unfold sweep. generalize (now s) as t. intros t.
  generalize (disconnectedPlayers s) as es. intros es. revert s.
  induction es as [|e es IH]; intros s Hs; cbn; [done|].
  apply IH. unfold sweep_entry. repeat case_match; housed.
Qed.

Lemma handle_housed q s :
  games_have_lobbies s → games_have_lobbies (handle q s).
Proof.
  intros Hs. destruct q; cbn [handle].
  - unfold api_lobby_create. repeat case_match; housed.
  - unfold api_lobby_join. repeat case_match; cbv zeta;
      repeat case_match; housed.
  - unfold on_join_lobby. cbv zeta. repeat case_match; housed.
  - unfold on_leave_lobby. repeat case_match; cbv zeta; housed.
  - unfold on_start_game. repeat case_match; cbv zeta; housed.
  - unfold on_cast_vote. repeat case_match; housed.
  - unfold on_restart_game. repeat case_match; cbv zeta; housed.
  - unfold on_disconnect. cbv zeta. repeat case_match; housed.
  - by apply sweep_housed.
  - housed.
Qed.

(** X9.  In every reachable state a registered game belongs to a lobby
    that is alive: no handler and no callback removes a lobby and leaves
    its game in the table. *)
Theorem registered_game_has_a_lobby s c :
  reachable s → is_Some (gameStates s !! c) → is_Some (lobbies s !! c).
Proof.
  intros Hs. revert c. change (games_have_lobbies s). induction Hs.
  - intros c'. cbn. rewrite lookup_empty. by intros [? ?].
  - by apply handle_housed.
  - apply (housed_same s); [apply lobbies_fire| |done].
    pose proof (registries_fire h s) as H. by injection H.
  - done.
Qed.

Lemma registered_game_has_a_lobby_witness :
  is_Some (lobbies (Scenario.outcome Scenario.cy_leaves 104000) !! Scenario.room).
Proof.
  apply registered_game_has_a_lobby; [apply outcome_reachable|].
  vm_compute. eexists. reflexivity.
Defined.

(** ** Handles of pending callbacks *)

Lemma below_same s s' :
  timers s' = timers s → fresh s' = fresh s →
  handles_below_fresh s → handles_below_fresh s'.
Proof. unfold handles_below_fresh. by intros -> ->. Qed.

Lemma below_bump s s' :
  timers s' = timers s → fresh s' = S (fresh s) →
  handles_below_fresh s → handles_below_fresh s'.
Proof.
  unfold handles_below_fresh. intros -> -> Hs h p Hp.
  specialize (Hs h p Hp). lia.
Qed.

Lemma below_setTimeout d t s :
  handles_below_fresh s → handles_below_fresh (setTimeout d t s).
Proof.
  intros Hs h p. state_simpl. rewrite lookup_insert. case_decide; [lia|].
  intros Hp. specialize (Hs h p Hp). lia.
Qed.

Lemma below_clearInterval h0 s :
  handles_below_fresh s → handles_below_fresh (clearInterval h0 s).
Proof.
  intros Hs h p. state_simpl. rewrite lookup_delete.
  case_decide; [done|apply Hs].
Qed.

Lemma below_clear_timer_of g s :
  handles_below_fresh s → handles_below_fresh (clear_timer_of g s).
Proof.
  unfold clear_timer_of. destruct (timerInterval g); [|done].
  apply below_clearInterval.
Qed.

Lemma below_reschedule h s :
  handles_below_fresh s → handles_below_fresh (reschedule h s).
Proof.
  intros Hs h' p. unfold reschedule. state_simpl. rewrite lookup_alter.
  case_decide; [|apply Hs]. subst h'.
  destruct (timers s !! h) as [p0|] eqn:Hp0; [|done].
  intros _. by eapply Hs.
Qed.

Lemma below_startTimer c n k s :
  handles_below_fresh s → handles_below_fresh (startTimer c n k s).
Proof.
  intros Hs. unfold startTimer. destruct (game s c) as [[r g]|]; [|done].
  cbv zeta.
  assert (handles_below_fresh (clear_timer_of g (mutate r (set_timer n) s)))
    as Hs1 by (apply below_clear_timer_of; exact Hs).
  assert (fresh (clear_timer_of g (mutate r (set_timer n) s)) = fresh s) as Hf
    by (unfold clear_timer_of; by destruct (timerInterval g)).
  intros h p. state_simpl. rewrite lookup_insert. case_decide; [lia|].
  intros Hp. specialize (Hs1 h p Hp). lia.
Qed.

Ltac below :=
  repeat first
    [ assumption
    | apply below_setTimeout
    | apply below_clearInterval
    | apply below_clear_timer_of
    | apply below_reschedule
    | apply below_startTimer
    | match goal with
      | |- handles_below_fresh (?f ?x) =>
          apply (below_same x (f x)); [reflexivity..|]
      | |- handles_below_fresh (?f ?x ?v) =>
          apply (below_same x (f x v)); [reflexivity..|]
      end ].

Lemma below_endGame c s :
  handles_below_fresh s → handles_below_fresh (endGame c s).
Proof. intros Hs. unfold endGame. repeat case_match; below. Qed.

Lemma below_calculateResults c s :
  handles_below_fresh s → handles_below_fresh (calculateResults c s).
Proof.
  intros Hs. unfold calculateResults. repeat case_match; cbv zeta; below.
Qed.

Lemma below_startVotingPhase c s :
  handles_below_fresh s → handles_below_fresh (startVotingPhase c s).
Proof.
  intros Hs. unfold startVotingPhase. repeat case_match; cbv zeta; below.
Qed.

Lemma below_startDiscussionPhase c s :
  handles_below_fresh s → handles_below_fresh (startDiscussionPhase c s).
Proof.
  intros Hs. unfold startDiscussionPhase.
  destruct (game s c) as [[r g]|]; [|done].
  destruct (lobbies s !! c); [|done].
  destruct (_ || _); [by apply below_endGame|].
  unfold getRandomImages. cbv zeta.
  destruct (length (gameImages s) <? 3)%nat; cbn [length Nat.ltb Nat.leb];
    [by apply below_endGame|].
  below.
Qed.

Lemma below_nextRound c r s :
  handles_below_fresh s → handles_below_fresh (nextRound c r s).
Proof.
  intros Hs. unfold nextRound. repeat case_match; cbv zeta;
    try apply below_endGame; below.
Qed.

Lemma below_showScoreboard c s :
  handles_below_fresh s → handles_below_fresh (showScoreboard c s).
Proof.
  intros Hs. unfold showScoreboard. repeat case_match; cbv zeta; below.
Qed.

Lemma below_tick c r k s :
  handles_below_fresh s → handles_below_fresh (tick c r k s).
Proof.
  intros Hs. unfold tick. repeat case_match; cbv zeta; [|below..].
  destruct k; cbn [continue];
    [apply below_startVotingPhase | apply below_calculateResults]; below.
Qed.

Lemma below_fire h s :
  handles_below_fresh s → handles_below_fresh (fire h s).
Proof.
  intros Hs. unfold fire. destruct (timers s !! h) as [p|]; [|done].
  cbv zeta. destruct (job p) as [c r k|d].
  - below. apply below_tick. below.
  - assert (handles_below_fresh
              (with_timers (with_now s (due p))
                 (delete h (timers (with_now s (due p)))))) as Hs'.
    { apply (below_clearInterval h (with_now s (due p))). below. }
    destruct d; cbn [delayed];
      [by apply below_startDiscussionPhase
      | by apply below_showScoreboard
      | by apply below_nextRound].
Qed.

Lemma below_handle q s :
  handles_below_fresh s → handles_below_fresh (handle q s).
Proof.
  intros Hs. destruct q; cbn [handle].
  - unfold api_lobby_create. repeat case_match; below.
  - unfold api_lobby_join. repeat case_match; cbv zeta;
      repeat case_match; below.
  - unfold on_join_lobby. cbv zeta. repeat case_match; below.
  - unfold on_leave_lobby. repeat case_match; cbv zeta; below.
  - unfold on_start_game. repeat case_match; cbv zeta; below.
    match goal with
    | |- handles_below_fresh (with_fresh ?x _) =>
        apply (below_bump x); [reflexivity..|]
    end.
    below.
  - unfold on_cast_vote. repeat case_match; below.
  - unfold on_restart_game. repeat case_match; cbv zeta; below.
  - unfold on_disconnect. cbv zeta. repeat case_match; below.
  - destruct (sweep_timers s). by apply (below_same s).
  - below.
Qed.

Lemma reachable_below s : reachable s → handles_below_fresh s.
Proof.
  induction 1.
  - intros h p. cbn. by rewrite lookup_empty.
  - by apply below_handle.
  - by apply below_fire.
  - below.
Qed.

(** ** Starting a game *)

(** X10.  [start-game] does nothing at all, and answers nothing, when
    the lobby does not exist, when the sender is not its host, or when
    the roster has fewer than two entries. *)
Theorem start_game_refusals_are_silent sock c u s :
  (lobbies s !! c = None → on_start_game sock c u s = s)
  ∧ (∀ l, lobbies s !! c = Some l →
          host l ≠ u ∨ length (participants l) < 2 →
          on_start_game sock c u s = s).
Proof.
  unfold on_start_game. split.
  - by intros ->.
  - intros l -> [Hh|Hn].
    + by rewrite bool_decide_eq_false_2.
    + destruct (Nat.leb_spec 2 (length (participants l))); [lia|].
      by rewrite andb_false_r.
Qed.

(** X11.  [start-game] cancels nothing and touches no existing game
    object: in a reachable state, every callback that was pending is
    still pending afterwards, with the same due time, and every game
    object is as it was.  A game in progress is replaced in the table,
    not stopped. *)
Theorem start_game_cancels_nothing sock c u s :
  reachable s →
  (∀ h p, timers s !! h = Some p →
          timers (on_start_game sock c u s) !! h = Some p)
  ∧ (∀ r g, heap s !! r = Some g →
            heap (on_start_game sock c u s) !! r = Some g).
Proof.
  intros Hs. pose proof (reachable_below s Hs) as Hb.
  destruct (reachable_registered s Hs) as [Hr _].
  unfold on_start_game. split.
  - intros h p Hp. specialize (Hb h p Hp).
    repeat case_match; try done. cbv zeta. state_simpl.
    rewrite lookup_insert_ne by lia. done.
  - intros r g Hg. specialize (Hr r g Hg).
    repeat case_match; try done. cbv zeta. state_simpl.
    rewrite lookup_insert_ne by lia. done.
Qed.

Lemma start_game_cancels_nothing_witness :
  let s := Scenario.outcome Scenario.started 4500 in
  let s' := on_start_game 1 Scenario.room "al" s in
  (job <$> timers s !! 2 = Some (Tick Scenario.room 0 ToVoting)
   ∧ gameStates s !! Scenario.room = Some 0
   ∧ gameStates s' !! Scenario.room = Some 3)
  ∧ (∀ h p, timers s !! h = Some p → timers s' !! h = Some p)
  ∧ (∀ r g, heap s !! r = Some g → heap s' !! r = Some g).
Proof.
  intros s s'. split; [repeat split; vm_compute; reflexivity|].
  apply start_game_cancels_nothing, outcome_reachable.
Defined.

(** ** Casting a vote *)

(** X12.  The first complete vote of a user in a voting phase is
    recorded under the user's name and stands: whatever the same user
    sends afterwards changes nothing.  A vote is dropped without any
    change when no game is registered, when the phase is not [voting],
    when a vote of that user is recorded, when the name is one that
    every object inherits, or when one of the three choices is empty. *)
Theorem first_vote_stands c u v s :
  (∀ r g, game s c = Some (r, g) → phase g = "voting" →
          votes g !! u = None → JS.proto_key u = false → complete v = true →
          game (on_cast_vote c u v s) c = Some (r, record u v g)
          ∧ ∀ v', on_cast_vote c u v' (on_cast_vote c u v s)
                  = on_cast_vote c u v s)
  ∧ (game s c = None → on_cast_vote c u v s = s)
  ∧ (∀ r g, game s c = Some (r, g) →
            phase g ≠ "voting" ∨ is_Some (votes g !! u)
            ∨ JS.proto_key u = true ∨ complete v = false →
            on_cast_vote c u v s = s).
Proof.
  split; [|split].
  - intros r g Hg Hph Hv Hp Hc.
    assert (accepts g u v = true) as Ha.
    { unfold accepts, has_voted. rewrite Hv, Hp, Hc.
      rewrite bool_decide_eq_true_2 by done.
      by rewrite bool_decide_eq_false_2 by (by intros [? ?]). }
    rewrite (on_cast_vote_unfold c u v s r g Hg), Ha.
    pose proof (game_mutate s c r g (record u v) Hg) as Hg'.
    split; [exact Hg'|]. intros v'.
    rewrite (on_cast_vote_unfold c u v' _ r _ Hg').
    unfold accepts, has_voted, record. cbn. rewrite lookup_insert_eq.
    rewrite (bool_decide_eq_true_2 (is_Some (Some v))) by eauto.
    by rewrite andb_false_r.
  - unfold on_cast_vote. by intros ->.
  - intros r g Hg Hno. rewrite (on_cast_vote_unfold c u v s r g Hg).
    unfold accepts, has_voted.
    destruct Hno as [Hph|[Hv|[Hp|Hc]]].
    + by rewrite bool_decide_eq_false_2.
    + rewrite (bool_decide_eq_true_2 (is_Some _)) by done.
      by rewrite andb_false_r.
    + rewrite Hp, orb_true_r. by rewrite andb_false_r.
    + rewrite Hc. by rewrite andb_false_r.
Qed.

(** X13.  In every reachable state, every recorded vote has its three
    choices set and is recorded under a name that an object literal does
    not inherit.  So the tally's own test of the three fields never
    rejects a recorded vote: the ballots are the recorded votes of the
    connected participants, in roster order; and no winner is an
    inherited name, so that the score of a winner is read as a number or
    as missing. *)
Theorem recorded_votes_are_complete s r g :
  reachable s → heap s !! r = Some g →
  (∀ u v, votes g !! u = Some v → complete v = true ∧ JS.proto_key u = false)
  ∧ (∀ ps, ballots ps (votes g)
           = omap (λ p, if connected p
                        then (λ v, (username p, v)) <$> votes g !! username p
                        else None) ps)
  ∧ (∀ ps m u, u ∈ winners m (ballots ps (votes g)) →
               JS.proto_key u = false).
Proof.
  intros Hs Hg. destruct (reachable_tidy s Hs r g Hg) as (Hv & _).
  split; [exact Hv|]. split.
  - intros ps. unfold ballots. induction ps as [|p ps IH]; [done|].
    cbn. rewrite IH. destruct (connected p); [|done].
    destruct (votes g !! username p) as [v|] eqn:Hp; [|done].
    destruct (Hv _ _ Hp) as [-> _]. done.
  - intros ps m u Hu. apply winners_voter, ballots_voter in Hu as [_ [v Hu]].
    by destruct (Hv _ _ Hu).
Qed.

Lemma recorded_votes_are_complete_witness :
  let s := Scenario.outcome Scenario.bo_votes_first 72000 in
  votes (object_at 0 s) !! "bo" = Some Scenario.bac
  ∧ complete Scenario.bac = true ∧ JS.proto_key "bo" = false.
Proof.
  intros s.
  assert (votes (object_at 0 s) !! "bo" = Some Scenario.bac) as Hv
    by (vm_compute; reflexivity).
  split; [exact Hv|].
  destruct (recorded_votes_are_complete s 0 (object_at 0 s)) as (H & _);
    [apply outcome_reachable | vm_compute; reflexivity |].
  exact (H "bo" Scenario.bac Hv).
Defined.

(** X14.  No score is ever negative: in every reachable state every
    score recorded in a game object is at least 0. *)
Theorem scores_are_never_negative s r g u n :
  reachable s → heap s !! r = Some g → scores g !! u = Some n → (0 ≤ n)%Z.
Proof.
  intros Hs Hg. destruct (reachable_tidy s Hs r g Hg) as (_ & Hsc & _).
  apply Hsc.
Qed.

Lemma scores_are_never_negative_witness :
  let s := Scenario.outcome Scenario.cy_leaves 104000 in
  scores (object_at 0 s) !! "al" = Some 1%Z ∧ (0 ≤ 1)%Z.
Proof.
  intros s.
  assert (scores (object_at 0 s) !! "al" = Some 1%Z) as Hv
    by (vm_compute; reflexivity).
  split; [exact Hv|].
  apply (scores_are_never_negative s 0 (object_at 0 s) "al" 1);
    [apply outcome_reachable | vm_compute; reflexivity | exact Hv].
Defined.

(** X15.  In every reachable state the round number of a game object is
    at least 1 and the round shows either no image (before the first
    discussion, and after a restart) or exactly three. *)
Theorem rounds_show_three_images_or_none s r g :
  reachable s → heap s !! r = Some g →
  (1 ≤ roundNumber g)%Z
  ∧ (currentImages g = [] ∨ length (currentImages g) = 3).
Proof.
  intros Hs Hg. destruct (reachable_tidy s Hs r g Hg) as (_ & _ & Hr & Hi & _).
  by split.
Qed.

Lemma rounds_show_three_images_or_none_witness :
  let s := Scenario.outcome Scenario.cy_leaves 104000 in
  (1 ≤ roundNumber (object_at 0 s))%Z
  ∧ (currentImages (object_at 0 s) = []
     ∨ length (currentImages (object_at 0 s)) = 3).
Proof.
  intros s.
  apply (rounds_show_three_images_or_none s 0 (object_at 0 s));
    [apply outcome_reachable | vm_compute; reflexivity].
Defined.

(** ** The countdown *)

Lemma emitted_startTimer c n k s : emitted (startTimer c n k s) = emitted s.
Proof.
  unfold startTimer. destruct (game s c) as [[r g]|]; [|done].
  cbv zeta. state_simpl. unfold clear_timer_of.
  by destruct (timerInterval g).
Qed.

Lemma emitted_continue k c s :
  ∃ more, emitted (continue k c s) = emitted s ++ more.
Proof.
  destruct k; cbn [continue].
  - unfold startVotingPhase. destruct (game s c) as [[r g]|].
    + cbv zeta. rewrite emitted_startTimer. state_simpl. by eexists.
    + exists []. by rewrite app_nil_r.
  - unfold calculateResults.
    destruct (game s c) as [[r g]|]; [destruct (lobbies s !! c)|].
    + cbv zeta. state_simpl. eexists. by rewrite <- !app_assoc.
    + exists []. by rewrite app_nil_r.
    + exists []. by rewrite app_nil_r.
Qed.

(** X16.  The countdown stays in range.  In every reachable state, the
    object of a scheduled interval refers to that interval and its timer
    is between 1 and 60; so the tick that runs next broadcasts, as its
    first event, a remaining time between 0 and 59. *)
Theorem countdown_stays_in_range s h p c r k :
  reachable s → timers s !! h = Some p → job p = Tick c r k →
  ∃ g more,
    heap s !! r = Some g ∧ timerInterval g = Some h
    ∧ (0 ≤ timer g - 1 < 60)%Z
    ∧ emitted (fire h s)
      = emitted s ++ to_room c (game_timer (timer g - 1)) :: more.
Proof.
  intros Hs Hp Hj.
  destruct (reachable_registered s Hs) as [_ Hreg].
  destruct (Hreg h p c r k Hp Hj) as (g & Hg & Hi).
  destruct (reachable_tidy s Hs r g Hg) as (_ & _ & _ & _ & Ht & Hu).
  assert (1 ≤ timer g)%Z as H1 by (apply Ht; congruence).
  unfold fire. rewrite Hp. cbv zeta. rewrite Hj.
  unfold reschedule, tick. state_simpl. rewrite Hg. cbv zeta.
  destruct (timer g - 1 <=? 0)%Z.
  - destruct (emitted_continue k c
                (mutate r (set_timerInterval None)
                   (clear_timer_of g
                      (broadcast c (game_timer (timer g - 1))
                         (mutate r (set_timer (timer g - 1))
                            (with_now s (due p))))))) as [more Hmore].
    exists g, more. split; [done|]. split; [done|]. split; [lia|].
    state_simpl. rewrite Hmore. state_simpl.
    unfold clear_timer_of. destruct (timerInterval g); state_simpl;
      by rewrite <- app_assoc.
  - exists g, []. split; [done|]. split; [done|]. split; [lia|].
    by state_simpl.
Qed.

Lemma countdown_stays_in_range_witness :
  let s := Scenario.outcome Scenario.started 4500 in
  ∃ g more,
    heap s !! 0 = Some g ∧ timerInterval g = Some 2
    ∧ (0 ≤ timer g - 1 < 60)%Z
    ∧ emitted (fire 2 s)
      = emitted s ++ to_room Scenario.room (game_timer (timer g - 1)) :: more.
Proof.
  intros s.
  apply (countdown_stays_in_range s 2
           (mkPending 5000 (Tick Scenario.room 0 ToVoting))
           Scenario.room 0 ToVoting);
    [apply outcome_reachable | vm_compute; reflexivity | reflexivity].
Defined.

(** ** Leaving and disconnecting *)

(** X17.  [leave-lobby] cancels no callback and changes no game object,
    whatever it does to the lobby; it touches no other lobby.  While a
    game is running it removes nobody: the roster keeps its names and
    the game stays registered.  When it removes the lobby, the game
    leaves the table with it and the room is told [lobby-closed]. *)
Theorem leave_lobby_cancels_nothing sock c u s :
  let s' := on_leave_lobby sock c u s in
  timers s' = timers s ∧ heap s' = heap s ∧ sockets s' = sockets s
  ∧ (∀ c', c' ≠ c → lobbies s' !! c' = lobbies s !! c'
                    ∧ gameStates s' !! c' = gameStates s !! c')
  ∧ (∀ l, lobbies s !! c = Some l → mid_game s c = true →
          gameStates s' = gameStates s
          ∧ ∃ l', lobbies s' !! c = Some l' ∧ names l' = names l
                  ∧ host l' = host l)
  ∧ (∀ l, lobbies s !! c = Some l → lobbies s' !! c = None →
          gameStates s' !! c = None ∧ mid_game s c = false
          ∧ (u = host l ∨ without u (participants l) = [])
          ∧ last (emitted s') = Some (to_room c lobby_closed)).
Proof.
  cbv zeta. unfold on_leave_lobby.
  split; [by repeat case_match|]. split; [by repeat case_match|].
  split; [by repeat case_match|]. split; [|split].
  - intros c' Hne. repeat case_match; state_simpl;
      rewrite ?lookup_insert_ne, ?lookup_delete_ne by done; done.
  - intros l Hl Hm. rewrite Hl, Hm. unfold member.
    case_bool_decide; state_simpl.
    + split; [done|]. rewrite lookup_insert_eq. eexists. split; [done|].
      unfold names. cbn. by rewrite mark_names.
    + split; [done|]. eauto.
  - intros l Hl. rewrite Hl. destruct (mid_game s c).
    + unfold member. case_bool_decide; state_simpl;
        rewrite ?lookup_insert_eq, ?Hl; done.
    + cbv zeta. cbn [participants set_participants].
      destruct (length (without u (participants l)) =? 0)%nat eqn:Hn;
        [|case_bool_decide as Hh]; cbn [orb]; state_simpl.
      * intros _. rewrite lookup_delete_eq, last_snoc.
        apply Nat.eqb_eq, nil_length_inv in Hn. auto.
      * intros _. rewrite lookup_delete_eq, last_snoc. auto.
      * by rewrite lookup_insert_eq.
Qed.

(** X18.  For a participant whose socket joined the lobby, [disconnect]
    does to lobbies, games, grace records and the room's events exactly
    what [leave-lobby] does; it forgets the socket, and the only further
    difference is that it may cancel a callback, which [leave-lobby]
    never does. *)
Theorem disconnect_acts_like_leave_lobby sock c u s l :
  sockets s !! sock = Some (Some u, Some c) → c ≠ "" → u ≠ "" →
  lobbies s !! c = Some l → u ∈ names l →
  let s1 := on_disconnect sock s in
  let s2 := on_leave_lobby sock c u s in
  lobbies s1 = lobbies s2 ∧ gameStates s1 = gameStates s2
  ∧ disconnectedPlayers s1 = disconnectedPlayers s2
  ∧ emitted s1 = emitted s2 ∧ heap s1 = heap s2
  ∧ sockets s1 = delete sock (sockets s)
  ∧ timers s1 ⊆ timers s2.
Proof.
  intros Hsock Hc Hu Hl Hin. cbv zeta.
  unfold on_disconnect, on_leave_lobby. rewrite Hsock. cbv zeta.
  destruct (JS.truthy c) eqn:Hc'; [|by apply truthy_empty in Hc'].
  destruct (JS.truthy u) eqn:Hu'; [|by apply truthy_empty in Hu'].
  cbn [andb].
  change (lobbies (with_sockets s ?v)) with (lobbies s). rewrite Hl.
  unfold member. rewrite !bool_decide_eq_true_2 by done.
  change (mid_game (with_sockets s ?v) c) with (mid_game s c).
  destruct (mid_game s c); [by state_simpl|].
  cbv zeta. destruct (_ || _); [|by state_simpl].
  change (game (with_sockets s ?v) c) with (game s c).
  destruct (game s c) as [[r g]|]; [|by state_simpl].
  unfold clear_timer_of. destruct (timerInterval g); state_simpl;
    repeat split; try done.
  apply delete_subseteq.
Qed.

Lemma disconnect_acts_like_leave_lobby_witness :
  let s := Scenario.outcome Scenario.started 4500 in
  let s1 := on_disconnect 2 s in
  let s2 := on_leave_lobby 2 Scenario.room "bo" s in
  lobbies s1 = lobbies s2 ∧ gameStates s1 = gameStates s2
  ∧ disconnectedPlayers s1 = disconnectedPlayers s2
  ∧ emitted s1 = emitted s2 ∧ heap s1 = heap s2
  ∧ sockets s1 = delete 2 (sockets s)
  ∧ timers s1 ⊆ timers s2.
Proof.
  intros s.
  apply (disconnect_acts_like_leave_lobby 2 Scenario.room "bo" s
           (mkLobby Scenario.room "al"
              [mkParticipant "al" true true; mkParticipant "bo" false true]
              0 true));
    [vm_compute; reflexivity | discriminate | discriminate
    | vm_compute; reflexivity
    | unfold names; cbn; apply list_elem_of_further, list_elem_of_here].
Defined.

(** X19.  When [disconnect] tears a session down in a reachable state,
    lobby and game leave their tables and no interval of the game's
    object stays scheduled. *)
Theorem disconnect_teardown_leaves_no_interval sock s u c l r g :
  reachable s →
  sockets s !! sock = Some (Some u, Some c) → c ≠ "" → u ≠ "" →
  lobbies s !! c = Some l → u ∈ names l →
  game s c = Some (r, g) → phase g = "waiting" →
  u = host l ∨ without u (participants l) = [] →
  let s' := on_disconnect sock s in
  lobbies s' !! c = None ∧ gameStates s' !! c = None
  ∧ ∀ h p c' k, timers s' !! h = Some p → job p ≠ Tick c' r k.
Proof.
  intros Hs Hsock Hc Hu Hl Hin Hg Hph Hlast. cbv zeta.
  destruct (reachable_registered s Hs) as [_ Hreg].
  unfold on_disconnect. rewrite Hsock. cbv zeta.
  destruct (JS.truthy c) eqn:Hc'; [|by apply truthy_empty in Hc'].
  destruct (JS.truthy u) eqn:Hu'; [|by apply truthy_empty in Hu'].
  cbn [andb].
  change (lobbies (with_sockets s ?v)) with (lobbies s). rewrite Hl.
  unfold member. rewrite bool_decide_eq_true_2 by done.
  unfold mid_game.
  change (game (with_sockets s ?v) c) with (game s c). rewrite Hg.
  rewrite bool_decide_eq_false_2 by (by intros Hne; apply Hne).
  cbv zeta. cbn [participants set_participants].
  assert ((length (without u (participants l)) =? 0)%nat
          || bool_decide (u = host l) = true) as ->.
  { destruct Hlast as [->| ->].
    - rewrite bool_decide_eq_true_2 by done. apply orb_true_r.
    - done. }
  unfold clear_timer_of.
  destruct (timerInterval g) as [h0|] eqn:Hh0; state_simpl;
    rewrite !lookup_delete_eq; (split; [done|]; split; [done|]).
  - intros h p c' k. rewrite lookup_delete. case_decide as Hne; [done|].
    intros Hp Hj. destruct (Hreg h p c' r k Hp Hj) as (g' & Hg' & Hi).
    apply game_heap in Hg. congruence.
  - intros h p c' k Hp Hj. destruct (Hreg h p c' r k Hp Hj) as (g' & Hg' & Hi).
    apply game_heap in Hg. congruence.
Qed.

Lemma disconnect_teardown_leaves_no_interval_witness :
  let s := Scenario.outcome
             (Scenario.started ++ [(93500%Z, RestartGame 1 Scenario.room)])
             103700 in
  let s' := on_disconnect 1 s in
  (live_intervals Scenario.room s = [6]
   ∧ live_intervals Scenario.room s' = [])
  ∧ lobbies s' !! Scenario.room = None ∧ gameStates s' !! Scenario.room = None
  ∧ ∀ h p c' k, timers s' !! h = Some p → job p ≠ Tick c' 0 k.
Proof.
  intros s. split; [split; vm_compute; reflexivity|].
  apply (disconnect_teardown_leaves_no_interval 1 s "al" Scenario.room
           (mkLobby Scenario.room "al"
              [mkParticipant "al" true true; mkParticipant "bo" false true]
              0 true)
           0 (object_at 0 s));
    [apply outcome_reachable | vm_compute; reflexivity | discriminate
    | discriminate | vm_compute; reflexivity
    | unfold names; cbn; apply list_elem_of_here
    | vm_compute; reflexivity | vm_compute; reflexivity
    | left; reflexivity].
Defined.

(** ** What the sweep changes *)

Lemma shrinks_refl s : shrinks s s.
Proof. intros c. by destruct (lobbies s !! c). Qed.

Lemma shrinks_trans s1 s2 s3 : shrinks s1 s2 → shrinks s2 s3 → shrinks s1 s3.
Proof.
  intros H12 H23 c. specialize (H12 c). specialize (H23 c).
  destruct (lobbies s1 !! c), (lobbies s2 !! c), (lobbies s3 !! c);
    try done.
  destruct H12 as [Hs12 He12], H23 as [Hs23 He23]. split.
  - by etrans.
  - congruence.
Qed.

Lemma sweep_entry_shrinks t s e : shrinks s (sweep_entry t s e).
Proof.
  unfold sweep_entry. case_match; [|apply shrinks_refl].
  intros c. destruct (lobbies s !! e.2.1) as [l|] eqn:Hl; state_simpl;
    [|by destruct (lobbies s !! c)].
  destruct (decide (e.2.1 = c)) as [<-|Hne].
  - rewrite Hl, lookup_insert_eq. split; [|done]. cbn.
    unfold without. apply sublist_filter.
  - rewrite lookup_insert_ne by done. by destruct (lobbies s !! c).
Qed.

Lemma sweep_entry_keeps t s e :
  (gameStates (sweep_entry t s e), sockets (sweep_entry t s e),
   gameImages (sweep_entry t s e), now (sweep_entry t s e))
  = (gameStates s, sockets s, gameImages s, now s).
Proof. unfold sweep_entry. by repeat case_match. Qed.

Lemma sweep_entry_records t s e :
  disconnectedPlayers (sweep_entry t s e)
  = if (grace <? t - e.2.2)%Z then dp_delete e.1 (disconnectedPlayers s)
    else disconnectedPlayers s.
Proof. unfold sweep_entry. by repeat case_match. Qed.

Lemma sweep_fold_shrinks t es s :
  let s' := fold_left (sweep_entry t) es s in
  shrinks s s'
  ∧ (gameStates s', sockets s', gameImages s', now s')
    = (gameStates s, sockets s, gameImages s, now s)
  ∧ disconnectedPlayers s'
    = filter (λ e, e.1 ∉ (filter (expired t) es).*1) (disconnectedPlayers s).
Proof.
  cbv zeta. revert s. induction es as [|e es IH]; intros s.
  - cbn. split; [apply shrinks_refl|]. split; [done|].
    symmetry. apply filter_all. intros x. apply not_elem_of_nil.
  - cbn [fold_left]. destruct (IH (sweep_entry t s e)) as (Hs & Hk & Hd).
    split; [|split].
    + eapply shrinks_trans; [apply sweep_entry_shrinks|done].
    + by rewrite Hk, sweep_entry_keeps.
    + rewrite Hd, sweep_entry_records, filter_cons. unfold expired at 2.
      destruct (Z.ltb_spec grace (t - e.2.2)) as [Hlt|Hge].
      * rewrite decide_True by done. unfold dp_delete.
        rewrite list_filter_filter. apply list_filter_iff.
        intros x. rewrite fmap_cons, not_elem_of_cons. tauto.
      * rewrite decide_False by (unfold expired; lia). done.
Qed.

(** X20.  The sweep only takes participants off rosters and records off
    the grace table: every lobby stays, with its code, host and flag and
    with a roster that is a sub-list of the one before; the grace table
    becomes a sub-list of itself; games, game objects, pending callbacks
    and sockets are untouched. *)
Theorem sweep_only_shrinks_rosters s :
  shrinks s (sweep s)
  ∧ disconnectedPlayers (sweep s) `sublist_of` disconnectedPlayers s
  ∧ gameStates (sweep s) = gameStates s ∧ heap (sweep s) = heap s
  ∧ timers (sweep s) = timers s ∧ sockets (sweep s) = sockets s
  ∧ gameImages (sweep s) = gameImages s.
Proof.
  destruct (sweep_fold_shrinks (now s) (disconnectedPlayers s) s)
    as (Hs & Hk & Hd).
  fold (sweep s) in Hs, Hk, Hd. injection Hk as Hg Hso Hi _.
  destruct (sweep_timers s) as [Ht _].
  repeat split; try done.
  - rewrite Hd. apply sublist_filter.
  - apply sweep_heap.
Qed.

Lemma filter_iff_in {A} (P Q : A → Prop) `{∀ x, Decision (P x)}
    `{∀ x, Decision (Q x)} (l : list A) :
  (∀ x, x ∈ l → P x ↔ Q x) → filter P l = filter Q l.
Proof.
  induction l as [|a l IH]; intros HPQ; [done|].
  rewrite !filter_cons.
  rewrite IH by (intros x Hx; by apply HPQ, list_elem_of_further).
  destruct (HPQ a (list_elem_of_here _ _)).
  destruct (decide (P a)), (decide (Q a)); tauto.
Qed.

Lemma dp_set_keys u v m :
  (dp_set u v m).*1 = if decide (u ∈ m.*1) then m.*1 else m.*1 ++ [u].
Proof.
  induction m as [|[u' v'] m IH]; [done|].
  cbn [dp_set]. destruct (decide (u' = u)) as [->|Hu].
  - rewrite decide_True by (cbn; apply list_elem_of_here). done.
  - rewrite !fmap_cons, IH. cbn [fst].
    destruct (decide (u ∈ m.*1)) as [Hin|Hin].
    + rewrite decide_True by (by apply list_elem_of_further). done.
    + rewrite decide_False; [done|].
      intros [?|?]%elem_of_cons; [by subst|done].
Qed.

Lemma dp_set_NoDup u v m : NoDup m.*1 → NoDup (dp_set u v m).*1.
Proof.
  intros Hm. rewrite dp_set_keys. case_decide as Hin; [done|].
  apply NoDup_app. split; [done|]. split; [|apply NoDup_singleton].
  intros x Hx ->%list_elem_of_singleton. done.
Qed.

Lemma handle_one_record q s :
  one_record_per_user s → one_record_per_user (handle q s).
Proof.
  unfold one_record_per_user. intros Hs.
  destruct (writes_records q) eqn:Hq;
    [|by rewrite handle_keeps_records].
  destruct q; try discriminate Hq; cbn [handle].
  - unfold on_leave_lobby. repeat case_match; state_simpl; try done.
    by apply dp_set_NoDup.
  - unfold on_disconnect. cbv zeta. repeat case_match; state_simpl;
      try done; try (by apply dp_set_NoDup).
    unfold clear_timer_of. by destruct (timerInterval _).
  - destruct (sweep_fold_shrinks (now s) (disconnectedPlayers s) s)
      as (_ & _ & Hd).
    fold (sweep s) in Hd. rewrite Hd.
    eapply sublist_NoDup; [done|]. apply fmap_sublist, sublist_filter.
Qed.

Lemma reachable_one_record s : reachable s → one_record_per_user s.
Proof.
  induction 1.
  - apply NoDup_nil_2.
  - by apply handle_one_record.
  - unfold one_record_per_user. by rewrite disconnectedPlayers_fire.
  - done.
Qed.

Lemma sweep_fold_unexpired t es s :
  Forall (λ e, ¬ expired t e) es → fold_left (sweep_entry t) es s = s.
Proof.
  induction 1 as [|e es He _ IH]; [done|].
  cbn [fold_left]. unfold sweep_entry at 2.
  by destruct (Z.ltb_spec grace (t - e.2.2)).
Qed.

(** X21.  In a reachable state no user has two grace records, and the
    sweep removes exactly the records that are older than five minutes:
    the others stay, in their order.  A record that is removed takes its
    user off the roster of its lobby, if that lobby is alive.  A second
    sweep at the same time changes nothing. *)
Theorem sweep_drops_exactly_the_expired_records s :
  reachable s →
  NoDup (disconnectedPlayers s).*1
  ∧ disconnectedPlayers (sweep s)
    = filter (λ e, ¬ expired (now s) e) (disconnectedPlayers s)
  ∧ (∀ u c ts l', (u, (c, ts)) ∈ disconnectedPlayers s →
                  expired (now s) (u, (c, ts)) →
                  lobbies (sweep s) !! c = Some l' → u ∉ names l')
  ∧ sweep (sweep s) = sweep s.
Proof.
  intros Hs. pose proof (reachable_one_record s Hs) as Hnd.
  destruct (sweep_fold_shrinks (now s) (disconnectedPlayers s) s)
    as (Hsh & Hk & Hd).
  fold (sweep s) in Hsh, Hk, Hd. injection Hk as _ _ _ Hnow.
  assert (disconnectedPlayers (sweep s)
          = filter (λ e, ¬ expired (now s) e) (disconnectedPlayers s)) as Hd'.
  { rewrite Hd. apply filter_iff_in. intros [u [c ts]] Hin. split.
    - intros Hno Hex. apply Hno. apply list_elem_of_fmap.
      exists (u, (c, ts)). split; [done|]. by apply list_elem_of_filter.
    - intros Hno ([u' [c' ts']] & Hu & Hin')%list_elem_of_fmap.
      apply list_elem_of_filter in Hin' as [Hex Hin']. cbn in Hu. subst u'.
      assert ((c', ts') = (c, ts)) as [= -> ->]; [|done].
      clear -Hnd Hin Hin'. unfold one_record_per_user in Hnd.
      induction (disconnectedPlayers s) as [|[k v] m IH];
        [by apply elem_of_nil in Hin|].
      rewrite fmap_cons in Hnd. apply NoDup_cons in Hnd as [Hk Hnd].
      apply elem_of_cons in Hin as [Hin|Hin], Hin' as [Hin'|Hin'].
      + congruence.
      + injection Hin as -> ->. destruct Hk. apply list_elem_of_fmap.
        by exists (k, (c', ts')).
      + injection Hin' as -> ->. destruct Hk. apply list_elem_of_fmap.
        by exists (k, (c, ts)).
      + by apply IH. }
  split; [exact Hnd|]. split; [exact Hd'|]. split.
  - intros u c ts l' Hin Hex Hl'.
    assert (is_Some (lobbies s !! c)) as Hl.
    { specialize (Hsh c). rewrite Hl' in Hsh.
      by destruct (lobbies s !! c). }
    destruct (sweep_fold_removes c u (now s) (disconnectedPlayers s) s ts
                Hin Hl Hex) as (l & Hl2 & Hu).
    fold (sweep s) in Hl2. congruence.
  - unfold sweep at 1. rewrite Hnow, Hd'. apply sweep_fold_unexpired.
    apply Forall_forall. intros x Hx. by apply list_elem_of_filter in Hx as [? _].
Qed.

Lemma sweep_drops_exactly_the_expired_records_witness :
  let s := Scenario.outcome Scenario.started 4500 in
  let s1 := with_now (on_leave_lobby 2 Scenario.room "bo" s) 360000 in
  (disconnectedPlayers s1 = [("bo", (Scenario.room, 4500%Z))]
   ∧ disconnectedPlayers (sweep s1) = [])
  ∧ NoDup (disconnectedPlayers s1).*1
  ∧ disconnectedPlayers (sweep s1)
    = filter (λ e, ¬ expired (now s1) e) (disconnectedPlayers s1)
  ∧ (∀ u c ts l', (u, (c, ts)) ∈ disconnectedPlayers s1 →
                  expired (now s1) (u, (c, ts)) →
                  lobbies (sweep s1) !! c = Some l' → u ∉ names l')
  ∧ sweep (sweep s1) = sweep s1.
Proof.
  intros s s1. split; [split; vm_compute; reflexivity|].
  apply sweep_drops_exactly_the_expired_records.
  apply reach_wait, (reach_handle (LeaveLobby 2 Scenario.room "bo")).
  apply outcome_reachable.
Defined.

(** ** What the callbacks leave alone *)

Lemma advance_registries fuel t s s' :
  advance fuel t s = Some s' → registries s' = registries s ∧ now s' = t.
Proof.
  revert s. induction fuel as [|fuel IH]; intros s; cbn [advance].
  - destruct (next_due s) as [[h p]|]; [destruct (due p <=? t)%Z|];
      try done; by intros [= <-].
  - destruct (next_due s) as [[h p]|]; [destruct (due p <=? t)%Z|];
      try (by intros [= <-]).
    intros Hs'. destruct (IH _ Hs') as [-> ->].
    split; [apply registries_fire|done].
Qed.

(** X22.  The game logic never touches the tables that the requests
    maintain: none of the phase functions, no tick and no timeout
    changes the lobbies, the table of games, the grace records, the
    image pool or the sockets.  However much time passes between two
    requests, these tables stay as the last request left them. *)
Theorem callbacks_leave_the_registries_alone c n k r s :
  registries (startDiscussionPhase c s) = registries s
  ∧ registries (startVotingPhase c s) = registries s
  ∧ registries (calculateResults c s) = registries s
  ∧ registries (showScoreboard c s) = registries s
  ∧ registries (nextRound c r s) = registries s
  ∧ registries (endGame c s) = registries s
  ∧ registries (startTimer c n k s) = registries s
  ∧ registries (tick c r k s) = registries s
  ∧ (∀ h, registries (fire h s) = registries s)
  ∧ (∀ fuel t s', advance fuel t s = Some s' →
                  registries s' = registries s ∧ now s' = t).
Proof.
  split; [apply registries_startDiscussionPhase|].
  split; [apply registries_startVotingPhase|].
  split; [apply registries_calculateResults|].
  split; [apply registries_showScoreboard|].
  split; [apply registries_nextRound|].
  split; [apply registries_endGame|].
  split; [apply registries_startTimer|].
  split; [apply registries_tick|].
  split; [intros h; apply registries_fire|].
  intros fuel t s'. apply advance_registries.
Qed.

(** ** Restarting in place *)

(** X23.  An accepted [restart-game] restarts the game in place.  The
    table keeps the same game object, reset to round 1 of a discussion
    with no images and no votes; lobbies, rosters and grace records are
    untouched.  Of the pending callbacks it cancels the interval that
    the object refers to and nothing else, so no interval of the object
    stays scheduled and every other callback stays pending; the new
    discussion is scheduled two seconds later.  The scores of the names
    on the roster are 0, those of other names stay as they were. *)
Theorem restart_game_restarts_in_place sock c s l r g :
  reachable s →
  lobbies s !! c = Some l → game s c = Some (r, g) →
  (sockets s !! sock) ≫= fst = Some (host l) →
  3 ≤ length (gameImages s) →
  let s' := on_restart_game sock c s in
  game s' c = Some (r, restarted l g)
  ∧ registries s' = registries s
  ∧ (∀ h p c' k, timers s' !! h = Some p → job p ≠ Tick c' r k)
  ∧ (∀ h p, timers s !! h = Some p → timerInterval g ≠ Some h →
            timers s' !! h = Some p)
  ∧ timers s' !! fresh s
    = Some (mkPending (now s + 2000) (Once (StartDiscussion c)))
  ∧ (phase (restarted l g), roundNumber (restarted l g),
     currentImages (restarted l g), votes (restarted l g),
     timer (restarted l g))
    = ("discussion", 1%Z, [], ∅, 60%Z)
  ∧ (∀ u, u ∉ names l → scores (restarted l g) !! u = scores g !! u)
  ∧ (∀ u, u ∈ names l → u ≠ "__proto__" →
          scores (restarted l g) !! u = Some 0%Z).
Proof.
  intros Hs Hl Hg Hsock Hi. cbv zeta.
  pose proof (reachable_below s Hs) as Hb.
  destruct (reachable_registered s Hs) as [_ Hreg].
  pose proof (game_heap _ _ _ _ Hg) as Hh.
  unfold on_restart_game. rewrite Hl, Hg.
  rewrite bool_decide_eq_true_2 by done.
  destruct (Nat.ltb_spec (length (gameImages s)) 3); [lia|].
  cbv zeta. split; [|split; [|split; [|split; [|split; [|split; [|split]]]]]].
  - change (game (broadcast c (game_started l (restarted l g))
                    (clear_timer_of g (mutate r (restarted l) s))) c
            = Some (r, restarted l g)).
    rewrite game_broadcast, game_clear_timer_of. by apply game_mutate.
  - unfold clear_timer_of. by destruct (timerInterval g).
  - intros h p c' k. unfold clear_timer_of.
    destruct (timerInterval g) as [h0|] eqn:Hh0; state_simpl;
      rewrite lookup_insert; (case_decide; [by intros [= <-]|]).
    + rewrite lookup_delete. case_decide as Hne; [done|].
      intros Hp Hj. destruct (Hreg h p c' r k Hp Hj) as (g' & Hg' & Hi').
      congruence.
    + intros Hp Hj. destruct (Hreg h p c' r k Hp Hj) as (g' & Hg' & Hi').
      congruence.
  - intros h p Hp Hne. specialize (Hb h p Hp). unfold clear_timer_of.
    destruct (timerInterval g) as [h0|] eqn:Hh0; state_simpl;
      rewrite lookup_insert_ne by lia; [|done].
    rewrite lookup_delete_ne by congruence. done.
  - unfold clear_timer_of.
    destruct (timerInterval g); state_simpl; apply lookup_insert_eq.
  - done.
  - intros u Hu. cbn. by apply zero_scores_other.
  - intros u Hu Hne. cbn.
    apply list_elem_of_fmap in Hu as (p & -> & Hp).
    by apply zero_scores_member.
Qed.

Lemma restart_game_restarts_in_place_witness :
  let s := Scenario.outcome Scenario.started 93500 in
  let l := mkLobby Scenario.room "al"
             [mkParticipant "al" true true; mkParticipant "bo" false true]
             0 true in
  let g := object_at 0 s in
  let s' := on_restart_game 1 Scenario.room s in
  (live_intervals Scenario.room s = [] ∧ phase g = "results")
  ∧ game s' Scenario.room = Some (0, restarted l g)
  ∧ registries s' = registries s
  ∧ (∀ h p c' k, timers s' !! h = Some p → job p ≠ Tick c' 0 k)
  ∧ (∀ h p, timers s !! h = Some p → timerInterval g ≠ Some h →
            timers s' !! h = Some p)
  ∧ timers s' !! fresh s
    = Some (mkPending (now s + 2000) (Once (StartDiscussion Scenario.room)))
  ∧ (phase (restarted l g), roundNumber (restarted l g),
     currentImages (restarted l g), votes (restarted l g),
     timer (restarted l g))
    = ("discussion", 1%Z, [], ∅, 60%Z)
  ∧ (∀ u, u ∉ names l → scores (restarted l g) !! u = scores g !! u)
  ∧ (∀ u, u ∈ names l → u ≠ "__proto__" →
          scores (restarted l g) !! u = Some 0%Z).
Proof.
  intros s l g s'. split; [split; vm_compute; reflexivity|].
  apply (restart_game_restarts_in_place 1 Scenario.room s l 0 g);
    [apply outcome_reachable | vm_compute; reflexivity
    | vm_compute; reflexivity | vm_compute; reflexivity
    | vm_compute; lia].
Defined.

(** ** The round's tally in a reachable state *)

(** X27.  [calculateResults] on a registered game of a reachable state:
    the phase becomes [results]; each winner gains exactly one point (a
    winner without a score starts from 0) and every other score stays;
    no winner is counted twice, and every winner is a connected
    participant of the lobby whose recorded vote names the three
    majority images. *)
Theorem round_awards_one_point_to_each_winner c s r g l :
  reachable s → game s c = Some (r, g) → lobbies s !! c = Some l →
  let bs := ballots (participants l) (votes g) in
  let m := majorityChoices bs (currentImages g) in
  let ws := winners m bs in
  heap (calculateResults c s) !! r
  = Some (set_phase "results" (set_scores (award ws (scores g)) g))
  ∧ (∀ u, award ws (scores g) !! u
          = if bool_decide (u ∈ ws)
            then Some (default 0 (scores g !! u) + 1)%Z
            else scores g !! u)
  ∧ NoDup ws
  ∧ (∀ u, u ∈ ws →
          ∃ p v, p ∈ participants l ∧ username p = u ∧ connected p = true
                 ∧ votes g !! u = Some v
                 ∧ m_shoot m = Some (shoot v) ∧ m_shag m = Some (shag v)
                 ∧ m_marry m = Some (marry v)).
Proof.
  intros Hs Hg Hl bs m ws.
  destruct (reachable_rosters s Hs c l Hl) as [_ Hnd].
  pose proof (game_heap _ _ _ _ Hg) as Hh.
  destruct (reachable_tidy s Hs r g Hh) as (Hv & _).
  assert (NoDup ws) as Hws by (by apply winners_NoDup, ballots_NoDup).
  split; [|split; [|split]].
  - unfold calculateResults. rewrite Hg, Hl. cbv zeta. state_simpl.
    by rewrite lookup_alter_eq, Hh.
  - intros u. apply award_exact; [done|].
    intros Hin. apply winners_voter, ballots_voter in Hin as [_ [v Hin]].
    by destruct (Hv _ _ Hin).
  - done.
  - intros u Hu. unfold ws, winners in Hu.
    apply list_elem_of_fmap in Hu as ([u' v] & -> & Hb).
    apply list_elem_of_filter in Hb as [Hm Hb]. cbn in Hm.
    apply ballots_recorded in Hb as (Hv' & _ & p & Hp & Hu & Hc).
    exists p, v. unfold matches in Hm.
    apply andb_prop in Hm as [Hm H3]. apply andb_prop in Hm as [H1 H2].
    apply bool_decide_eq_true in H1, H2, H3. by repeat split.
Qed.

Lemma round_awards_one_point_to_each_winner_witness :
  let s := Scenario.outcome Scenario.bo_votes_first 92500 in
  let l := mkLobby Scenario.room "al"
             [mkParticipant "al" true true; mkParticipant "bo" false true]
             0 true in
  let g := object_at 0 s in
  let bs := ballots (participants l) (votes g) in
  let m := majorityChoices bs (currentImages g) in
  let ws := winners m bs in
  ws = ["al"]
  ∧ heap (calculateResults Scenario.room s) !! 0
    = Some (set_phase "results" (set_scores (award ws (scores g)) g))
  ∧ (∀ u, award ws (scores g) !! u
          = if bool_decide (u ∈ ws)
            then Some (default 0 (scores g !! u) + 1)%Z
            else scores g !! u)
  ∧ NoDup ws
  ∧ (∀ u, u ∈ ws →
          ∃ p v, p ∈ participants l ∧ username p = u ∧ connected p = true
                 ∧ votes g !! u = Some v
                 ∧ m_shoot m = Some (shoot v) ∧ m_shag m = Some (shag v)
                 ∧ m_marry m = Some (marry v)).
Proof.
  intros s l g bs m ws. split; [vm_compute; reflexivity|].
  apply (round_awards_one_point_to_each_winner Scenario.room s 0 g l);
    [apply outcome_reachable | vm_compute; reflexivity
    | vm_compute; reflexivity].
Defined.

(** ** Unanimous and empty rounds *)

Lemma filter_all_in {A} (P : A → Prop) `{∀ x, Decision (P x)} (l : list A) :
  (∀ x, x ∈ l → P x) → filter P l = l.
Proof.
  induction l as [|a l IH]; intros HP; [done|].
  rewrite filter_cons_True by apply HP, list_elem_of_here.
  rewrite IH; [done|]. intros x Hx. by apply HP, list_elem_of_further.
Qed.

Lemma majorityImage_unanimous x n imgs :
  ordinary x → JS.truthy x = true →
  majorityImage (replicate (S n) x) imgs = Some x.
Proof.
  intros Hx Ht.
  apply (majorityImage_first _ imgs [] x (replicate n x)).
  - apply Forall_forall. intros y Hy.
    by apply elem_of_replicate in Hy as [-> _].
  - done.
  - apply not_elem_of_nil.
  - done.
  - intros y Hy. by apply elem_of_nil in Hy.
  - intros y Hy. change (x :: replicate n x) with (replicate (S n) x) in *.
    apply elem_of_replicate in Hy as [-> _]. cbn [app]. lia.
Qed.

Lemma picks_unanimous cat bs v :
  (∀ b, b ∈ bs → b.2 = v) → picks cat bs = replicate (length bs) (cat v).
Proof.
  unfold picks. induction bs as [|b bs IH]; intros Hall; [done|].
  cbn. rewrite (Hall b) by apply list_elem_of_here.
  rewrite IH; [done|]. intros b' Hb'. by apply Hall, list_elem_of_further.
Qed.

(** X28.  When every counted ballot is the same vote, with three
    non-empty choices that are plain keys, the majority is that vote in
    all three categories, whatever the images of the round are, and
    every counted voter wins. *)
Theorem unanimous_ballots_all_win bs imgs v :
  bs ≠ [] → (∀ b, b ∈ bs → b.2 = v) → complete v = true →
  ordinary (shoot v) → ordinary (shag v) → ordinary (marry v) →
  majorityChoices bs imgs
  = mkMajority (Some (shoot v)) (Some (shag v)) (Some (marry v))
  ∧ winners (majorityChoices bs imgs) bs = bs.*1.
Proof.
  intros Hne Hall Hc H1 H2 H3.
  unfold complete in Hc. apply andb_prop in Hc as [Hc Ht3].
  apply andb_prop in Hc as [Ht1 Ht2].
  assert (majorityChoices bs imgs
          = mkMajority (Some (shoot v)) (Some (shag v)) (Some (marry v))) as Hm.
  { unfold majorityChoices. rewrite !(picks_unanimous _ bs v) by done.
    destruct bs as [|b bs]; [done|]. cbn [length].
    by rewrite !majorityImage_unanimous. }
  split; [exact Hm|]. rewrite Hm. unfold winners. f_equal.
  apply filter_all_in. intros b Hb. rewrite (Hall b Hb).
  unfold matches. cbn. by rewrite !bool_decide_eq_true_2.
Qed.

Lemma unanimous_ballots_all_win_witness :
  let bs := [("al", Scenario.abc); ("bo", Scenario.abc); ("cy", Scenario.abc)] in
  majorityChoices bs []
  = mkMajority (Some "/images/a.jpg") (Some "/images/b.jpg")
      (Some "/images/c.jpg")
  ∧ winners (majorityChoices bs []) bs = ["al"; "bo"; "cy"].
Proof.
  intros bs.
  apply (unanimous_ballots_all_win bs [] Scenario.abc).
  - discriminate.
  - intros b Hb. unfold bs in Hb.
    repeat (apply elem_of_cons in Hb as [->|Hb]; [reflexivity|]).
    by apply elem_of_nil in Hb.
  - reflexivity.
  - split; vm_compute; reflexivity.
  - split; vm_compute; reflexivity.
  - split; vm_compute; reflexivity.
Defined.

(** X29.  A round in which no connected participant has a recorded
    vote: the announced majority is the first image of the round in all
    three categories, nobody wins, and no score changes. *)
Theorem round_without_ballots c s r g l :
  game s c = Some (r, g) → lobbies s !! c = Some l →
  (∀ p, p ∈ participants l →
        connected p = false ∨ votes g !! username p = None) →
  let s' := calculateResults c s in
  (scores <$> heap s' !! r) = Some (scores g)
  ∧ emitted s'
    = emitted s
        ++ [to_room c (game_phase_update "results" None);
            to_room c
              (round_results
                 (mkMajority (head (currentImages g)) (head (currentImages g))
                    (head (currentImages g))) 0 0 [])].
Proof.
  intros Hg Hl Hno. cbv zeta.
  assert (ballots (participants l) (votes g) = []) as Hb.
  { clear Hl. induction (participants l) as [|p ps IH]; [done|].
    rewrite ballots_cons.
    destruct (Hno p (list_elem_of_here _ _)) as [-> | ->];
      [|destruct (connected p)];
      apply IH; intros q Hq; by apply Hno, list_elem_of_further. }
  split.
  - unfold calculateResults. rewrite Hg, Hl. cbv zeta. state_simpl.
    rewrite lookup_alter_eq, (game_heap _ _ _ _ Hg), Hb. done.
  - rewrite (calculateResults_emits c s r g l Hg Hl). cbv zeta.
    rewrite Hb. unfold majorityChoices, picks. cbn [map].
    by rewrite !majorityImage_none.
Qed.

Lemma round_without_ballots_witness :
  let s := Scenario.outcome Scenario.started 92500 in
  let s' := calculateResults Scenario.room s in
  let g := object_at 0 s in
  (scores <$> heap s' !! 0) = Some (scores g)
  ∧ emitted s'
    = emitted s
        ++ [to_room Scenario.room (game_phase_update "results" None);
            to_room Scenario.room
              (round_results
                 (mkMajority (head (currentImages g)) (head (currentImages g))
                    (head (currentImages g))) 0 0 [])].
Proof.
  intros s s' g.
  apply (round_without_ballots Scenario.room s 0 g
           (mkLobby Scenario.room "al"
              [mkParticipant "al" true true; mkParticipant "bo" false true]
              0 true));
    [vm_compute; reflexivity | vm_compute; reflexivity |].
  intros p Hp. right.
  repeat (apply elem_of_cons in Hp as [->|Hp]; [vm_compute; reflexivity|]).
  by apply elem_of_nil in Hp.
Defined.

(** ** The start of a discussion *)

Lemma random_images_in_pool s :
  3 ≤ length (gameImages s) →
  length (getRandomImages s).1 = 3
  ∧ Forall (λ i, i ∈ gameImages s) (getRandomImages s).1
  ∧ getRandomImages s = ((getRandomImages s).1, with_draws s (draws s + 3)).
Proof.
  intros Hn. unfold getRandomImages. cbv zeta.
  destruct (Nat.ltb_spec (length (gameImages s)) 3); [lia|]. cbn [fst].
  split; [done|]. split; [|done].
  repeat (apply Forall_cons; split);
    [..|apply Forall_nil_2];
    match goal with
    | |- default _ (_ !! ?i) ∈ _ =>
        destruct (lookup_lt_is_Some_2 (gameImages s) i) as [x Hx];
        [apply Nat.mod_upper_bound; lia
        |rewrite Hx; cbn; by eapply list_elem_of_lookup_2]
    end.
Qed.

(** X30.  A discussion that starts (a registered game of a reachable
    state whose lobby is alive, three images in the pool, rounds left)
    shows three images drawn from the pool, discards the votes of the
    round before, and keeps scores and round number.  It announces the
    images and then the phase with the round number.  Afterwards exactly
    one interval is scheduled for the game object, due one second later,
    and the object refers to it. *)
Theorem discussion_starts_with_three_pool_images c s r g :
  reachable s → game s c = Some (r, g) → is_Some (lobbies s !! c) →
  3 ≤ length (gameImages s) → (roundNumber g ≤ totalRounds g)%Z →
  let s' := startDiscussionPhase c s in
  let sel := (getRandomImages s).1 in
  length sel = 3 ∧ Forall (λ i, i ∈ gameImages s) sel
  ∧ heap s' !! r
    = Some (set_timerInterval (Some (fresh s))
              (set_timer 60
                 (set_votes ∅
                    (set_phase "discussion" (set_currentImages sel g)))))
  ∧ emitted s'
    = emitted s
        ++ [to_room c (images_selected sel);
            to_room c (game_phase_update "discussion" (Some (roundNumber g)))]
  ∧ timers s' !! fresh s
    = Some (mkPending (now s + 1000) (Tick c r ToVoting))
  ∧ (∀ h p c' k, timers s' !! h = Some p → job p = Tick c' r k →
                 h = fresh s).
Proof.
  intros Hs Hg [l Hl] Hi Hr. cbv zeta.
  destruct (reachable_registered s Hs) as [_ Hreg].
  pose proof (game_heap _ _ _ _ Hg) as Hh.
  destruct (random_images_in_pool s Hi) as (Hlen & Hin & Hsel).
  unfold startDiscussionPhase. rewrite Hg, Hl.
  destruct (Nat.ltb_spec (length (gameImages s)) 3); [lia|].
  destruct (Z.ltb_spec (totalRounds g) (roundNumber g)); [lia|].
  cbn [orb]. rewrite Hsel. set (sel := (getRandomImages s).1) in *.
  destruct (Nat.ltb_spec (length sel) 3); [lia|].
  split; [done|]. split; [done|].
  set (g2 := set_timer 60
               (set_votes ∅ (set_phase "discussion"
                               (set_currentImages sel g)))).
  set (s5 := broadcast c (game_phase_update "discussion" (Some (roundNumber g)))
               (broadcast c (images_selected sel)
                  (clear_timer_of g
                     (mutate r (λ g, set_timer 60
                                       (set_votes ∅
                                          (set_phase "discussion"
                                             (set_currentImages sel g))))
                        (with_draws s (draws s + 3)))))).
  assert (game s5 c = Some (r, g2)) as Hg5.
  { unfold s5. rewrite !game_broadcast, game_clear_timer_of.
    exact (game_mutate (with_draws s (draws s + 3)) c r g
             (λ g, set_timer 60
                     (set_votes ∅
                        (set_phase "discussion" (set_currentImages sel g))))
             Hg). }
  assert (heap s5 !! r = Some g2) as Hh5 by (by apply game_heap in Hg5).
  assert (fresh s5 = fresh s ∧ now s5 = now s
          ∧ emitted s5
            = emitted s
                ++ [to_room c (images_selected sel);
                    to_room c (game_phase_update "discussion"
                                 (Some (roundNumber g)))]
          ∧ timers s5 = timers (clear_timer_of g s)) as (Hf5 & Hn5 & He5 & Ht5).
  { unfold s5, clear_timer_of. destruct (timerInterval g); state_simpl;
      by rewrite <- app_assoc. }
  cbv zeta. fold s5. clearbody s5.
  assert (fresh (clear_timer_of g2 (mutate r (set_timer 60) s5)) = fresh s
          ∧ now (clear_timer_of g2 (mutate r (set_timer 60) s5)) = now s
          ∧ timers (clear_timer_of g2 (mutate r (set_timer 60) s5))
            = timers (clear_timer_of g s)) as (Hf6 & Hn6 & Ht6).
  { unfold clear_timer_of in *. cbn [g2 timerInterval set_timer set_votes
                                       set_phase set_currentImages].
    destruct (timerInterval g); state_simpl; rewrite ?Ht5; [|done].
    state_simpl. by rewrite delete_delete_eq. }
  split; [|split; [|split]].
  - rewrite (startTimer_heap c 60 ToVoting s5 r g2 Hg5), lookup_alter_eq, Hh5.
    by rewrite Hf5.
  - by rewrite emitted_startTimer.
  - unfold startTimer. rewrite Hg5. cbv zeta. state_simpl.
    rewrite Hf6, Hn6. apply lookup_insert_eq.
  - intros h p c' k. unfold startTimer. rewrite Hg5. cbv zeta. state_simpl.
    rewrite Hf6, Ht6, lookup_insert. case_decide; [done|].
    unfold clear_timer_of.
    destruct (timerInterval g) as [h0|] eqn:Hh0; state_simpl.
    + rewrite lookup_delete. case_decide as Hne; [done|].
      intros Hp Hj. destruct (Hreg h p c' r k Hp Hj) as (g' & Hg' & Hi').
      congruence.
    + intros Hp Hj. destruct (Hreg h p c' r k Hp Hj) as (g' & Hg' & Hi').
      congruence.
Qed.

Lemma discussion_starts_with_three_pool_images_witness :
  let s := Scenario.outcome Scenario.started 2500 in
  let g := object_at 0 s in
  let s' := startDiscussionPhase Scenario.room s in
  let sel := (getRandomImages s).1 in
  length sel = 3 ∧ Forall (λ i, i ∈ gameImages s) sel
  ∧ heap s' !! 0
    = Some (set_timerInterval (Some (fresh s))
              (set_timer 60
                 (set_votes ∅
                    (set_phase "discussion" (set_currentImages sel g)))))
  ∧ emitted s'
    = emitted s
        ++ [to_room Scenario.room (images_selected sel);
            to_room Scenario.room
              (game_phase_update "discussion" (Some (roundNumber g)))]
  ∧ timers s' !! fresh s
    = Some (mkPending (now s + 1000) (Tick Scenario.room 0 ToVoting))
  ∧ (∀ h p c' k, timers s' !! h = Some p → job p = Tick c' 0 k →
                 h = fresh s).
Proof.
  intros s g.
  apply (discussion_starts_with_three_pool_images Scenario.room s 0 g);
    [apply outcome_reachable | vm_compute; reflexivity
    | vm_compute; eexists; reflexivity | vm_compute; lia
    | vm_compute; discriminate].
Defined.

(** ** Sessions that are gone *)

(** X26.  Once the game of a room is out of the table, the functions
    that begin by looking it up do nothing, and a pending timeout that
    would start a discussion or show the scoreboard for the room is
    spent without any effect: no event, no new callback, no change to a
    game object. *)
Theorem callbacks_of_a_deleted_session_do_nothing c s :
  gameStates s !! c = None →
  (∀ n k, startDiscussionPhase c s = s ∧ startVotingPhase c s = s
          ∧ calculateResults c s = s ∧ showScoreboard c s = s
          ∧ endGame c s = s ∧ startTimer c n k s = s)
  ∧ (∀ h p, timers s !! h = Some p →
            job p = Once (StartDiscussion c) ∨ job p = Once (ShowScoreboard c) →
            fire h s = with_timers (with_now s (due p)) (delete h (timers s))).
Proof.
  intros Hc. split.
  - intros n k. by apply deleted_session_callbacks.
  - intros h p Hp Hj. unfold fire. rewrite Hp. cbv zeta.
    assert (gameStates
              (with_timers (with_now s (due p))
                 (delete h (timers (with_now s (due p))))) !! c = None)
      as Hc' by exact Hc.
    destruct (deleted_session_callbacks c 0 ToVoting _ Hc')
      as (Hd & _ & _ & Hsb & _).
    destruct Hj as [-> | ->]; cbn [delayed]; [exact Hd|exact Hsb].
Qed.

Lemma callbacks_of_a_deleted_session_do_nothing_witness :
  let s := Scenario.outcome Scenario.restarted_then_closed 103700 in
  (∀ n k, startDiscussionPhase Scenario.room s = s
          ∧ startVotingPhase Scenario.room s = s
          ∧ calculateResults Scenario.room s = s
          ∧ showScoreboard Scenario.room s = s
          ∧ endGame Scenario.room s = s
          ∧ startTimer Scenario.room n k s = s)
  ∧ (∀ h p, timers s !! h = Some p →
            job p = Once (StartDiscussion Scenario.room)
            ∨ job p = Once (ShowScoreboard Scenario.room) →
            fire h s = with_timers (with_now s (due p)) (delete h (timers s))).
Proof.
  intros s. apply callbacks_of_a_deleted_session_do_nothing.
  vm_compute. reflexivity.
Defined.

Lemma one_interval_per_game_object_witness :
  let s := Scenario.outcome Scenario.started_twice 7200 in
  (job <$> timers s !! 2 = Some (Tick Scenario.room 0 ToVoting)
   ∧ job <$> timers s !! 5 = Some (Tick Scenario.room 3 ToVoting))
  ∧ 2 = 2.
Proof.
  intros s. split; [split; vm_compute; reflexivity|].
  apply (one_interval_per_game_object s 2 2
           (mkPending 8000 (Tick Scenario.room 0 ToVoting))
           (mkPending 8000 (Tick Scenario.room 0 ToVoting))
           Scenario.room Scenario.room 0 ToVoting ToVoting);
    [apply outcome_reachable | vm_compute; reflexivity | reflexivity
    | vm_compute; reflexivity | reflexivity].
Defined.
